(** * ClaudeSessionsViewer: the recovery and normalisation engine of [viewer.py]

    A shallow embedding of the functions of [src/viewer.py] that turn a
    session artifact (a line-delimited JSON file of the CLI, or an opaque
    LevelDB blob of the desktop application) into a summary and a list of
    events, together with the properties the specification states of them.

    Python values are modelled as follows.
    - [str] is a list of Unicode code points ([N]); [bytes] is a list of
      octets.
    - A value produced by [json.loads] is a [json]; a [dict] is an
      association list in insertion order.
    - Python integers are [Z]; a [float] is a binary64 [spec_float].
    - A function that can raise returns a [result].
    - Functions of the Python standard library whose behaviour rests on
      tables or on the environment ([json.loads], [json.dumps], [str()],
      [str.lower], the local time zone, the codecs) are the fields of the
      class [PyLib]; the engine is written over an arbitrary instance and
      [RefLib] is a reference instance on which examples are evaluated. *)

From Stdlib Require Import String Ascii.
From Stdlib Require Import List ZArith NArith Bool Lia PeanoNat.
From Stdlib Require Import Permutation.
From Stdlib Require Import Floats.SpecFloat.
Import ListNotations.

Set Implicit Arguments.

(* ================================================================== *)
(** * Python text *)
(* ================================================================== *)

(** A code point, a [str], and a [bytes] object. *)
Abbreviation char := N (only parsing).
Abbreviation str := (list N) (only parsing).
Abbreviation bytes := (list N) (only parsing).

(** An ASCII literal as a [str]. *)
Definition lit (s : string) : str :=
  map N_of_ascii (list_ascii_of_string s).
Arguments lit s%_string.

Definition ch_lbrace : char := 123%N.
Definition ch_rbrace : char := 125%N.
Definition ch_quote : char := 34%N.
Definition ch_backslash : char := 92%N.
Definition ch_newline : char := 10%N.
Definition ch_space : char := 32%N.
Definition ch_apostrophe : char := 39%N.

(** A literal written with apostrophes where the text has double quotes. *)
Definition qlit (s : string) : str :=
  map (fun c => if (c =? ch_apostrophe)%N then ch_quote else c) (lit s).
Arguments qlit s%_string.

(** [len(s)] *)
Definition len {A : Type} (l : list A) : Z := Z.of_nat (length l).

(** [s[:n]] for a constant [n >= 0]. *)
Definition slice_to {A : Type} (n : Z) (l : list A) : list A :=
  firstn (Z.to_nat n) l.

Fixpoint str_eqb (a b : str) : bool :=
  match a, b with
  | [], [] => true
  | x :: a', y :: b' => (x =? y)%N && str_eqb a' b'
  | _, _ => false
  end.

(** [x in (a, b, ...)] for strings. *)
Definition str_in (x : str) (l : list str) : bool :=
  existsb (str_eqb x) l.

(** [str.isspace] of one code point (the table of CPython's
    [_PyUnicode_IsWhitespace]). *)
Definition isspace (c : char) : bool :=
  ((9 <=? c) && (c <=? 13) || (28 <=? c) && (c <=? 32)
   || (c =? 133) || (c =? 160) || (c =? 5760)
   || (8192 <=? c) && (c <=? 8202)
   || (c =? 8232) || (c =? 8233) || (c =? 8239) || (c =? 8287)
   || (c =? 12288))%N.

Fixpoint lstrip (s : str) : str :=
  match s with
  | c :: s' => if isspace c then lstrip s' else s
  | [] => []
  end.

Definition rstrip (s : str) : str := rev (lstrip (rev s)).

(** [s.strip()] *)
Definition strip (s : str) : str := rstrip (lstrip s).

(** Truth value of a string: [bool(s)]. *)
Definition nonempty {A : Type} (l : list A) : bool :=
  match l with [] => false | _ => true end.

(** [sep.join(parts)] *)
Fixpoint join (sep : str) (parts : list str) : str :=
  match parts with
  | [] => []
  | [p] => p
  | p :: rest => p ++ sep ++ join sep rest
  end.

Fixpoint starts_with (p s : str) : bool :=
  match p, s with
  | [], _ => true
  | x :: p', y :: s' => (x =? y)%N && starts_with p' s'
  | _ :: _, [] => false
  end.

Definition ends_with (p s : str) : bool := starts_with (rev p) (rev s).

(** [sub in s] *)
Fixpoint contains (sub s : str) : bool :=
  starts_with sub s ||
  match s with
  | [] => false
  | _ :: s' => contains sub s'
  end.

(** [s.replace("\n", " ")] *)
Definition replace_newlines (s : str) : str :=
  map (fun c => if (c =? ch_newline)%N then ch_space else c) s.

(* ================================================================== *)
(** * JSON values *)
(* ================================================================== *)

Unset Elimination Schemes.
Inductive json : Type :=
| JNull
| JBool (b : bool)
| JInt (n : Z)
| JFloat (f : spec_float)
| JStr (s : str)
| JList (items : list json)
| JDict (d : list (str * json)).
Set Elimination Schemes.

(** A [dict] with string keys, in insertion order. *)
Abbreviation dict := (list (list N * json)) (only parsing).

Fixpoint dict_find (d : dict) (k : str) : option json :=
  match d with
  | [] => None
  | (k', v) :: d' => if str_eqb k k' then Some v else dict_find d' k
  end.

(** [k in d] *)
Definition dict_has (d : dict) (k : str) : bool :=
  match dict_find d k with Some _ => true | None => false end.

(** [d.get(k, default)] *)
Definition dict_get_default (d : dict) (k : str) (default : json) : json :=
  match dict_find d k with Some v => v | None => default end.

(** [d.get(k)] *)
Definition dict_get (d : dict) (k : str) : json := dict_get_default d k JNull.

(** [d[k] = v]: a present key keeps its place. *)
Fixpoint dict_set (d : dict) (k : str) (v : json) : dict :=
  match d with
  | [] => [(k, v)]
  | (k', v') :: d' =>
      if str_eqb k k' then (k', v) :: d' else (k', v') :: dict_set d' k v
  end.

(* ================================================================== *)
(** * Results of functions that can raise *)
(* ================================================================== *)

Inductive exn : Type :=
| AttributeError.

Inductive result (A : Type) : Type :=
| Ok (a : A)
| Raise (e : exn).

Arguments Ok {A} a.
Arguments Raise {A} e.

(* ================================================================== *)
(** * JSONObjectRecoverer: [_extract_json_candidates_balanced] *)
(* ================================================================== *)

(** The inner [while j < n] loop.  [l] is [text[j:]]; the candidate starts
    at offset [0], and the result is the offset [j] at which the loop
    breaks, or [None] when it runs to the end of the text. *)
Fixpoint scan_balanced (l : str) (depth : Z) (in_str esc : bool) (j : nat)
  : option nat :=
  match l with
  | [] => None
  | ch :: l' =>
      if in_str then
        if esc then scan_balanced l' depth in_str false (S j)
        else if (ch =? ch_backslash)%N then scan_balanced l' depth in_str true (S j)
        else if (ch =? ch_quote)%N then scan_balanced l' depth false esc (S j)
        else scan_balanced l' depth in_str esc (S j)
      else
        if (ch =? ch_quote)%N then scan_balanced l' depth true esc (S j)
        else if (ch =? ch_lbrace)%N then scan_balanced l' (depth + 1) in_str esc (S j)
        else if (ch =? ch_rbrace)%N then
          let depth := (depth - 1)%Z in
          if (depth =? 0)%Z then Some j
          else scan_balanced l' depth in_str esc (S j)
        else scan_balanced l' depth in_str esc (S j)
  end.

(** [24 <= len(chunk) <= 200_000] *)
Definition chunk_in_bounds (chunk : str) : bool :=
  ((24 <=? len chunk) && (len chunk <=? 200000))%Z.

(** The outer [while i < n and len(out) < limit] loop.  [rest] is
    [text[i:]]; every turn advances [i] by at least one, so [len(text)]
    turns are enough. *)
Fixpoint candidates_loop (fuel : nat) (rest : str) (limit : Z) (out : list str)
  : list str :=
  match fuel with
  | O => out
  | S fuel' =>
      match rest with
      | [] => out
      | ch :: rest' =>
          if (len out <? limit)%Z then
            if negb (ch =? ch_lbrace)%N then
              candidates_loop fuel' rest' limit out
            else
              match scan_balanced rest 0 false false 0 with
              | Some j =>
                  let chunk := firstn (S j) rest in
                  let out' := if chunk_in_bounds chunk then out ++ [chunk] else out in
                  candidates_loop fuel'
                    (if (0 <? j)%nat then skipn (S j) rest else rest') limit out'
              | None => out
              end
          else out
      end
  end.

Definition _extract_json_candidates_balanced (text : str) (limit : Z) : list str :=
  candidates_loop (length text) text limit [].

(* ================================================================== *)
(** * TextHarvester: [_extract_text_recursive] *)
(* ================================================================== *)

Definition text_keys : list str :=
  [lit "text"; lit "content"; lit "message"; lit "prompt";
   lit "output"; lit "input"; lit "value"; lit "body"].

Definition skip_keys : list str :=
  [lit "type"; lit "id"; lit "uuid"; lit "role"; lit "sender"; lit "author";
   lit "version"; lit "updatedAt"; lit "createdAt"; lit "timestamp";
   lit "time"; lit "ts"].

Fixpoint _extract_text_recursive (obj : json) : list str :=
  match obj with
  | JStr s =>
      let s := strip s in
      if nonempty s then [s] else []
  | JList items =>
      (fix each (l : list json) : list str :=
         match l with
         | [] => []
         | item :: l' => _extract_text_recursive item ++ each l'
         end) items
  | JDict d =>
      (* for k in text_keys: if k in obj: extend(recurse(obj.get(k))) *)
      (fix keys (ks : list str) : list str :=
         match ks with
         | [] => []
         | k :: ks' =>
             (fix at_key (l : dict) : list str :=
                match l with
                | [] => []
                | (k', v) :: l' =>
                    if str_eqb k k' then _extract_text_recursive v else at_key l'
                end) d ++ keys ks'
         end) text_keys
      ++
      (* for k, v in obj.items(): skip text and metadata keys *)
      (fix others (l : dict) : list str :=
         match l with
         | [] => []
         | (k, v) :: l' =>
             (if str_in k text_keys || str_in k skip_keys then []
              else _extract_text_recursive v) ++ others l'
         end) d
  | _ => []
  end.

(* ================================================================== *)
(** * The Python standard library, as the engine uses it *)
(* ================================================================== *)

Class PyLib : Type := {
  (** [json.loads(s)]; [None] when it raises. *)
  json_loads : str -> option json;
  (** [json.dumps(obj, ensure_ascii=False)] *)
  json_dumps : json -> str;
  (** [str(x)], which is also how an f-string renders [{x}]. *)
  py_str : json -> str;
  (** [s.lower()] *)
  str_lower : str -> str;
  (** The value of a code point that the pattern [\d] matches. *)
  decimal_digit : char -> option Z;
  (** [datetime.fromtimestamp(t).isoformat()] for the instant [sec]
      seconds and [usec] microseconds after the epoch, in the local time
      zone; [None] when it raises (year out of range, platform limits). *)
  localtime_isoformat : Z -> Z -> option str;
  (** [raw.decode("utf-8", errors="ignore")] *)
  decode_utf8_ignore : bytes -> str;
  (** [raw.decode("utf-16le", errors="ignore")] *)
  decode_utf16le_ignore : bytes -> str
}.

(** [v == s] for a string constant [s]. *)
Definition json_eq_str (v : json) (s : str) : bool :=
  match v with
  | JStr t => str_eqb t s
  | _ => false
  end.

(** Truth value of a JSON value: [bool(v)]. *)
Definition truthy (v : json) : bool :=
  match v with
  | JNull => false
  | JBool b => b
  | JInt n => negb (n =? 0)%Z
  | JFloat (S754_zero _) => false
  | JFloat _ => true
  | JStr s => nonempty s
  | JList l => nonempty l
  | JDict d => nonempty d
  end.

(* ================================================================== *)
(** * Binary64 arithmetic of the timestamp path *)
(* ================================================================== *)

Definition prec : Z := 53.
Definition emax : Z := 1024.

Inductive pynum : Type :=
| PInt (n : Z)
| PFloat (f : spec_float).

(** [float(n)]: the nearest double, ties to even; [None] for the
    [OverflowError] of an integer too large for a double. *)
Definition float_of_int (n : Z) : option spec_float :=
  match binary_normalize prec emax n 0 false with
  | S754_infinity _ => None
  | f => Some f
  end.

Definition float_1000 : spec_float :=
  binary_normalize prec emax 1000 0 false.

Definition float_1e6 : spec_float :=
  binary_normalize prec emax 1000000 0 false.

Definition float_1e12 : spec_float :=
  binary_normalize prec emax 1000000000000 0 false.

(** [x > 1_000_000_000_000] *)
Definition gt_1e12 (x : pynum) : bool :=
  match x with
  | PInt n => (1000000000000 <? n)%Z
  | PFloat f => SFltb float_1e12 f
  end.

(** [x / 1000.0]; [None] when converting an integer overflows. *)
Definition div_1000 (x : pynum) : option spec_float :=
  match x with
  | PInt n =>
      match float_of_int n with
      | Some f => Some (SFdiv prec emax f float_1000)
      | None => None
      end
  | PFloat f => Some (SFdiv prec emax f float_1000)
  end.

(** [modf(d)]: the integral part, and the fractional part as a double. *)
Definition modf (f : spec_float) : option (Z * spec_float) :=
  match f with
  | S754_zero _ => Some (0%Z, f)
  | S754_finite s m e =>
      if (0 <=? e)%Z then
        Some (cond_Zopp s (Z.shiftl (Zpos m) e), S754_zero s)
      else
        let q := Z.shiftr (Zpos m) (- e) in
        let r := (Zpos m - Z.shiftl q (- e))%Z in
        Some (cond_Zopp s q, binary_normalize prec emax (cond_Zopp s r) e s)
  | _ => None
  end.

(** The integer nearest to a double, ties to even. *)
Definition round_half_even (f : spec_float) : Z :=
  match f with
  | S754_finite s m e =>
      if (0 <=? e)%Z then cond_Zopp s (Z.shiftl (Zpos m) e)
      else
        let q := Z.shiftr (Zpos m) (- e) in
        let r := (Zpos m - Z.shiftl q (- e))%Z in
        let half := Z.shiftl 1 (- e - 1) in
        let up := (half <? r)%Z || ((r =? half)%Z && Z.odd q) in
        cond_Zopp s (if up then q + 1 else q)%Z
  | _ => 0%Z
  end.

(** Seconds and microseconds of a timestamp, as [datetime.fromtimestamp]
    splits its argument (CPython's [_PyTime_ObjectToTimeval] with
    [ROUND_HALF_EVEN]); [None] for a NaN or an infinity. *)
Definition timeval_of (x : pynum) : option (Z * Z) :=
  match x with
  | PInt n => Some (n, 0%Z)
  | PFloat f =>
      match modf f with
      | None => None
      | Some (intpart, floatpart) =>
          let us := round_half_even (SFmul prec emax floatpart float_1e6) in
          if (1000000 <=? us)%Z then Some (intpart + 1, us - 1000000)%Z
          else if (us <? 0)%Z then Some (intpart - 1, us + 1000000)%Z
          else Some (intpart, us)
      end
  end.

(* ================================================================== *)
(** * The engine *)
(* ================================================================== *)

Inductive Kind : Type :=
| KMessage | KQueue | KProgress | KSystem | KSnippet | KNotice | KEvent.

Inductive Role : Type :=
| RUser | RAssistant | RDeveloper | RSystem.

Definition Role_eqb (a b : Role) : bool :=
  match a, b with
  | RUser, RUser | RAssistant, RAssistant
  | RDeveloper, RDeveloper | RSystem, RSystem => true
  | _, _ => false
  end.

Record Event : Type := {
  timestamp : str;
  kind : Kind;
  role : Role;
  text : str
}.

(** What [load_cli_events] and [load_desktop_events] return. *)
Record Loaded : Type := {
  events : list Event;
  raw_line_count : Z
}.

(** The fields of a summary that are read from the artifact's content.
    The others come from its path and its modification time; [project],
    which the PathLabelDecoder derives from the path or from [cwd], is
    not part of this development. *)
Record Summary : Type := {
  started_at : str;
  cwd : str;
  model : str;
  first_user_text : str;
  search_text : str
}.

Definition MAX_EVENTS : Z := 4000.
Definition MAX_DESKTOP_SCAN_BYTES : Z := 2 * 1024 * 1024.

Section Engine.

Context {L : PyLib}.

(** ** TimestampNormalizer: [_iso_from_ts] *)

(** [datetime.fromtimestamp(x).isoformat()] inside [try ... except]:
    the empty string when it raises. *)
Definition fromtimestamp_isoformat (x : pynum) : str :=
  match timeval_of x with
  | Some (sec, usec) =>
      match localtime_isoformat sec usec with
      | Some s => s
      | None => []
      end
  | None => []
  end.

(** The body shared by the numeric and the digit-string case. *)
Definition iso_from_number (x : pynum) : str :=
  if gt_1e12 x then
    match div_1000 x with
    | Some f => fromtimestamp_isoformat (PFloat f)
    | None => []
    end
  else fromtimestamp_isoformat x.

(** [int(s)] of a string of decimal digits; [None] when a code point is
    not a digit. *)
Fixpoint int_of_digits (s : str) (acc : Z) : option Z :=
  match s with
  | [] => Some acc
  | c :: s' =>
      match decimal_digit c with
      | Some d => int_of_digits s' (10 * acc + d)%Z
      | None => None
      end
  end.

(** [re.fullmatch(r"\d{10,16}", s)], giving [int(s)] on a match. *)
Definition fullmatch_digits_10_16 (s : str) : option Z :=
  if ((10 <=? len s) && (len s <=? 16))%Z then int_of_digits s 0 else None.

Definition _iso_from_ts (ts : json) : str :=
  match ts with
  | JBool b => iso_from_number (PInt (if b then 1 else 0))
  | JInt n => iso_from_number (PInt n)
  | JFloat f => iso_from_number (PFloat f)
  | JStr ts =>
      let s := strip ts in
      if negb (nonempty s) then []
      else
        match fullmatch_digits_10_16 s with
        | Some n => iso_from_number (PInt n)
        | None => s
        end
  | _ => []
  end.

Definition ts_keys : list str :=
  [lit "timestamp"; lit "time"; lit "created_at"; lit "createdAt"; lit "ts"].

Fixpoint first_ts (d : dict) (keys : list str) : str :=
  match keys with
  | [] => []
  | key :: keys' =>
      if dict_has d key then
        let parsed := _iso_from_ts (dict_get d key) in
        if nonempty parsed then parsed else first_ts d keys'
      else first_ts d keys'
  end.

Definition _extract_ts_from_obj (obj : json) : str :=
  match obj with
  | JDict d => first_ts d ts_keys
  | _ => []
  end.

(** ** RoleClassifier: [_guess_role] *)

Definition role_alias (low : str) : option Role :=
  if str_in low [lit "user"; lit "human"] then Some RUser
  else if str_in low [lit "assistant"; lit "claude"; lit "ai"] then Some RAssistant
  else if str_in low [lit "developer"; lit "dev"] then Some RDeveloper
  else if str_eqb low (lit "system") then Some RSystem
  else None.

Definition type_alias (low : str) : option Role :=
  if str_in low [lit "user"; lit "human_message"; lit "human"] then Some RUser
  else if str_in low [lit "assistant"; lit "assistant_message"] then Some RAssistant
  else if str_in low [lit "system"; lit "system_message"] then Some RSystem
  else None.

(** The role a field names, when it is a string of the alias table. *)
Definition role_of_field (v : json) : option Role :=
  match v with
  | JStr s => role_alias (str_lower s)
  | _ => None
  end.

Fixpoint first_role (d : dict) (keys : list str) : option Role :=
  match keys with
  | [] => None
  | key :: keys' =>
      match role_of_field (dict_get d key) with
      | Some r => Some r
      | None => first_role d keys'
      end
  end.

Definition message_role (d : dict) : option Role :=
  match dict_get d (lit "message") with
  | JDict msg => role_of_field (dict_get msg (lit "role"))
  | _ => None
  end.

Definition type_role (d : dict) : option Role :=
  match dict_get d (lit "type") with
  | JStr typ => type_alias (str_lower typ)
  | _ => None
  end.

Definition _guess_role (obj : json) : Role :=
  match obj with
  | JDict d =>
      match message_role d with
      | Some r => r
      | None =>
          match first_role d [lit "role"; lit "sender"; lit "author"] with
          | Some r => r
          | None =>
              match type_role d with
              | Some r => r
              | None => RSystem
              end
          end
      end
  | _ => RSystem
  end.

(** ** MessageReconstructor: [_extract_claude_message_text] *)

(** [[s.strip()] if s.strip() else []] *)
Definition stripped_chunk (s : str) : list str :=
  if nonempty (strip s) then [strip s] else [].

(** What one element of the [content] list appends to [chunks]. *)
Definition content_chunks (item : json) : list str :=
  match item with
  | JDict it =>
      let typ := dict_get it (lit "type") in
      if json_eq_str typ (lit "text") then
        match dict_get it (lit "text") with
        | JStr t => stripped_chunk t
        | _ => []
        end
      else if json_eq_str typ (lit "thinking") then
        match dict_get it (lit "thinking") with
        | JStr t => stripped_chunk t
        | _ => []
        end
      else if json_eq_str typ (lit "tool_use") then
        let name := dict_get_default it (lit "name") (JStr []) in
        let tool_input := dict_get it (lit "input") in
        let arg :=
          match tool_input with
          | JDict _ => json_dumps tool_input
          | _ => py_str (if truthy tool_input then tool_input else JStr [])
          end in
        [strip (lit "[tool_use] " ++ py_str name ++ lit " " ++ arg)]
      else if json_eq_str typ (lit "tool_result") then
        let t := join [ch_newline]
                   (_extract_text_recursive (dict_get it (lit "content"))) in
        if nonempty (strip t) then [lit "[tool_result] " ++ strip t] else []
      else
        let t := join [ch_newline] (_extract_text_recursive item) in
        stripped_chunk t
  | JStr s => stripped_chunk s
  | _ => []
  end.

Definition _extract_claude_message_text (message_obj : json) : str :=
  match message_obj with
  | JStr s => strip s
  | JDict m =>
      match dict_get m (lit "content") with
      | JStr content => strip content
      | content =>
          let chunks :=
            match content with
            | JList items => flat_map content_chunks items
            | _ => []
            end in
          if nonempty chunks then strip (join [ch_newline] chunks)
          else strip (join [ch_newline] (_extract_text_recursive message_obj))
      end
  | _ => []
  end.

(** [_extract_claude_progress_text(obj)] for a dict [obj]. *)
Definition _extract_claude_progress_text (obj : dict) : str :=
  match dict_get obj (lit "data") with
  | JDict data =>
      let typ := dict_get data (lit "type") in
      let field := fun k => py_str (dict_get_default data (lit k) (JStr [])) in
      if json_eq_str typ (lit "mcp_progress") then
        strip (lit "mcp_progress status=" ++ field "status"%string
               ++ lit " server=" ++ field "serverName"%string
               ++ lit " tool=" ++ field "toolName"%string
               ++ lit " elapsed=" ++ field "elapsedTimeMs"%string)
      else if json_eq_str typ (lit "hook_progress") then
        strip (lit "hook_progress event=" ++ field "hookEvent"%string
               ++ lit " name=" ++ field "hookName"%string
               ++ lit " command=" ++ field "command"%string)
      else json_dumps (JDict data)
  | _ => []
  end.

(** ** [_extract_json_objects_from_text] and [_extract_json_objects_from_bytes] *)

Definition has_content_marker (chunk : str) : bool :=
  contains (qlit "'text'") chunk || contains (qlit "'content'") chunk
  || contains (qlit "'prompt'") chunk || contains (qlit "'message'") chunk.

(** The [for chunk in ...] loop of [_extract_json_objects_from_text];
    [seen] is the set of keys met so far. *)
Fixpoint objects_loop (chunks : list str) (limit : Z) (seen : list str)
    (objs : list json) : list json :=
  match chunks with
  | [] => objs
  | chunk :: rest =>
      if negb (has_content_marker chunk) then objects_loop rest limit seen objs
      else
        let key := slice_to 400 chunk in
        if str_in key seen then objects_loop rest limit seen objs
        else
          let seen := key :: seen in
          match json_loads chunk with
          | Some (JDict d) =>
              let objs := objs ++ [JDict d] in
              if (limit <=? len objs)%Z then objs
              else objects_loop rest limit seen objs
          | _ => objects_loop rest limit seen objs
          end
  end.

Definition _extract_json_objects_from_text (text : str) (limit : Z) : list json :=
  objects_loop (_extract_json_candidates_balanced text (limit * 6)) limit [] [].

(** [json.dumps(obj, ensure_ascii=False)[:400]] *)
Definition signature (obj : json) : str := slice_to 400 (json_dumps obj).

(** The inner [for obj in objs] loop of [_extract_json_objects_from_bytes];
    the flag says whether the function returned from inside it. *)
Fixpoint merge_objects (objs : list json) (limit : Z) (seen : list str)
    (out : list json) : list str * list json * bool :=
  match objs with
  | [] => (seen, out, false)
  | obj :: rest =>
      let sig := signature obj in
      if str_in sig seen then merge_objects rest limit seen out
      else
        let seen := sig :: seen in
        let out := out ++ [obj] in
        if (limit <=? len out)%Z then (seen, out, true)
        else merge_objects rest limit seen out
  end.

(** The outer [for text in texts] loop. *)
Fixpoint merge_texts (texts : list str) (limit : Z) (seen : list str)
    (out : list json) : list json :=
  match texts with
  | [] => out
  | text :: rest =>
      if negb (nonempty text) then merge_texts rest limit seen out
      else
        let objs := _extract_json_objects_from_text text limit in
        let '(seen, out, returned) := merge_objects objs limit seen out in
        if returned then out else merge_texts rest limit seen out
  end.

Definition decodings (raw : bytes) : list str :=
  [decode_utf8_ignore raw; decode_utf16le_ignore raw].

Definition _extract_json_objects_from_bytes (raw : bytes) (limit : Z) : list json :=
  merge_texts (decodings raw) limit [] [].

(** ** [_extract_readable_snippets] *)

(** The character class [[ -~\\u3040-\\u30FF\\u4E00-\\u9FFF]]. *)
Definition readable (c : char) : bool :=
  ((32 <=? c) && (c <=? 126) || (12352 <=? c) && (c <=? 12543)
   || (19968 <=? c) && (c <=? 40959))%N.

(** The longest prefix of at most [n] readable characters, and what
    follows it. *)
Fixpoint take_run (n : nat) (s : str) : str * str :=
  match n, s with
  | S n', c :: s' =>
      if readable c then
        let '(m, rest) := take_run n' s' in (c :: m, rest)
      else ([], s)
  | _, _ => ([], s)
  end.

(** [re.finditer(r"[...]{24,300}", text)]: the matches, left to right. *)
Fixpoint finditer_runs (fuel : nat) (s : str) : list str :=
  match fuel with
  | O => []
  | S fuel' =>
      match s with
      | [] => []
      | _ :: s' =>
          let '(m, rest) := take_run 300 s in
          if (24 <=? len m)%Z then m :: finditer_runs fuel' rest
          else finditer_runs fuel' s'
      end
  end.

Definition finditer (text : str) : list str :=
  finditer_runs (length text) text.

Fixpoint snippet_matches (ms : list str) (limit : Z) (seen : list str)
    (snippets : list str) : list str * list str * bool :=
  match ms with
  | [] => (seen, snippets, false)
  | m :: rest =>
      let s := strip m in
      if (len s <? 24)%Z then snippet_matches rest limit seen snippets
      else if contains (lit "IndexedDB") s || contains (lit "LEVELDB") s then
        snippet_matches rest limit seen snippets
      else
        let key := slice_to 160 s in
        if str_in key seen then snippet_matches rest limit seen snippets
        else
          let seen := key :: seen in
          let snippets := snippets ++ [s] in
          if (limit <=? len snippets)%Z then (seen, snippets, true)
          else snippet_matches rest limit seen snippets
  end.

Fixpoint snippet_texts (texts : list str) (limit : Z) (seen : list str)
    (snippets : list str) : list str :=
  match texts with
  | [] => snippets
  | text :: rest =>
      if negb (nonempty text) then snippet_texts rest limit seen snippets
      else
        let '(seen, snippets, returned) :=
          snippet_matches (finditer text) limit seen snippets in
        if returned then snippets else snippet_texts rest limit seen snippets
  end.

Definition _extract_readable_snippets (raw : bytes) (limit : Z) : list str :=
  snippet_texts (decodings raw) limit [] [].

(** ** SessionSummarizer *)

Definition _is_probably_textual_json_line (line : str) : bool :=
  let s := strip line in
  starts_with [ch_lbrace] s && ends_with [ch_rbrace] s.

(** The state of the loop of [summarize_cli_session]: the fields of
    [summary] it fills, and [search_chunks]. *)
Record CliState : Type := {
  st_started_at : str;
  st_model : str;
  st_cwd : str;
  st_first_user_text : str;
  search_chunks : list str
}.

Definition search_limit : Z := 2500.

(** [for k in ("model", "model_name", "modelName"): ...; break] *)
Fixpoint first_model (obj : json) (keys : list str) : str :=
  match keys with
  | [] => []
  | k :: keys' =>
      let v := match obj with JDict d => dict_get d k | _ => JNull end in
      match v with
      | JStr s => if nonempty s then s else first_model obj keys'
      | _ => first_model obj keys'
      end
  end.

(** [text.replace("\n", " ")[:n]] *)
Definition preview (n : Z) (text : str) : str :=
  slice_to n (replace_newlines text).

(** One parsed record: the body of the loop after [json.loads]. *)
Definition cli_summary_step (st : CliState) (obj : json) : CliState :=
  let started :=
    if nonempty (st_started_at st) then st_started_at st
    else _extract_ts_from_obj obj in
  let model :=
    if nonempty (st_model st) then st_model st
    else first_model obj [lit "model"; lit "model_name"; lit "modelName"] in
  let cwd :=
    if nonempty (st_cwd st) then st_cwd st
    else
      match (match obj with JDict d => dict_get d (lit "cwd") | _ => JNull end) with
      | JStr v => v
      | _ => st_cwd st
      end in
  let role := _guess_role obj in
  let texts := _extract_text_recursive obj in
  let text := strip (join [ch_space] texts) in
  let first_user :=
    if nonempty texts
       && Role_eqb role RUser && negb (nonempty (st_first_user_text st))
    then preview 180 text
    else st_first_user_text st in
  let chunks :=
    if nonempty texts
       && (len (join [ch_space] (search_chunks st)) <? search_limit)%Z
    then search_chunks st ++ [preview 320 text]
    else search_chunks st in
  {| st_started_at := started; st_model := model; st_cwd := cwd;
     st_first_user_text := first_user; search_chunks := chunks |}.

(** [if summary["first_user_text"] and len(" ".join(search_chunks)) >= search_limit: break] *)
Definition cli_summary_done (st : CliState) : bool :=
  nonempty (st_first_user_text st)
  && (search_limit <=? len (join [ch_space] (search_chunks st)))%Z.

Fixpoint cli_summary_loop (lines : list str) (st : CliState) : CliState :=
  match lines with
  | [] => st
  | line :: rest =>
      if negb (_is_probably_textual_json_line line) then cli_summary_loop rest st
      else
        match json_loads line with
        | None => cli_summary_loop rest st
        | Some obj =>
            let st := cli_summary_step st obj in
            if cli_summary_done st then st else cli_summary_loop rest st
        end
  end.

(** [summarize_cli_session], on the lines the file yields. *)
Definition summarize_cli_session (lines : list str) : Summary :=
  let st := cli_summary_loop lines
              {| st_started_at := []; st_model := []; st_cwd := [];
                 st_first_user_text := []; search_chunks := [] |} in
  {| started_at := st_started_at st; cwd := st_cwd st; model := st_model st;
     first_user_text := st_first_user_text st;
     search_text := join [ch_space] (search_chunks st) |}.

(** [f.read(min(MAX_DESKTOP_SCAN_BYTES, max(256 * 1024, st_size)))] on a
    file whose content is [content]. *)
Definition desktop_read (content : bytes) : bytes :=
  slice_to (Z.min MAX_DESKTOP_SCAN_BYTES (Z.max (256 * 1024) (len content)))
    content.

(** The loop over the recovered objects in [summarize_desktop_blob]:
    [started_at], [first_user_text] and [texts]. *)
Fixpoint desktop_summary_loop (objs : list json) (started first_user : str)
    (texts : list str) : str * str * list str :=
  match objs with
  | [] => (started, first_user, texts)
  | obj :: rest =>
      let started :=
        if nonempty started then started else _extract_ts_from_obj obj in
      let role := _guess_role obj in
      let parts := _extract_text_recursive obj in
      if nonempty parts then
        let merged := strip (join [ch_space] parts) in
        let first_user :=
          if Role_eqb role RUser && negb (nonempty first_user)
          then preview 180 merged else first_user in
        desktop_summary_loop rest started first_user
          (texts ++ [preview 320 merged])
      else desktop_summary_loop rest started first_user texts
  end.

(** [summarize_desktop_blob], on the content of the file. *)
Definition summarize_desktop_blob (content : bytes) : Summary :=
  let raw := desktop_read content in
  let objs := _extract_json_objects_from_bytes raw 40 in
  if nonempty objs then
    let '(started, first_user, texts) := desktop_summary_loop objs [] [] [] in
    {| started_at := started; cwd := []; model := [];
       first_user_text :=
         if negb (nonempty first_user) && nonempty texts
         then slice_to 180 (hd [] texts) else first_user;
       search_text := join [ch_space] (slice_to 20 texts) |}
  else
    let snippets := _extract_readable_snippets raw 10 in
    {| started_at := []; cwd := []; model := [];
       first_user_text :=
         if nonempty snippets then slice_to 180 (hd [] snippets) else [];
       search_text := join [ch_space] snippets |}.

(** ** EventNormalizer *)

(** The body of the loop of [load_cli_events] for one parsed record.
    [obj.get] raises [AttributeError] when [obj] is not a dict. *)
Definition cli_event (obj : json) : result Event :=
  let ts := _extract_ts_from_obj obj in
  match obj with
  | JDict d =>
      let typ := dict_get_default d (lit "type") (JStr []) in
      let role := _guess_role obj in
      let '(kind, role, text) :=
        if json_eq_str typ (lit "user") then
          (KMessage, RUser,
           _extract_claude_message_text (dict_get d (lit "message")))
        else if json_eq_str typ (lit "assistant") then
          (KMessage, RAssistant,
           _extract_claude_message_text (dict_get d (lit "message")))
        else if json_eq_str typ (lit "queue-operation") then
          let op := dict_get_default d (lit "operation") (JStr []) in
          let content := dict_get_default d (lit "content") (JStr []) in
          (KQueue, RSystem, strip (py_str op ++ [ch_newline] ++ py_str content))
        else if json_eq_str typ (lit "progress") then
          (KProgress, RSystem, _extract_claude_progress_text d)
        else if json_eq_str typ (lit "system") then
          (KSystem, RSystem, json_dumps obj)
        else
          let text := _extract_claude_message_text (dict_get d (lit "message")) in
          (KEvent, role,
           if nonempty text then text
           else strip (join [ch_newline] (_extract_text_recursive obj))) in
      let text :=
        if nonempty text then text else slice_to 1000 (json_dumps obj) in
      Ok {| timestamp := ts; kind := kind; role := role; text := text |}
  | _ => Raise AttributeError
  end.

(** The [for line in f] loop of [load_cli_events]. *)
Fixpoint cli_events_loop (lines : list str) (evs : list Event) (raw_count : Z)
  : result Loaded :=
  match lines with
  | [] => Ok {| events := evs; raw_line_count := raw_count |}
  | line :: rest =>
      let raw_count := (raw_count + 1)%Z in
      let line := strip line in
      if negb (nonempty line) then cli_events_loop rest evs raw_count
      else
        match json_loads line with
        | None => cli_events_loop rest evs raw_count
        | Some obj =>
            match cli_event obj with
            | Raise e => Raise e
            | Ok ev =>
                let evs := evs ++ [ev] in
                if (MAX_EVENTS <=? len evs)%Z then
                  Ok {| events := evs; raw_line_count := raw_count |}
                else cli_events_loop rest evs raw_count
            end
        end
  end.

(** [load_cli_events], on the lines the file yields. *)
Definition load_cli_events (lines : list str) : result Loaded :=
  cli_events_loop lines [] 0.

(** The notice of [load_desktop_events] (its code points). *)
Definition notice : str :=
  lit "Claude Desktop " ++ [12398%N] ++ lit " IndexedDB(LevelDB) "
  ++ [12399; 12496; 12452; 12490; 12522; 24418; 24335; 12398; 12383; 12417;
      12289; 12371; 12371; 12391; 12399; 25991; 23383; 21015]%N
  ++ lit "/JSON"
  ++ [12473; 12491; 12506; 12483; 12488; 25277; 20986; 12391; 34920; 31034;
      12375; 12390; 12356; 12414; 12377; 12290]%N
  ++ lit " "
  ++ [23436; 20840; 12394; 23653; 27508; 24489; 20803; 12391; 12399; 12354;
      12426; 12414; 12379; 12435; 12290]%N.

Definition notice_event : Event :=
  {| timestamp := []; kind := KNotice; role := RSystem; text := notice |}.

(** The events of one recovered object in [load_desktop_events]. *)
Definition desktop_object_events (obj : json) : list Event :=
  let text := strip (join [ch_newline] (_extract_text_recursive obj)) in
  if negb (nonempty text) then []
  else [{| timestamp := _extract_ts_from_obj obj; kind := KSnippet;
           role := _guess_role obj; text := slice_to 4000 text |}].

Definition snippet_event (s : str) : Event :=
  {| timestamp := []; kind := KSnippet; role := RSystem; text := s |}.

(** [load_desktop_events], on the content of the file. *)
Definition load_desktop_events (content : bytes) : Loaded :=
  let raw := desktop_read content in
  let objs := _extract_json_objects_from_bytes raw MAX_EVENTS in
  let evs :=
    if nonempty objs then flat_map desktop_object_events objs
    else map snippet_event (_extract_readable_snippets raw 800) in
  let evs := notice_event :: evs in
  {| events := slice_to MAX_EVENTS evs; raw_line_count := len evs |}.

(** An artifact as the engine reads it. *)
Inductive Artifact : Type :=
| LineDelimited (lines : list str)
| OpaqueBinary (content : bytes).

Definition summarize_session (a : Artifact) : Summary :=
  match a with
  | LineDelimited lines => summarize_cli_session lines
  | OpaqueBinary content => summarize_desktop_blob content
  end.

Definition load_session_events (a : Artifact) : result Loaded :=
  match a with
  | LineDelimited lines => load_cli_events lines
  | OpaqueBinary content => Ok (load_desktop_events content)
  end.

End Engine.

(* ================================================================== *)
(** * A reference instance of the library *)
(* ================================================================== *)

(** The functions below follow CPython 3.11 on the inputs the engine can
    give them.  They are used to evaluate the engine on concrete
    artifacts; the theorems on the engine hold for every instance. *)

Module Ref.

(** ** Decimal numerals *)

Definition digit_char (d : Z) : char := Z.to_N (48 + d).

Fixpoint decimal_loop (fuel : nat) (n : Z) (acc : str) : str :=
  match fuel with
  | O => acc
  | S fuel' =>
      let acc := digit_char (n mod 10) :: acc in
      if (n <? 10)%Z then acc else decimal_loop fuel' (n / 10) acc
  end.

(** Decimal digits of [n >= 0]. *)
Definition decimal_nat (n : Z) : str :=
  decimal_loop (S (Z.to_nat (Z.log2 n))) n [].

(** [str(n)] for an integer. *)
Definition decimal (n : Z) : str :=
  if (n <? 0)%Z then 45%N :: decimal_nat (- n) else decimal_nat n.

Definition is_digit (c : char) : bool := ((48 <=? c) && (c <=? 57))%N.

Definition digit_val (c : char) : Z := Z.of_N c - 48.

(** The longest prefix of ASCII digits, and what follows. *)
Fixpoint span_digits (s : str) : str * str :=
  match s with
  | c :: s' =>
      if is_digit c then let '(ds, rest) := span_digits s' in (c :: ds, rest)
      else ([], s)
  | [] => ([], [])
  end.

Definition digits_value (ds : str) : Z :=
  fold_left (fun acc c => 10 * acc + digit_val c)%Z ds 0%Z.

(** ** Doubles from and to decimal *)

(** The double nearest to [m * 10^e10], ties to even; an infinity past the
    largest double, as [float()] gives. *)
Definition float_of_decimal (neg : bool) (m e10 : Z) : spec_float :=
  match m with
  | Zpos _ =>
      if (0 <=? e10)%Z then
        binary_normalize prec emax (cond_Zopp neg (m * 10 ^ e10)) 0 neg
      else
        let '(q, e, l) := SFdiv_core_binary prec emax m 0 (10 ^ (- e10)) 0 in
        binary_round_aux prec emax neg q e l
  | _ => S754_zero neg
  end.

(** [10^(k-1) <= m * 2^e < 10^k], for [m > 0]: the position of the
    decimal point. *)
Definition lt_pow10 (m e k : Z) : bool :=
  (* m * 2^e < 10^k *)
  if (0 <=? e)%Z then
    if (0 <=? k)%Z then (m * 2 ^ e <? 10 ^ k)%Z else false
  else
    if (0 <=? k)%Z then (m <? 10 ^ k * 2 ^ (- e))%Z
    else (m * 10 ^ (- k) <? 2 ^ (- e))%Z.

Fixpoint find_decpt (fuel : nat) (m e k : Z) : Z :=
  match fuel with
  | O => k
  | S fuel' => if lt_pow10 m e k then k else find_decpt fuel' m e (k + 1)
  end.

Definition decpt_of (m e : Z) : Z :=
  (* a lower estimate from the binary length, then a short search *)
  let bits := (Z.log2 m + e)%Z in
  let k0 := (bits * 30103 / 100000 - 1)%Z in
  find_decpt 4 m e k0.

(** [floor (m * 2^e * 10^p)] for [m > 0]. *)
Definition scaled_floor (m e p : Z) : Z :=
  let num := (m * (if (0 <=? e)%Z then 2 ^ e else 1) * (if (0 <=? p)%Z then 10 ^ p else 1))%Z in
  let den := ((if (0 <=? e)%Z then 1 else 2 ^ (- e)) * (if (0 <=? p)%Z then 1 else 10 ^ (- p)))%Z in
  (num / den)%Z.

(** Twice the distance, scaled: compares [|m*2^e*10^p - c|] for two
    candidates through exact integers. *)
Definition closer (m e p c1 c2 : Z) : bool :=
  (* is c1 at least as close to the scaled value as c2 ? *)
  let num := (m * (if (0 <=? e)%Z then 2 ^ e else 1) * (if (0 <=? p)%Z then 10 ^ p else 1))%Z in
  let den := ((if (0 <=? e)%Z then 1 else 2 ^ (- e)) * (if (0 <=? p)%Z then 1 else 10 ^ (- p)))%Z in
  (Z.abs (num - c1 * den) <=? Z.abs (num - c2 * den))%Z.

Definition sf_eqb (a b : spec_float) : bool :=
  match a, b with
  | S754_finite s1 m1 e1, S754_finite s2 m2 e2 =>
      Bool.eqb s1 s2 && (m1 =? m2)%positive && (e1 =? e2)%Z
  | S754_zero s1, S754_zero s2 => Bool.eqb s1 s2
  | S754_infinity s1, S754_infinity s2 => Bool.eqb s1 s2
  | S754_nan, S754_nan => true
  | _, _ => false
  end.

(** The shortest decimal that reads back as the double [m * 2^e]: its
    digits as an integer of [k] digits, and the position of its decimal
    point. *)
Fixpoint shortest_loop (fuel : nat) (m : positive) (e decpt k : Z) : Z * Z * Z :=
  let p := (k - decpt)%Z in
  let lo := scaled_floor (Zpos m) e p in
  let hi := (lo + 1)%Z in
  let ok c := sf_eqb (float_of_decimal false c (- p)) (S754_finite false m e) in
  let pick :=
    match ok lo && (0 <? lo)%Z, ok hi with
    | true, true => Some (if closer (Zpos m) e p lo hi then lo else hi)
    | true, false => Some lo
    | false, true => Some hi
    | false, false => None
    end in
  match pick, fuel with
  | Some c, _ =>
      if (c =? 10 ^ k)%Z then (10 ^ (k - 1), k, decpt + 1)%Z else (c, k, decpt)
  | None, S fuel' => shortest_loop fuel' m e decpt (k + 1)
  | None, O => (lo, k, decpt)
  end.

Fixpoint strip_trailing_zeros (fuel : nat) (c k : Z) : Z * Z :=
  match fuel with
  | O => (c, k)
  | S fuel' =>
      if ((1 <? k) && (c mod 10 =? 0))%Z then strip_trailing_zeros fuel' (c / 10) (k - 1)
      else (c, k)
  end.

Definition zeros (n : Z) : str := repeat 48%N (Z.to_nat n).

Definition pad2 (s : str) : str :=
  match s with [c] => [48%N; c] | _ => s end.

(** [repr(x)] of a finite non-zero double. *)
Definition repr_finite (s : bool) (m : positive) (e : Z) : str :=
  let decpt0 := decpt_of (Zpos m) e in
  let '(c0, k0, decpt) := shortest_loop 17 m e decpt0 1 in
  let '(c, k) := strip_trailing_zeros 17 c0 k0 in
  let ds := decimal_nat c in
  let body :=
    if ((decpt <=? -4) || (16 <? decpt))%Z then
      let mant :=
        match ds with
        | d :: [] => [d]
        | d :: rest => d :: 46%N :: rest
        | [] => []
        end in
      let ex := (decpt - 1)%Z in
      mant ++ [101%N] ++ (if (ex <? 0)%Z then [45%N] else [43%N])
        ++ pad2 (decimal_nat (Z.abs ex))
    else if (decpt <=? 0)%Z then
      lit "0." ++ zeros (- decpt) ++ ds
    else if (k <=? decpt)%Z then
      ds ++ zeros (decpt - k) ++ lit ".0"
    else
      firstn (Z.to_nat decpt) ds ++ [46%N] ++ skipn (Z.to_nat decpt) ds in
  (if s then [45%N] else []) ++ body.

(** [repr(x)] of a double. *)
Definition float_repr (f : spec_float) : str :=
  match f with
  | S754_nan => lit "nan"
  | S754_infinity s => if s then lit "-inf" else lit "inf"
  | S754_zero s => if s then lit "-0.0" else lit "0.0"
  | S754_finite s m e => repr_finite s m e
  end.

(** ** [json.loads] *)

Definition is_json_ws (c : char) : bool :=
  ((c =? 32) || (c =? 9) || (c =? 10) || (c =? 13))%N.

Fixpoint skip_ws (s : str) : str :=
  match s with
  | c :: s' => if is_json_ws c then skip_ws s' else s
  | [] => []
  end.

Definition hex_val (c : char) : option N :=
  if ((48 <=? c) && (c <=? 57))%N then Some (c - 48)%N
  else if ((97 <=? c) && (c <=? 102))%N then Some (c - 87)%N
  else if ((65 <=? c) && (c <=? 70))%N then Some (c - 55)%N
  else None.

(** Four hexadecimal digits. *)
Definition hex4 (s : str) : option (N * str) :=
  match s with
  | a :: b :: c :: d :: rest =>
      match hex_val a, hex_val b, hex_val c, hex_val d with
      | Some a, Some b, Some c, Some d =>
          Some (((a * 16 + b) * 16 + c) * 16 + d, rest)%N
      | _, _, _, _ => None
      end
  | _ => None
  end.

Definition is_high_surrogate (c : N) : bool := ((55296 <=? c) && (c <=? 56319))%N.
Definition is_low_surrogate (c : N) : bool := ((56320 <=? c) && (c <=? 57343))%N.

(** What follows a backslash-u escape (the text after the [u]). *)
Definition scan_unicode_escape (s : str) : option (char * str) :=
  match hex4 s with
  | None => None
  | Some (c, rest) =>
      if is_high_surrogate c then
        match rest with
        | b :: u :: h1 :: h2 :: h3 :: h4 :: rest2 =>
            if ((b =? ch_backslash) && (u =? 117))%N then
              match hex4 [h1; h2; h3; h4] with
              | None => None
              | Some (c2, _) =>
                  if is_low_surrogate c2 then
                    Some (65536 + (c - 55296) * 1024 + (c2 - 56320), rest2)%N
                  else Some (c, rest)
              end
            else Some (c, rest)
        | _ => Some (c, rest)
        end
      else Some (c, rest)
  end.

(** [scanstring]: the text after the opening quote. *)
Fixpoint scanstring (fuel : nat) (s acc : str) : option (str * str) :=
  match fuel with
  | O => None
  | S fuel' =>
      match s with
      | [] => None
      | c :: s' =>
          if (c =? ch_quote)%N then Some (rev acc, s')
          else if (c =? ch_backslash)%N then
            match s' with
            | [] => None
            | e :: s'' =>
                if (e =? 117)%N then
                  match scan_unicode_escape s'' with
                  | Some (u, rest) => scanstring fuel' rest (u :: acc)
                  | None => None
                  end
                else
                  let plain := fun (x : char) => scanstring fuel' s'' (x :: acc) in
                  if (e =? ch_quote)%N then plain ch_quote
                  else if (e =? ch_backslash)%N then plain ch_backslash
                  else if (e =? 47)%N then plain 47%N
                  else if (e =? 98)%N then plain 8%N
                  else if (e =? 102)%N then plain 12%N
                  else if (e =? 110)%N then plain 10%N
                  else if (e =? 114)%N then plain 13%N
                  else if (e =? 116)%N then plain 9%N
                  else None
            end
          else if (c <=? 31)%N then None
          else scanstring fuel' s' (c :: acc)
      end
  end.

(** The default limit of [int()] on the digits of a decimal numeral. *)
Definition int_max_str_digits : Z := 4300.

(** [_match_number]: a numeral at the head of [s]. *)
Definition match_number (s : str) : option (json * str) :=
  let '(neg, s1) :=
    match s with
    | c :: s' => if (c =? 45)%N then (true, s') else (false, s)
    | [] => (false, s)
    end in
  match s1 with
  | c :: s2 =>
      if is_digit c then
        let '(int_digits, s3) :=
          if (c =? 48)%N then ([c], s2) else span_digits s1 in
        let '(frac_digits, s4) :=
          match s3 with
          | dot :: d :: _ =>
              if (dot =? 46)%N && is_digit d then span_digits (tl s3) else ([], s3)
          | _ => ([], s3)
          end in
        let '(has_exp, exp_val, s5) :=
          match s4 with
          | e :: s4' =>
              if ((e =? 101) || (e =? 69))%N then
                let '(eneg, s4'') :=
                  match s4' with
                  | sg :: d :: _ =>
                      if (sg =? 45)%N then (true, tl s4')
                      else if (sg =? 43)%N then (false, tl s4')
                      else (false, s4')
                  | _ => (false, s4')
                  end in
                let '(exp_digits, rest) := span_digits s4'' in
                if nonempty exp_digits then
                  (true, cond_Zopp eneg (digits_value exp_digits), rest)
                else (false, 0%Z, s4)
              else (false, 0%Z, s4)
          | [] => (false, 0%Z, s4)
          end in
        if nonempty frac_digits || has_exp then
          Some (JFloat (float_of_decimal neg
                          (digits_value (int_digits ++ frac_digits))
                          (exp_val - len frac_digits)), s5)
        else if (int_max_str_digits <? len int_digits)%Z then None
        else Some (JInt (cond_Zopp neg (digits_value int_digits)), s5)
      else None
  | [] => None
  end.

(** [scan_once] and the loops of [_parse_object] and [_parse_array]. *)
Fixpoint scan_once (fuel : nat) (s : str) : option (json * str) :=
  match fuel with
  | O => None
  | S fuel' =>
      match s with
      | [] => None
      | c :: s' =>
          if (c =? ch_quote)%N then
            match scanstring (S (length s')) s' [] with
            | Some (v, rest) => Some (JStr v, rest)
            | None => None
            end
          else if (c =? ch_lbrace)%N then
            match skip_ws s' with
            | c1 :: rest =>
                if (c1 =? ch_rbrace)%N then Some (JDict [], rest)
                else parse_members fuel' (c1 :: rest) []
            | [] => None
            end
          else if (c =? 91)%N then
            match skip_ws s' with
            | c1 :: rest =>
                if (c1 =? 93)%N then Some (JList [], rest)
                else parse_items fuel' (c1 :: rest) []
            | [] => None
            end
          else if starts_with (lit "null") s then Some (JNull, skipn 4 s)
          else if starts_with (lit "true") s then Some (JBool true, skipn 4 s)
          else if starts_with (lit "false") s then Some (JBool false, skipn 5 s)
          else if starts_with (lit "NaN") s then Some (JFloat S754_nan, skipn 3 s)
          else if starts_with (lit "Infinity") s then
            Some (JFloat (S754_infinity false), skipn 8 s)
          else if starts_with (lit "-Infinity") s then
            Some (JFloat (S754_infinity true), skipn 9 s)
          else match_number s
      end
  end
with parse_members (fuel : nat) (s : str) (acc : dict) : option (json * str) :=
  match fuel with
  | O => None
  | S fuel' =>
      match s with
      | q :: s1 =>
          if (q =? ch_quote)%N then
            match scanstring (S (length s1)) s1 [] with
            | None => None
            | Some (key, s2) =>
                match skip_ws s2 with
                | colon :: s3 =>
                    if (colon =? 58)%N then
                      match scan_once fuel' (skip_ws s3) with
                      | None => None
                      | Some (val, s4) =>
                          let acc := dict_set acc key val in
                          match skip_ws s4 with
                          | c :: s5 =>
                              if (c =? ch_rbrace)%N then Some (JDict acc, s5)
                              else if (c =? 44)%N then
                                parse_members fuel' (skip_ws s5) acc
                              else None
                          | [] => None
                          end
                      end
                    else None
                | [] => None
                end
            end
          else None
      | [] => None
      end
  end
with parse_items (fuel : nat) (s : str) (acc : list json) : option (json * str) :=
  match fuel with
  | O => None
  | S fuel' =>
      match scan_once fuel' s with
      | None => None
      | Some (val, s1) =>
          let acc := val :: acc in
          match skip_ws s1 with
          | c :: s2 =>
              if (c =? 93)%N then Some (JList (rev acc), s2)
              else if (c =? 44)%N then parse_items fuel' (skip_ws s2) acc
              else None
          | [] => None
          end
      end
  end.

(** [json.loads(s)] for a [str]; [None] when it raises.  (The limit of
    the interpreter on the nesting of arrays and objects is not part of
    this instance.) *)
Definition json_loads (s : str) : option json :=
  match s with
  | 65279%N :: _ => None
  | _ =>
      match scan_once (2 * length s + 2) (skip_ws s) with
      | Some (v, rest) =>
          match skip_ws rest with
          | [] => Some v
          | _ => None
          end
      | None => None
      end
  end.

(** ** [json.dumps] with [ensure_ascii=False] *)

Definition hex_digit (d : N) : char :=
  if (d <? 10)%N then (48 + d)%N else (87 + d)%N.

(** [n] as [k] lower-case hexadecimal digits. *)
Fixpoint hex_fixed (k : nat) (n : N) : str :=
  match k with
  | O => []
  | S k' => hex_fixed k' (n / 16) ++ [hex_digit (n mod 16)]
  end.

Definition json_escape_char (c : char) : str :=
  if (c =? ch_quote)%N then [ch_backslash; ch_quote]
  else if (c =? ch_backslash)%N then [ch_backslash; ch_backslash]
  else if (c =? 10)%N then [ch_backslash; 110%N]
  else if (c =? 13)%N then [ch_backslash; 114%N]
  else if (c =? 9)%N then [ch_backslash; 116%N]
  else if (c =? 8)%N then [ch_backslash; 98%N]
  else if (c =? 12)%N then [ch_backslash; 102%N]
  else if (c <=? 31)%N then [ch_backslash; 117%N] ++ hex_fixed 4 c
  else [c].

Definition json_quote (s : str) : str :=
  [ch_quote] ++ flat_map json_escape_char s ++ [ch_quote].

Definition json_float (f : spec_float) : str :=
  match f with
  | S754_nan => lit "NaN"
  | S754_infinity s => if s then lit "-Infinity" else lit "Infinity"
  | _ => float_repr f
  end.

Fixpoint json_dumps (v : json) : str :=
  match v with
  | JNull => lit "null"
  | JBool b => if b then lit "true" else lit "false"
  | JInt n => decimal n
  | JFloat f => json_float f
  | JStr s => json_quote s
  | JList items =>
      [91%N]
      ++ join (lit ", ")
           ((fix each (l : list json) : list str :=
               match l with
               | [] => []
               | x :: l' => json_dumps x :: each l'
               end) items)
      ++ [93%N]
  | JDict d =>
      [ch_lbrace]
      ++ join (lit ", ")
           ((fix each (l : dict) : list str :=
               match l with
               | [] => []
               | (k, x) :: l' => (json_quote k ++ lit ": " ++ json_dumps x) :: each l'
               end) d)
      ++ [ch_rbrace]
  end.

(** ** [str()] and [repr()] *)

(** [str.isprintable] of one code point.  Exact below U+0100; above,
    only the surrogates are taken as non-printable. *)
Definition isprintable (c : char) : bool :=
  if (c <? 128)%N then ((32 <=? c) && (c <? 127))%N
  else if (c <? 256)%N then ((161 <=? c) && negb (c =? 173))%N
  else negb ((55296 <=? c) && (c <=? 57343))%N.

Definition repr_char (quote c : char) : str :=
  if ((c =? quote) || (c =? ch_backslash))%N then [ch_backslash; c]
  else if (c =? 9)%N then [ch_backslash; 116%N]
  else if (c =? 10)%N then [ch_backslash; 110%N]
  else if (c =? 13)%N then [ch_backslash; 114%N]
  else if isprintable c then [c]
  else if (c <? 256)%N then [ch_backslash; 120%N] ++ hex_fixed 2 c
  else if (c <? 65536)%N then [ch_backslash; 117%N] ++ hex_fixed 4 c
  else [ch_backslash; 85%N] ++ hex_fixed 8 c.

(** [repr(s)] of a string. *)
Definition repr_str (s : str) : str :=
  let quote :=
    if existsb (N.eqb ch_apostrophe) s && negb (existsb (N.eqb ch_quote) s)
    then ch_quote else ch_apostrophe in
  [quote] ++ flat_map (repr_char quote) s ++ [quote].

Fixpoint py_repr (v : json) : str :=
  match v with
  | JNull => lit "None"
  | JBool b => if b then lit "True" else lit "False"
  | JInt n => decimal n
  | JFloat f => float_repr f
  | JStr s => repr_str s
  | JList items =>
      [91%N]
      ++ join (lit ", ")
           ((fix each (l : list json) : list str :=
               match l with
               | [] => []
               | x :: l' => py_repr x :: each l'
               end) items)
      ++ [93%N]
  | JDict d =>
      [ch_lbrace]
      ++ join (lit ", ")
           ((fix each (l : dict) : list str :=
               match l with
               | [] => []
               | (k, x) :: l' => (repr_str k ++ lit ": " ++ py_repr x) :: each l'
               end) d)
      ++ [ch_rbrace]
  end.

Definition py_str (v : json) : str :=
  match v with
  | JStr s => s
  | _ => py_repr v
  end.

(** ** [str.lower] *)

(** Exact on ASCII, on U+0130 and on U+212A, the only other code points
    whose lower case holds an ASCII letter; the remaining code points are
    left as they are (CPython maps them among the non-ASCII ones). *)
Definition lower_char (c : char) : str :=
  if ((65 <=? c) && (c <=? 90))%N then [(c + 32)%N]
  else if (c =? 304)%N then [105%N; 775%N]
  else if (c =? 8490)%N then [107%N]
  else [c].

Definition str_lower (s : str) : str := flat_map lower_char s.

(** ** Decimal digits (Unicode 14.0, category Nd) *)

(** Each run of ten digits starts at one of these code points. *)
Definition digit_zeros : list N :=
  [48; 1632; 1776; 1984; 2406; 2534; 2662; 2790; 2918; 3046; 3174; 3302;
   3430; 3558; 3664; 3792; 3872; 4160; 4240; 6112; 6160; 6470; 6608; 6784;
   6800; 6992; 7088; 7232; 7248; 42528; 43216; 43264; 43472; 43504; 43600;
   44016; 65296; 66720; 68912; 69734; 69872; 69942; 70096; 70384; 70736;
   70864; 71248; 71360; 71472; 71904; 72016; 72784; 73040; 73120; 92768;
   92864; 93008; 120782; 120792; 120802; 120812; 120822; 123200; 123632;
   125264; 130032]%N.

Definition decimal_digit (c : char) : option Z :=
  match find (fun z => (z <=? c) && (c <? z + 10))%N digit_zeros with
  | Some z => Some (Z.of_N (c - z))
  | None => None
  end.

(** ** [datetime.fromtimestamp(...).isoformat()] on a host whose local
       time zone is UTC *)

(** Year, month and day of the day [days] after 1970-01-01, in the
    proleptic Gregorian calendar. *)
Definition civil_from_days (days : Z) : Z * Z * Z :=
  let z := (days + 719468)%Z in
  let era := (z / 146097)%Z in
  let doe := (z - era * 146097)%Z in
  let yoe := ((doe - doe / 1460 + doe / 36524 - doe / 146096) / 365)%Z in
  let y := (yoe + era * 400)%Z in
  let doy := (doe - (365 * yoe + yoe / 4 - yoe / 100))%Z in
  let mp := ((5 * doy + 2) / 153)%Z in
  let d := (doy - (153 * mp + 2) / 5 + 1)%Z in
  let m := (if mp <? 10 then mp + 3 else mp - 9)%Z in
  ((if m <=? 2 then y + 1 else y)%Z, m, d).

(** [n] in decimal, padded with zeros to [k] digits. *)
Definition padded (k : nat) (n : Z) : str :=
  let ds := decimal_nat n in
  repeat 48%N (k - length ds) ++ ds.

(** CPython also converts the instant one day earlier, to detect a
    repeated local hour, so the first day of year 1 is refused as well. *)
Definition localtime_isoformat (sec usec : Z) : option str :=
  let '(y, m, d) := civil_from_days (sec / 86400) in
  let '(y_probe, _, _) := civil_from_days (sec / 86400 - 1) in
  let sod := (sec mod 86400)%Z in
  if ((1 <=? y_probe) && (y <=? 9999))%Z then
    Some (padded 4 y ++ [45%N] ++ padded 2 m ++ [45%N] ++ padded 2 d
          ++ [84%N] ++ padded 2 (sod / 3600) ++ [58%N]
          ++ padded 2 (sod mod 3600 / 60) ++ [58%N] ++ padded 2 (sod mod 60)
          ++ (if (usec =? 0)%Z then [] else [46%N] ++ padded 6 usec))
  else None.

(** ** The codecs, with [errors="ignore"] *)

Definition is_cont (b : N) : bool := ((128 <=? b) && (b <=? 191))%N.

(** UTF-8: an ill-formed sequence loses its longest well-formed start
    (one byte at least) and decoding goes on after it. *)
Fixpoint decode_utf8_ignore (raw : bytes) : str :=
  match raw with
  | [] => []
  | b0 :: r0 =>
      if (b0 <? 128)%N then b0 :: decode_utf8_ignore r0
      else if ((194 <=? b0) && (b0 <=? 223))%N then
        match r0 with
        | b1 :: r1 =>
            if is_cont b1 then
              ((b0 - 192) * 64 + (b1 - 128))%N :: decode_utf8_ignore r1
            else decode_utf8_ignore r0
        | [] => []
        end
      else if ((224 <=? b0) && (b0 <=? 239))%N then
        match r0 with
        | b1 :: r1 =>
            let ok1 :=
              if (b0 =? 224)%N then ((160 <=? b1) && (b1 <=? 191))%N
              else if (b0 =? 237)%N then ((128 <=? b1) && (b1 <=? 159))%N
              else is_cont b1 in
            if ok1 then
              match r1 with
              | b2 :: r2 =>
                  if is_cont b2 then
                    (((b0 - 224) * 64 + (b1 - 128)) * 64 + (b2 - 128))%N
                      :: decode_utf8_ignore r2
                  else decode_utf8_ignore r1
              | [] => []
              end
            else decode_utf8_ignore r0
        | [] => []
        end
      else if ((240 <=? b0) && (b0 <=? 244))%N then
        match r0 with
        | b1 :: r1 =>
            let ok1 :=
              if (b0 =? 240)%N then ((144 <=? b1) && (b1 <=? 191))%N
              else if (b0 =? 244)%N then ((128 <=? b1) && (b1 <=? 143))%N
              else is_cont b1 in
            if ok1 then
              match r1 with
              | b2 :: r2 =>
                  if is_cont b2 then
                    match r2 with
                    | b3 :: r3 =>
                        if is_cont b3 then
                          ((((b0 - 240) * 64 + (b1 - 128)) * 64 + (b2 - 128)) * 64
                           + (b3 - 128))%N :: decode_utf8_ignore r3
                        else decode_utf8_ignore r2
                    | [] => []
                    end
                  else decode_utf8_ignore r1
              | [] => []
              end
            else decode_utf8_ignore r0
        | [] => []
        end
      else decode_utf8_ignore r0
  end.

(** UTF-16, little endian: a surrogate without its partner is dropped,
    and so are a high surrogate or a single byte at the end. *)
Fixpoint decode_utf16le_ignore (raw : bytes) : str :=
  match raw with
  | lo :: hi :: rest =>
      let u := (lo + 256 * hi)%N in
      if is_high_surrogate u then
        match rest with
        | lo2 :: hi2 :: rest2 =>
            let u2 := (lo2 + 256 * hi2)%N in
            if is_low_surrogate u2 then
              (65536 + (u - 55296) * 1024 + (u2 - 56320))%N
                :: decode_utf16le_ignore rest2
            else decode_utf16le_ignore rest
        | _ => []
        end
      else if is_low_surrogate u then decode_utf16le_ignore rest
      else u :: decode_utf16le_ignore rest
  | _ => []
  end.

End Ref.

(** The reference instance. *)
Definition RefLib : PyLib := {|
  json_loads := Ref.json_loads;
  json_dumps := Ref.json_dumps;
  py_str := Ref.py_str;
  str_lower := Ref.str_lower;
  decimal_digit := Ref.decimal_digit;
  localtime_isoformat := Ref.localtime_isoformat;
  decode_utf8_ignore := Ref.decode_utf8_ignore;
  decode_utf16le_ignore := Ref.decode_utf16le_ignore
|}.

(* ================================================================== *)
(** * Path lists and path labels *)
(* ================================================================== *)

Definition ch_slash : char := 47%N.
Definition ch_dash : char := 45%N.
Definition ch_colon : char := 58%N.

(** [c in s] for a string [c] of one character. *)
Definition has_char (c : char) (s : str) : bool := existsb (N.eqb c) s.

(** [s.replace(a, b)] for strings [a] and [b] of one character. *)
Definition replace_char (a b : char) (s : str) : str :=
  map (fun c => if (c =? a)%N then b else c) s.

(** [s.split(sep)] for a separator of one character. *)
Fixpoint split (sep : char) (s : str) : list str :=
  match s with
  | [] => [[]]
  | c :: s' =>
      if (c =? sep)%N then [] :: split sep s'
      else
        match split sep s' with
        | p :: ps => (c :: p) :: ps
        | [] => [[c]]
        end
  end.

(** [s.lstrip(c)] for a string [c] of one character. *)
Fixpoint lstrip_char (c : char) (s : str) : str :=
  match s with
  | x :: s' => if (x =? c)%N then lstrip_char c s' else s
  | [] => []
  end.

(** ** [_unique_paths] *)

(** The loop of [_unique_paths].  [key] is [str] on paths, and [seen] is
    the set of the keys met so far. *)
Fixpoint unique_paths_loop (P : Type) (key : P -> str) (paths : list P)
    (seen : list str) (out : list P) : list P :=
  match paths with
  | [] => out
  | p :: rest =>
      if str_in (key p) seen then unique_paths_loop key rest seen out
      else unique_paths_loop key rest (key p :: seen) (out ++ [p])
  end.

Definition _unique_paths (P : Type) (key : P -> str) (paths : list P) : list P :=
  unique_paths_loop key paths [] [].

(** ** PathLabelDecoder *)

(** The class [[a-zA-Z]]. *)
Definition ascii_letter (c : char) : bool :=
  ((65 <=? c) && (c <=? 90) || (97 <=? c) && (c <=? 122))%N.

(** [c.upper()] for a character of [[a-zA-Z]], and for a colon. *)
Definition ascii_upper (c : char) : char :=
  if ((97 <=? c) && (c <=? 122))%N then (c - 32)%N else c.

(** The end of the first pattern, a group of any characters but newlines
    followed by the end of the text: the group is what is left of the
    text, without a final newline; a newline anywhere else fails. *)
Fixpoint dot_star_end (s : str) : option str :=
  match s with
  | [] => Some []
  | c :: s' =>
      if (c =? ch_newline)%N then
        match s' with
        | [] => Some []
        | _ => None
        end
      else option_map (cons c) (dot_star_end s')
  end.

(** [re.match] of the pattern for [/mnt/<letter>/<rest>], whose groups are
    a character of [[a-zA-Z]] and the end of the text as above: the two
    groups. *)
Definition match_mnt (s : str) : option (char * str) :=
  if starts_with (lit "/mnt/") s then
    match skipn 5 s with
    | l :: c :: rest =>
        if ascii_letter l && (c =? ch_slash)%N then
          option_map (pair l) (dot_star_end rest)
        else None
    | _ => None
    end
  else None.

(** [re.match(r"^([a-zA-Z]:)\\-([^\\]+)$", s)]: the letter of the first
    group and the second group.  The class [[^\\]] takes a newline too,
    so that the second group runs to the end of the text. *)
Definition match_drive_dash (s : str) : option (char * str) :=
  match s with
  | l :: s' =>
      if ascii_letter l && starts_with [ch_colon; ch_backslash; ch_dash] s' then
        let rest := skipn 3 s' in
        if nonempty rest && negb (has_char ch_backslash rest)
        then Some (l, rest)
        else None
      else None
  | [] => None
  end.

Definition _to_windows_path_display (path_str : str) : str :=
  let s := strip path_str in
  if negb (nonempty s) then []
  else
    match match_mnt s with
    | Some (l, rest) =>
        let drive := [ascii_upper l] in
        let rest := replace_char ch_slash ch_backslash rest in
        if nonempty rest then drive ++ [ch_colon; ch_backslash] ++ rest
        else drive ++ [ch_colon; ch_backslash]
    | None =>
        let converted := replace_char ch_slash ch_backslash s in
        match match_drive_dash converted with
        | Some (l, g2) =>
            let drive := [ascii_upper l; ascii_upper ch_colon] in
            let tail :=
              join [ch_backslash] (filter nonempty (split ch_dash g2)) in
            if nonempty tail then drive ++ [ch_backslash] ++ tail
            else drive ++ [ch_backslash]
        | None => converted
        end
    end.

(** What the slug decoder uses of [str] beyond [PyLib]. *)
Class PyCase : Type := {
  (** [s.upper()] *)
  str_upper : str -> str;
  (** [s.isalpha()] *)
  str_isalpha : str -> bool
}.

Section Labels.

Context {L : PyLib} {C : PyCase}.

(** [f"{drive}:\\{tail}" if tail else f"{drive}:\\"] *)
Definition drive_path (drive tail : str) : str :=
  if nonempty tail then drive ++ [ch_colon; ch_backslash] ++ tail
  else drive ++ [ch_colon; ch_backslash].

Definition _decode_project_slug_to_windows_path (project_slug : str) : str :=
  let s := strip project_slug in
  if negb (nonempty s) then []
  else if has_char ch_slash s || has_char ch_backslash s
          || negb (has_char ch_dash s) then s
  else
    let parts := filter nonempty (split ch_dash (lstrip_char ch_dash s)) in
    if negb (nonempty parts) then s
    else if (3 <=? len parts)%Z
            && str_eqb (str_lower (nth 0 parts [])) (lit "mnt")
            && (len (nth 1 parts []) =? 1)%Z
            && str_isalpha (nth 1 parts []) then
      drive_path (str_upper (nth 1 parts []))
        (join [ch_backslash] (skipn 2 parts))
    else if (2 <=? len parts)%Z
            && (len (nth 0 parts []) =? 1)%Z
            && str_isalpha (nth 0 parts []) then
      drive_path (str_upper (nth 0 parts []))
        (join [ch_backslash] (skipn 1 parts))
    else join [ch_backslash] parts.

Definition _project_display_label (raw_project cwd : str) : str :=
  if nonempty (strip cwd) then _to_windows_path_display cwd
  else _decode_project_slug_to_windows_path raw_project.

End Labels.

(** [upper] and [isalpha] on ASCII text.  CPython consults the Unicode
    database above U+007F; here such code points are left as they are and
    are not counted as letters. *)
Definition AsciiCase : PyCase :=
  {| str_upper := map ascii_upper;
     str_isalpha := fun s => nonempty s && forallb ascii_letter s |}.

(* ================================================================== *)
(** * Notions in which the properties are stated *)
(* ================================================================== *)

(** ** Text as tokens: characters outside string literals, and literals *)

(** One element of the body of a string literal: a character that is
    neither a quote nor a backslash, or a backslash and the character it
    escapes. *)
Inductive lit_item : Type :=
| Plain (c : char)
| Escaped (c : char).

(** A character outside string literals, or a whole string literal. *)
Inductive token : Type :=
| Tok (c : char)
| Str (body : list lit_item).

Definition item_ok (i : lit_item) : Prop :=
  match i with
  | Plain c => c <> ch_quote /\ c <> ch_backslash
  | Escaped _ => True
  end.

Definition token_ok (t : token) : Prop :=
  match t with
  | Tok c => c <> ch_quote
  | Str body => Forall item_ok body
  end.

Definition item_text (i : lit_item) : str :=
  match i with
  | Plain c => [c]
  | Escaped c => [ch_backslash; c]
  end.

Definition body_text (body : list lit_item) : str := flat_map item_text body.

Definition token_text (t : token) : str :=
  match t with
  | Tok c => [c]
  | Str body => [ch_quote] ++ body_text body ++ [ch_quote]
  end.

Definition text_of (toks : list token) : str := flat_map token_text toks.

(** How a text can end inside a string literal: nothing left open, or an
    opening quote, a body, and possibly a lone backslash. *)
Inductive open_tail : Type :=
| Closed
| Open (body : list lit_item) (dangling : bool).

Definition tail_ok (t : open_tail) : Prop :=
  match t with
  | Closed => True
  | Open body _ => Forall item_ok body
  end.

Definition tail_text (t : open_tail) : str :=
  match t with
  | Closed => []
  | Open body dangling =>
      [ch_quote] ++ body_text body ++ (if dangling then [ch_backslash] else [])
  end.

(** The genuine nesting: only braces that are tokens count.  Starting at
    depth [depth], the tokens up to and including the brace that brings the
    depth to zero, and the tokens after it. *)
Fixpoint genuine_close (toks : list token) (depth : Z)
  : option (list token * list token) :=
  match toks with
  | [] => None
  | t :: rest =>
      let continue := fun d =>
        match genuine_close rest d with
        | Some (pre, post) => Some (t :: pre, post)
        | None => None
        end in
      match t with
      | Str _ => continue depth
      | Tok c =>
          if (c =? ch_lbrace)%N then continue (depth + 1)%Z
          else if (c =? ch_rbrace)%N then
            if (depth - 1 =? 0)%Z then Some ([t], rest)
            else continue (depth - 1)%Z
          else continue depth
      end
  end.

(** The depth after the tokens, when none of them closes the candidate. *)
Fixpoint depth_after (toks : list token) (depth : Z) : Z :=
  match toks with
  | [] => depth
  | Str _ :: rest => depth_after rest depth
  | Tok c :: rest =>
      if (c =? ch_lbrace)%N then depth_after rest (depth + 1)
      else if (c =? ch_rbrace)%N then depth_after rest (depth - 1)
      else depth_after rest depth
  end.


(** ** Results *)

Definition result_map {A B : Type} (f : A -> B) (x : result A) : result B :=
  match x with
  | Ok a => Ok (f a)
  | Raise e => Raise e
  end.

Section Notions.

Context {L : PyLib}.

(** The records [load_cli_events] parses, in the order of their lines. *)
Definition parsed_records (lines : list str) : list json :=
  flat_map
    (fun line =>
       let line := strip line in
       if nonempty line then
         match json_loads line with
         | Some obj => [obj]
         | None => []
         end
       else [])
    lines.

(** The role [load_cli_events] gives a record: fixed by the discriminant
    for the five known types, the classifier's otherwise. *)
Definition discriminant_role (d : dict) : Role :=
  let typ := dict_get_default d (lit "type") (JStr []) in
  if json_eq_str typ (lit "user") then RUser
  else if json_eq_str typ (lit "assistant") then RAssistant
  else if json_eq_str typ (lit "queue-operation")
          || json_eq_str typ (lit "progress")
          || json_eq_str typ (lit "system") then RSystem
  else _guess_role (JDict d).

(** The records [summarize_cli_session] parses. *)
Definition summary_records (lines : list str) : list json :=
  flat_map
    (fun line =>
       if _is_probably_textual_json_line line then
         match json_loads line with
         | Some obj => [obj]
         | None => []
         end
       else [])
    lines.

(** A record has harvested text. *)
Definition has_text (obj : json) : bool :=
  nonempty (_extract_text_recursive obj).

(** A record classified [user] that has harvested text. *)
Definition is_user_text (obj : json) : bool :=
  Role_eqb (_guess_role obj) RUser && has_text obj.

(** The preview of the harvested text of a record. *)
Definition text_preview (obj : json) : str :=
  preview 180 (strip (join [ch_space] (_extract_text_recursive obj))).


(** The timestamp rule as the specification words it: a number of at
    least [10^12] is in milliseconds. *)
Definition ge_1e12 (x : pynum) : bool :=
  match x with
  | PInt n => (1000000000000 <=? n)%Z
  | PFloat f => SFleb float_1e12 f
  end.

Definition iso_from_number_spec (x : pynum) : str :=
  if ge_1e12 x then
    match div_1000 x with
    | Some f => fromtimestamp_isoformat (PFloat f)
    | None => []
    end
  else fromtimestamp_isoformat x.



(** A string with a character that is not white space. *)
Definition inky (s : str) : bool := existsb (fun c => negb (isspace c)) s.

(** The chunk of [search_text] a record with harvested text gives. *)
Definition text_chunk (obj : json) : str :=
  preview 320 (strip (join [ch_space] (_extract_text_recursive obj))).






End Notions.

(* ================================================================== *)
(** * Notions for the properties of the parts *)
(* ================================================================== *)

(** The strings [cs] lie in the text one after the other, in this order
    and without overlap. *)
Inductive blocks_in : list str -> str -> Prop :=
| blocks_nil (t : str) : blocks_in [] t
| blocks_cons (c : str) (cs : list str) (p t : str) :
    blocks_in cs t -> blocks_in (c :: cs) (p ++ c ++ t).

(** A candidate: from an opening brace to a closing one, and of a length
    within the bounds. *)
Definition candidate_shape (c : str) : Prop :=
  (exists body, c = ch_lbrace :: body)
  /\ (exists body, c = body ++ [ch_rbrace])
  /\ (24 <= len c <= 200000)%Z.

(** A string as [strip] leaves it: not empty, and with no white space at
    either end. *)
Definition stripped (s : str) : Prop := s <> [] /\ strip s = s.

(** A dict without its entries under metadata keys. *)
Definition without_metadata (d : dict) : dict :=
  filter (fun kv => negb (str_in (fst kv) skip_keys)) d.

Definition is_dict (v : json) : bool :=
  match v with
  | JDict _ => true
  | _ => false
  end.

(** A snippet: 24 to 300 readable characters, none of them white space at
    either end, and neither marker of the store inside. *)
Definition snippet_shape (s : str) : Prop :=
  (24 <= len s <= 300)%Z
  /\ forallb readable s = true
  /\ strip s = s
  /\ contains (lit "IndexedDB") s = false
  /\ contains (lit "LEVELDB") s = false.

(** A character of a segment of a slug: no separator and no white space. *)
Definition slug_char (c : char) : bool :=
  negb (c =? ch_dash)%N && negb (c =? ch_slash)%N
  && negb (c =? ch_backslash)%N && negb (isspace c).

Definition slug_segment (seg : str) : bool :=
  nonempty seg && forallb slug_char seg.

(** [sub] is [l] with some of its elements left out. *)
Inductive keeps_order (A : Type) : list A -> list A -> Prop :=
| keeps_nil : keeps_order [] []
| keeps_take (x : A) (sub l : list A) :
    keeps_order sub l -> keeps_order (x :: sub) (x :: l)
| keeps_drop (x : A) (sub l : list A) :
    keeps_order sub l -> keeps_order sub (x :: l).

(** What a content key gives the harvest of a dict: the harvest of the
    value under it. *)
Definition at_key (d : dict) (k : str) : list str :=
  match dict_find d k with
  | Some v => _extract_text_recursive v
  | None => []
  end.

(** What an entry gives the second pass over a dict. *)
Definition other_texts (kv : list N * json) : list str :=
  if str_in (fst kv) text_keys || str_in (fst kv) skip_keys then []
  else _extract_text_recursive (snd kv).

(** The key under which [_extract_readable_snippets] remembers a snippet. *)
Definition snippet_key (s : str) : str := slice_to 160 s.

(** What the loops of [_extract_readable_snippets] keep true of the keys
    seen and of the snippets kept. *)
Definition snippets_inv (seen snippets : list str) : Prop :=
  (forall k, str_in k seen = true <-> In k (map snippet_key snippets))
  /\ NoDup (map snippet_key snippets)
  /\ Forall snippet_shape snippets.

(** An event of kind [snippet] with a text of 1 to 4000 characters. *)
Definition snippet_event_ok (ev : Event) : Prop :=
  kind ev = KSnippet /\ (1 <= len (text ev) <= 4000)%Z.

(** A text without a newline. *)
Definition one_line (s : str) : Prop := ~ In ch_newline s.

(** What the loops of the summaries keep true of [first_user_text] and of
    the chunks of [search_text]. *)
Definition summary_state_ok (first_user : str) (chunks : list str) : Prop :=
  one_line first_user /\ (len first_user <= 180)%Z /\ Forall one_line chunks.

(** A field of a summary that is set stays as it is. *)
Definition keeps (old new : str) : Prop := old = [] \/ new = old.

Definition state_keeps (st st' : CliState) : Prop :=
  keeps (st_started_at st) (st_started_at st')
  /\ keeps (st_model st) (st_model st')
  /\ keeps (st_cwd st) (st_cwd st')
  /\ keeps (st_first_user_text st) (st_first_user_text st').

Section PartNotions.

Context {L : PyLib}.

(** The events of records, in their order; the first record that is not
    an object raises. *)
Fixpoint events_of_records (recs : list json) : result (list Event) :=
  match recs with
  | [] => Ok []
  | obj :: rest =>
      match cli_event obj with
      | Raise e => Raise e
      | Ok ev => result_map (cons ev) (events_of_records rest)
      end
  end.

(** The records [load_cli_events] turns into events: the first
    [MAX_EVENTS] that parse. *)
Definition read_records (lines : list str) : list json :=
  firstn (Z.to_nat MAX_EVENTS) (parsed_records lines).

End PartNotions.

(* ================================================================== *)
(** * Example artifacts *)
(* ================================================================== *)

(** A line of a file, with its terminator. *)
Definition line_of (s : str) : str := s ++ [ch_newline].

(** A session of two records: a prompt and an answer. *)
Definition two_line_session : list str :=
  [line_of (qlit "{'type':'user','timestamp':1700000000,'message':{'role':'user','content':'hello'}}");
   line_of (qlit "{'type':'assistant','message':{'role':'assistant','content':[{'type':'text','text':'hi'},{'type':'tool_use','name':'x','input':{'k':1}}]}}")].

Definition no_events : Loaded := {| events := []; raw_line_count := 0 |}.

(** What [load_cli_events] returns for it. *)
Definition two_line_loaded : Loaded :=
  Eval vm_compute in
    match @load_cli_events RefLib two_line_session with
    | Ok r => r
    | Raise _ => no_events
    end.

(** A file whose only line is valid JSON but not an object. *)
Definition number_line : list str := [line_of (lit "42")].

(** More records than [MAX_EVENTS]. *)
Definition over_cap_lines : list str := repeat (line_of (lit "{}")) 4001.

(** A record of type [user] whose nested message names another role. *)
Definition user_typed_assistant_line : str :=
  line_of (qlit "{'type':'user','message':{'role':'assistant','content':'hi'}}").



(** A blob holding one object, classified [assistant]. *)
Definition assistant_blob : bytes :=
  qlit "{'role':'assistant','text':'an answer, and no prompt at all'}".













(** What [load_cli_events] returns for [over_cap_lines]. *)
Definition over_cap_loaded : Loaded :=
  match @load_cli_events RefLib over_cap_lines with
  | Ok r => r
  | Raise _ => no_events
  end.

(** Tokens: plain characters, and a literal of plain characters. *)
Definition plain_tokens (s : string) : list token := map Tok (lit s).
Arguments plain_tokens s%_string.

Definition plain_literal (s : string) : token := Str (map Plain (lit s)).
Arguments plain_literal s%_string.

(** What follows the opening brace of an object whose first value is a
    string of one brace, followed by a literal with an escaped quote and a
    closing brace, and then by a literal left open. *)
Definition quoted_brace_tokens : list token :=
  [plain_literal "text"] ++ plain_tokens ": " ++ [plain_literal "{"]
  ++ plain_tokens ", " ++ [plain_literal "k"] ++ plain_tokens ": "
  ++ [Str [Plain 97%N; Escaped ch_quote; Plain ch_rbrace; Plain 98%N]]
  ++ plain_tokens "} and more".

Definition quoted_brace_tail : open_tail :=
  Open (map Plain (lit "left open {")) true.

(* ================================================================== *)
(** * Properties *)
(* ================================================================== *)

(** ** Lists, lengths and strings *)

Lemma len_nil (A : Type) : len (@nil A) = 0%Z.
Proof. reflexivity. Qed.

Lemma len_cons (A : Type) (x : A) (l : list A) : len (x :: l) = (len l + 1)%Z.
Proof. unfold len. cbn [length]. lia. Qed.

Lemma len_app (A : Type) (l1 l2 : list A) : len (l1 ++ l2) = (len l1 + len l2)%Z.
Proof. unfold len. rewrite length_app. lia. Qed.

Lemma len_nonneg (A : Type) (l : list A) : (0 <= len l)%Z.
Proof. unfold len. lia. Qed.

Lemma len_slice_to (A : Type) (n : Z) (l : list A) :
  (0 <= n)%Z -> (len (slice_to n l) <= n)%Z.
Proof.
  intros Hn. unfold len, slice_to.
  pose proof (firstn_le_length (Z.to_nat n) l) as H.
  rewrite length_firstn. lia.
Qed.

Lemma len_slice_to_le (A : Type) (n : Z) (l : list A) :
  (len (slice_to n l) <= len l)%Z.
Proof. unfold len, slice_to. rewrite length_firstn. lia. Qed.

Lemma str_eqb_eq (a b : str) : str_eqb a b = true <-> a = b.
Proof.
  revert b. induction a as [|x a IH]; intros [|y b]; cbn; split; intros H;
    try reflexivity; try discriminate.
  - apply andb_true_iff in H as [Hx Ha]. apply N.eqb_eq in Hx.
    apply IH in Ha. now subst.
  - injection H as -> ->. apply andb_true_iff. split.
    + apply N.eqb_refl.
    + now apply IH.
Qed.

Lemma str_in_In (x : str) (l : list str) : str_in x l = true <-> In x l.
Proof.
  unfold str_in. rewrite existsb_exists. split.
  - intros [y [Hy Heq]]. apply str_eqb_eq in Heq. now subst.
  - intros H. exists x. split; [assumption | now apply str_eqb_eq].
Qed.

Lemma nonempty_false (A : Type) (l : list A) : nonempty l = false <-> l = [].
Proof. destruct l; cbn; split; intros H; congruence. Qed.

Lemma nonempty_true (A : Type) (l : list A) : nonempty l = true <-> l <> [].
Proof. destruct l; cbn; split; intros H; congruence. Qed.

(** ** C10: the notice comes first *)

Lemma MAX_EVENTS_succ : Z.to_nat MAX_EVENTS = S (Z.to_nat (MAX_EVENTS - 1)).
Proof. reflexivity. Qed.

Section Properties.

Context {L : PyLib}.

(** C10.  Whatever the content of an opaque-binary artifact, the list of
    events [load_desktop_events] returns is not empty and starts with the
    notice: an event of kind [notice] and role [system] with an empty
    timestamp.  The notice does not depend on whether JSON objects were
    recovered. *)
Theorem desktop_notice_first (content : bytes) :
  exists rest,
    events (load_desktop_events content) = notice_event :: rest
    /\ kind notice_event = KNotice
    /\ role notice_event = RSystem
    /\ timestamp notice_event = [].
Proof.
  unfold load_desktop_events. cbn [events]. unfold slice_to.
  rewrite MAX_EVENTS_succ. cbn [firstn].
  eexists. repeat split.
Qed.

(** ** C2: the number of events *)

Lemma cli_events_loop_bound (lines : list str) :
  forall evs n r,
    (len evs < MAX_EVENTS)%Z ->
    cli_events_loop lines evs n = Ok r ->
    (len (events r) <= MAX_EVENTS)%Z.
Proof.
  induction lines as [|line rest IH]; intros evs n r Hlt H; cbn in H.
  - injection H as <-. cbn. lia.
  - destruct (nonempty (strip line)); cbn in H; [|now apply IH in H].
    destruct (json_loads (strip line)) as [obj|]; [|now apply IH in H].
    destruct (cli_event obj) as [ev|e]; [|discriminate].
    destruct (MAX_EVENTS <=? len (evs ++ [ev]))%Z eqn:Hcap.
    + injection H as <-. cbn. rewrite len_app, len_cons, len_nil. lia.
    + apply IH in H; [assumption|]. apply Z.leb_gt in Hcap. assumption.
Qed.

(** C2.  Whenever the engine returns the events of an artifact, of either
    kind and of any size, there are at most [MAX_EVENTS] (4000) of them. *)
Theorem event_count_bounded (a : Artifact) (r : Loaded) :
  load_session_events a = Ok r ->
  (len (events r) <= MAX_EVENTS)%Z.
Proof.
  destruct a as [lines|content]; cbn; intros H.
  - unfold load_cli_events in H.
    apply cli_events_loop_bound in H; [assumption|reflexivity].
  - injection H as <-. unfold load_desktop_events. cbn [events].
    apply len_slice_to. discriminate.
Qed.

(** The opaque-binary path always returns. *)
Lemma desktop_events_total (content : bytes) :
  exists r, load_session_events (OpaqueBinary content) = Ok r.
Proof. eexists. reflexivity. Qed.

(** ** C5: the count of raw lines *)

Lemma cli_events_loop_count (lines : list str) :
  forall evs n r,
    cli_events_loop lines evs n = Ok r ->
    exists k : nat,
      (k <= length lines)%nat
      /\ raw_line_count r = (n + Z.of_nat k)%Z
      /\ cli_events_loop (firstn k lines) evs n = Ok r
      /\ ((len (events r) < MAX_EVENTS)%Z -> k = length lines).
Proof.
  induction lines as [|line rest IH]; intros evs n r H; cbn in H.
  - injection H as <-. exists 0%nat. cbn.
    refine (conj _ (conj _ (conj _ _))); try reflexivity; lia.
  - assert (Hskip : forall r',
              cli_events_loop rest evs (n + 1) = Ok r' ->
              (forall l', cli_events_loop (line :: l') evs n
                          = cli_events_loop l' evs (n + 1)) ->
              exists k : nat,
                (k <= length (line :: rest))%nat
                /\ raw_line_count r' = (n + Z.of_nat k)%Z
                /\ cli_events_loop (firstn k (line :: rest)) evs n = Ok r'
                /\ ((len (events r') < MAX_EVENTS)%Z -> k = length (line :: rest))).
    { intros r' Hr' Hstep. destruct (IH _ _ _ Hr') as (k & Hk & Hc & Hf & Hall).
      exists (S k). cbn [length firstn].
      refine (conj _ (conj _ (conj _ _))).
      - lia.
      - lia.
      - rewrite Hstep. assumption.
      - intros Hlt. f_equal. now apply Hall. }
    destruct (nonempty (strip line)) eqn:Hne; cbn in H.
    2:{ apply Hskip; [assumption|]. intros l'. cbn. now rewrite Hne. }
    destruct (json_loads (strip line)) as [obj|] eqn:Hparse.
    2:{ apply Hskip; [assumption|]. intros l'. cbn. now rewrite Hne, Hparse. }
    destruct (cli_event obj) as [ev|e] eqn:Hev; [|discriminate].
    destruct (MAX_EVENTS <=? len (evs ++ [ev]))%Z eqn:Hcap.
    + injection H as <-. exists 1%nat. cbn [length firstn raw_line_count events].
      refine (conj _ (conj _ (conj _ _))).
      * lia.
      * lia.
      * cbn. now rewrite Hne, Hparse, Hev, Hcap.
      * intros Hlt. apply Z.leb_le in Hcap. lia.
    + destruct (IH _ _ _ H) as (k & Hk & Hc & Hf & Hall).
      exists (S k). cbn [length firstn].
      refine (conj _ (conj _ (conj _ _))).
      * lia.
      * lia.
      * cbn. now rewrite Hne, Hparse, Hev, Hcap.
      * intros Hlt. f_equal. now apply Hall.
Qed.

Lemma parsed_records_cons (line : str) (rest : list str) :
  parsed_records (line :: rest)
  = parsed_records [line] ++ parsed_records rest.
Proof. unfold parsed_records. cbn [flat_map]. now rewrite app_nil_r. Qed.

(** The number of events is the number of records that parse, up to the
    cap. *)
Lemma cli_events_loop_len (lines : list str) :
  forall evs n r,
    cli_events_loop lines evs n = Ok r ->
    (len evs < MAX_EVENTS)%Z ->
    len (events r) = Z.min MAX_EVENTS (len evs + len (parsed_records lines)).
Proof.
  induction lines as [|line rest IH]; intros evs n r H Hlt; cbn in H.
  - injection H as <-. cbn [events]. change (parsed_records []) with (@nil json).
    rewrite len_nil. lia.
  - rewrite parsed_records_cons, len_app.
    destruct (nonempty (strip line)) eqn:Hne; cbn in H.
    2:{ replace (parsed_records [line]) with (@nil json)
          by (unfold parsed_records; cbn; now rewrite Hne).
        rewrite len_nil. cbn [Z.add]. now apply (IH _ _ _ H). }
    destruct (json_loads (strip line)) as [obj|] eqn:Hparse.
    2:{ replace (parsed_records [line]) with (@nil json)
          by (unfold parsed_records; cbn; now rewrite Hne, Hparse).
        rewrite len_nil. cbn [Z.add]. now apply (IH _ _ _ H). }
    replace (parsed_records [line]) with [obj]
      by (unfold parsed_records; cbn; now rewrite Hne, Hparse).
    rewrite len_cons, len_nil.
    destruct (cli_event obj) as [ev|e] eqn:Hev; [|discriminate].
    assert (Hlen : len (evs ++ [ev]) = (len evs + 1)%Z)
      by now rewrite len_app, len_cons, len_nil.
    pose proof (len_nonneg (parsed_records rest)) as Hpos.
    destruct (MAX_EVENTS <=? len (evs ++ [ev]))%Z eqn:Hcap.
    + apply Z.leb_le in Hcap. injection H as <-. cbn [events]. lia.
    + apply Z.leb_gt in Hcap. rewrite (IH _ _ _ H Hcap). lia.
Qed.

(** When the loop stops at the cap, the last line it read is the one that
    gave the last event. *)
Lemma cli_events_loop_cap (lines : list str) :
  forall evs n r,
    cli_events_loop lines evs n = Ok r ->
    (len evs < MAX_EVENTS)%Z ->
    len (events r) = MAX_EVENTS ->
    exists k : nat,
      raw_line_count r = (n + Z.of_nat (S k))%Z
      /\ (len evs + len (parsed_records (firstn (S k) lines)) = MAX_EVENTS)%Z
      /\ (len evs + len (parsed_records (firstn k lines)) = MAX_EVENTS - 1)%Z.
Proof.
  induction lines as [|line rest IH]; intros evs n r H Hlt Hfull; cbn in H.
  - injection H as <-. cbn in Hfull. lia.
  - assert (Hskip : parsed_records [line] = [] ->
                    cli_events_loop rest evs (n + 1) = Ok r ->
                    exists k : nat,
                      raw_line_count r = (n + Z.of_nat (S k))%Z
                      /\ (len evs + len (parsed_records (firstn (S k) (line :: rest)))
                          = MAX_EVENTS)%Z
                      /\ (len evs + len (parsed_records (firstn k (line :: rest)))
                          = MAX_EVENTS - 1)%Z).
    { intros Hnone Hr. destruct (IH _ _ _ Hr Hlt Hfull) as (k & Hc & H1 & H2).
      exists (S k).
      change (firstn (S (S k)) (line :: rest)) with (line :: firstn (S k) rest).
      change (firstn (S k) (line :: rest)) with (line :: firstn k rest).
      rewrite (parsed_records_cons line (firstn (S k) rest)).
      rewrite (parsed_records_cons line (firstn k rest)).
      rewrite Hnone. cbn [app]. refine (conj _ (conj H1 H2)). lia. }
    destruct (nonempty (strip line)) eqn:Hne; cbn in H.
    2:{ apply Hskip; [|assumption]. unfold parsed_records. cbn. now rewrite Hne. }
    destruct (json_loads (strip line)) as [obj|] eqn:Hparse.
    2:{ apply Hskip; [|assumption]. unfold parsed_records. cbn.
        now rewrite Hne, Hparse. }
    assert (Hone : parsed_records [line] = [obj]).
    { unfold parsed_records. cbn. now rewrite Hne, Hparse. }
    destruct (cli_event obj) as [ev|e] eqn:Hev; [|discriminate].
    assert (Hlen : len (evs ++ [ev]) = (len evs + 1)%Z)
      by now rewrite len_app, len_cons, len_nil.
    destruct (MAX_EVENTS <=? len (evs ++ [ev]))%Z eqn:Hcap.
    + injection H as <-. cbn [events raw_line_count] in *. exists 0%nat.
      cbn [firstn]. rewrite Hone.
      change (parsed_records []) with (@nil json).
      rewrite len_cons, len_nil. lia.
    + apply Z.leb_gt in Hcap.
      destruct (IH _ _ _ H Hcap Hfull) as (k & Hc & H1 & H2).
      exists (S k).
      change (firstn (S (S k)) (line :: rest)) with (line :: firstn (S k) rest).
      change (firstn (S k) (line :: rest)) with (line :: firstn k rest).
      rewrite (parsed_records_cons line (firstn (S k) rest)).
      rewrite (parsed_records_cons line (firstn k rest)).
      rewrite Hone. cbn [app]. rewrite !len_cons. lia.
Qed.

(** C5, as the code has it.  The count [load_cli_events] returns is the
    number of lines it read: the returned result is the result of reading
    that many first lines alone.  The events are as many as the records
    that parse, up to [MAX_EVENTS].  With fewer than [MAX_EVENTS] events
    the count is the number of all lines of the artifact.  With
    [MAX_EVENTS] events the count is the position of the line that gave
    the last of them: the lines up to it hold [MAX_EVENTS] records that
    parse, and the lines before it one less; the lines after it are not
    counted. *)
Theorem raw_line_count_is_lines_read (lines : list str) (r : Loaded) :
  load_cli_events lines = Ok r ->
  (0 <= raw_line_count r <= len lines)%Z
  /\ load_cli_events (firstn (Z.to_nat (raw_line_count r)) lines) = Ok r
  /\ ((len (events r) < MAX_EVENTS)%Z -> raw_line_count r = len lines)
  /\ len (events r) = Z.min MAX_EVENTS (len (parsed_records lines))
  /\ (len (events r) = MAX_EVENTS ->
      (1 <= raw_line_count r)%Z
      /\ len (parsed_records (firstn (Z.to_nat (raw_line_count r)) lines))
         = MAX_EVENTS
      /\ len (parsed_records (firstn (Z.to_nat (raw_line_count r - 1)) lines))
         = (MAX_EVENTS - 1)%Z).
Proof.
  intros H. unfold load_cli_events in *.
  destruct (cli_events_loop_count _ _ _ H) as (k & Hk & Hc & Hf & Hall).
  refine (conj _ (conj _ (conj _ (conj _ _)))).
  - rewrite Hc. unfold len. lia.
  - rewrite Hc. cbn [Z.add]. now rewrite Nat2Z.id.
  - intros Hlt. rewrite Hc. unfold len. cbn [Z.add]. f_equal. now apply Hall.
  - rewrite (@cli_events_loop_len lines [] 0%Z r H) by (rewrite len_nil; reflexivity).
    now rewrite len_nil.
  - intros Hfull.
    destruct (@cli_events_loop_cap lines [] 0%Z r H) as (j & Hj & H1 & H2);
      [rewrite len_nil; reflexivity|assumption|].
    rewrite len_nil in H1, H2. rewrite Hj. cbn [Z.add].
    replace (Z.to_nat (Z.of_nat (S j) - 1)) with j by lia.
    rewrite Nat2Z.id. refine (conj _ (conj _ _)); lia.
Qed.

(** ** C7: the role of an event *)

Lemma cli_event_role (obj : json) (ev : Event) :
  cli_event obj = Ok ev ->
  exists d, obj = JDict d /\ role ev = discriminant_role d.
Proof.
  unfold cli_event. destruct obj as [| | | | |items|d]; try discriminate.
  intros H. exists d. split; [reflexivity|].
  unfold discriminant_role.
  destruct (json_eq_str _ (lit "user")); [now injection H as <-|].
  destruct (json_eq_str _ (lit "assistant")); [now injection H as <-|].
  destruct (json_eq_str _ (lit "queue-operation")); [now injection H as <-|].
  destruct (json_eq_str _ (lit "progress")); [now injection H as <-|].
  destruct (json_eq_str _ (lit "system")); now injection H as <-.
Qed.

Lemma cli_events_loop_records (lines : list str) :
  forall evs n r,
    cli_events_loop lines evs n = Ok r ->
    exists new,
      events r = evs ++ new
      /\ Forall2 (fun ev obj => cli_event obj = Ok ev) new
           (firstn (length new) (parsed_records lines)).
Proof.
  induction lines as [|line rest IH]; intros evs n r H; cbn in H.
  - injection H as <-. exists []. cbn. rewrite app_nil_r. split; constructor.
  - unfold parsed_records. cbn [flat_map]. fold (parsed_records rest).
    destruct (nonempty (strip line)) eqn:Hne; cbn in H; [|now apply IH in H].
    destruct (json_loads (strip line)) as [obj|] eqn:Hparse; [|now apply IH in H].
    destruct (cli_event obj) as [ev|e] eqn:Hev; [|discriminate].
    destruct (MAX_EVENTS <=? len (evs ++ [ev]))%Z eqn:Hcap.
    + injection H as <-. exists [ev]. cbn. split; [reflexivity|].
      constructor; [assumption|constructor].
    + destruct (IH _ _ _ H) as (new & Hnew & Hall).
      exists (ev :: new). split.
      * rewrite Hnew, <- app_assoc. reflexivity.
      * cbn. constructor; assumption.
Qed.

Lemma Forall2_nth_error_l (A B : Type) (R : A -> B -> Prop) (l1 : list A) :
  forall (l2 : list B) (i : nat) (x : A),
    Forall2 R l1 l2 -> nth_error l1 i = Some x ->
    exists y, nth_error l2 i = Some y /\ R x y.
Proof.
  induction l1 as [|a l1 IH]; intros l2 i x HF Hn.
  - destruct i; discriminate.
  - inversion HF as [|? b ? l2' Hab HF' ]; subst.
    destruct i as [|i]; cbn in *.
    + injection Hn as <-. now exists b.
    + eapply IH; eassumption.
Qed.

Lemma nth_error_firstn_some (A : Type) (k : nat) (l : list A) (i : nat) (x : A) :
  nth_error (firstn k l) i = Some x -> nth_error l i = Some x.
Proof.
  revert l i. induction k as [|k IH]; intros [|a l] [|i]; cbn; intros H;
    try discriminate; try assumption.
  now apply IH.
Qed.

(** C7, as the code has it.  When [load_cli_events] returns, its [i]-th
    event comes from the [i]-th parsed record, which is a dict, and the
    role of the event is the one the type discriminant fixes ([user],
    [assistant]; [system] for [queue-operation], [progress] and [system]),
    and the result of the RoleClassifier for every other record. *)
Theorem event_role_of_record (lines : list str) (r : Loaded) (i : nat) (ev : Event) :
  load_cli_events lines = Ok r ->
  nth_error (events r) i = Some ev ->
  exists d,
    nth_error (parsed_records lines) i = Some (JDict d)
    /\ role ev = discriminant_role d.
Proof.
  intros H Hi. unfold load_cli_events in H.
  destruct (cli_events_loop_records _ _ _ H) as (new & Hnew & Hall).
  cbn in Hnew. rewrite Hnew in Hi.
  destruct (Forall2_nth_error_l _ Hall Hi) as (obj & Hobj & Hev).
  apply nth_error_firstn_some in Hobj.
  destruct (cli_event_role _ Hev) as (d & -> & Hrole).
  now exists d.
Qed.

(** ** C6: the timestamp threshold *)

Lemma timeval_of_1700000000000_ms :
  exists f,
    div_1000 (PInt 1700000000000) = Some f
    /\ timeval_of (PFloat f) = Some (1700000000, 0)%Z.
Proof.
  eexists. split.
  - vm_compute. reflexivity.
  - vm_compute. reflexivity.
Qed.

(** C6, as the code has it.  An integer of at most [10^12] is taken as
    seconds: the instant converted is that many seconds after the epoch.
    An integer strictly greater than [10^12] is taken as milliseconds and
    divided by [1000.0] before it is converted.  A double follows the same
    rule, with the same strict comparison.  In particular [1700000000] and
    [1700000000000] give the same canonical instant. *)
Theorem iso_from_ts_threshold :
  (forall n : Z,
     (n <= 1000000000000)%Z ->
     _iso_from_ts (JInt n) =
       match localtime_isoformat n 0 with
       | Some s => s
       | None => []
       end)
  /\ (forall n : Z,
        (1000000000000 < n)%Z ->
        _iso_from_ts (JInt n) =
          match float_of_int n with
          | Some f =>
              fromtimestamp_isoformat (PFloat (SFdiv prec emax f float_1000))
          | None => []
          end)
  /\ (forall f : spec_float,
        _iso_from_ts (JFloat f) =
          if SFltb float_1e12 f then
            fromtimestamp_isoformat (PFloat (SFdiv prec emax f float_1000))
          else fromtimestamp_isoformat (PFloat f))
  /\ _iso_from_ts (JInt 1700000000) = _iso_from_ts (JInt 1700000000000).
Proof.
  refine (conj _ (conj _ (conj _ _))).
  - intros n Hn. unfold _iso_from_ts, iso_from_number, gt_1e12.
    apply Z.ltb_ge in Hn. rewrite Hn. reflexivity.
  - intros n Hn. unfold _iso_from_ts, iso_from_number, gt_1e12, div_1000.
    apply Z.ltb_lt in Hn. rewrite Hn.
    destruct (float_of_int n); reflexivity.
  - intros f. unfold _iso_from_ts, iso_from_number, gt_1e12, div_1000.
    destruct (SFltb float_1e12 f); reflexivity.
  - cbn [_iso_from_ts]. unfold iso_from_number.
    change (gt_1e12 (PInt 1700000000)) with false.
    change (gt_1e12 (PInt 1700000000000)) with true.
    cbv iota.
    destruct timeval_of_1700000000000_ms as (f & -> & Hms).
    unfold fromtimestamp_isoformat. rewrite Hms. reflexivity.
Qed.

(** ** C1: a record that is not an object *)

Lemma cli_event_not_dict (obj : json) :
  (forall d, obj <> JDict d) -> cli_event obj = Raise AttributeError.
Proof.
  intros H. destruct obj; try reflexivity. now destruct (H d).
Qed.

(** A line that parses to something other than an object makes
    [load_cli_events] raise, whatever follows it. *)
Lemma load_cli_events_raises (line : str) (rest : list str) (obj : json) :
  nonempty (strip line) = true ->
  json_loads (strip line) = Some obj ->
  (forall d, obj <> JDict d) ->
  load_cli_events (line :: rest) = Raise AttributeError.
Proof.
  intros Hne Hparse Hobj. unfold load_cli_events. cbn.
  rewrite Hne, Hparse. cbn. now rewrite (cli_event_not_dict Hobj).
Qed.

(** ** C8: the length of [search_text] *)



Lemma len_preview (n : Z) (text : str) : (0 <= n)%Z -> (len (preview n text) <= n)%Z.
Proof. intros Hn. unfold preview. now apply len_slice_to. Qed.





Lemma lstrip_length (s : str) : (length (lstrip s) <= length s)%nat.
Proof.
  induction s as [|c s IH]; cbn; [lia|]. destruct (isspace c); cbn; lia.
Qed.

Lemma strip_length (s : str) : (length (strip s) <= length s)%nat.
Proof.
  unfold strip, rstrip. rewrite length_rev.
  etransitivity; [apply lstrip_length|]. rewrite length_rev. apply lstrip_length.
Qed.

Lemma take_run_length (n : nat) :
  forall s, (length (fst (take_run n s)) <= n)%nat.
Proof.
  induction n as [|n IH]; intros s; cbn; [destruct s; cbn; lia|].
  destruct s as [|c s]; cbn; [lia|].
  destruct (readable c); cbn; [|lia].
  specialize (IH s). destruct (take_run n s) as [m rest]. cbn in *. lia.
Qed.



Lemma Forall_slice_to (A : Type) (P : A -> Prop) (n : Z) (l : list A) :
  Forall P l -> Forall P (slice_to n l).
Proof.
  unfold slice_to. generalize (Z.to_nat n) as k. intros k. revert l.
  induction k as [|k IH]; intros [|a l] HF; cbn; try constructor.
  - now inversion HF.
  - apply IH. now inversion HF.
Qed.




(** ** C9: [first_user_text] *)

Lemma json_induction (P : json -> Prop) :
  P JNull ->
  (forall b, P (JBool b)) ->
  (forall n, P (JInt n)) ->
  (forall f, P (JFloat f)) ->
  (forall s, P (JStr s)) ->
  (forall items, Forall P items -> P (JList items)) ->
  (forall d, Forall (fun kv => P (snd kv)) d -> P (JDict d)) ->
  forall j, P j.
Proof.
  intros Hnull Hbool Hint Hfloat Hstr Hlist Hdict.
  fix rec 1. intros [| b | n | f | s | items | d].
  - exact Hnull.
  - apply Hbool.
  - apply Hint.
  - apply Hfloat.
  - apply Hstr.
  - apply Hlist. induction items as [|x items IH]; constructor.
    + apply rec.
    + exact IH.
  - apply Hdict. induction d as [|[k v] d IH]; constructor.
    + apply rec.
    + exact IH.
Qed.

Lemma inky_app (a b : str) : inky (a ++ b) = inky a || inky b.
Proof. unfold inky. apply existsb_app. Qed.

Lemma inky_rev (s : str) : inky (rev s) = inky s.
Proof.
  induction s as [|c s IH]; [reflexivity|].
  cbn [rev]. rewrite inky_app, IH. cbn. rewrite orb_false_r. apply orb_comm.
Qed.

Lemma lstrip_inky (s : str) : inky (lstrip s) = inky s.
Proof.
  induction s as [|c s IH]; [reflexivity|].
  cbn [lstrip]. destruct (isspace c) eqn:Hc; [|reflexivity].
  rewrite IH. cbn. now rewrite Hc.
Qed.

Lemma strip_inky (s : str) : inky (strip s) = inky s.
Proof.
  unfold strip, rstrip. now rewrite inky_rev, lstrip_inky, inky_rev, lstrip_inky.
Qed.

Lemma lstrip_nonempty_inky (s : str) : lstrip s <> [] -> inky s = true.
Proof.
  induction s as [|c s IH]; cbn [lstrip]; [congruence|].
  destruct (isspace c) eqn:Hc; intros H; cbn; rewrite Hc; cbn.
  - now apply IH.
  - reflexivity.
Qed.

Lemma strip_nonempty_inky (s : str) : nonempty (strip s) = true -> inky s = true.
Proof.
  intros H. apply nonempty_true in H. unfold strip, rstrip in H.
  rewrite <- lstrip_inky, <- inky_rev. apply lstrip_nonempty_inky.
  intros E. apply H. now rewrite E.
Qed.

Lemma inky_nonempty (s : str) : inky s = true -> nonempty s = true.
Proof. destruct s; [discriminate|reflexivity]. Qed.

Lemma extract_text_inky (obj : json) :
  Forall (fun t => inky t = true) (_extract_text_recursive obj).
Proof.
  induction obj as [| b | n | f | s | items IH | d IH] using json_induction;
    cbn [_extract_text_recursive]; try constructor.
  - destruct (nonempty (strip s)) eqn:Hs; constructor; [|constructor].
    rewrite strip_inky. now apply strip_nonempty_inky.
  - induction IH as [|x items Hx _ IHitems]; [constructor|].
    apply Forall_app. split; assumption.
  - apply Forall_app. split.
    + generalize text_keys as ks. induction ks as [|k ks IHks]; [constructor|].
      apply Forall_app. split; [|exact IHks].
      clear IHks. induction IH as [|[k' v] d' Hv _ IHd]; [constructor|].
      destruct (str_eqb k k'); assumption.
    + induction IH as [|[k v] d' Hv _ IHd]; [constructor|].
      apply Forall_app. split; [|exact IHd].
      destruct (str_in k text_keys || str_in k skip_keys); [constructor|exact Hv].
Qed.

Lemma join_inky (sep : str) (texts : list str) :
  texts <> [] ->
  Forall (fun t => inky t = true) texts ->
  inky (join sep texts) = true.
Proof.
  intros Hne HF. destruct texts as [|p rest]; [congruence|].
  inversion HF as [|? ? Hp _]; subst.
  destruct rest as [|q rest]; cbn [join]; [assumption|].
  rewrite inky_app, Hp. reflexivity.
Qed.

Lemma preview_nonempty (n : Z) (s : str) :
  (0 < n)%Z -> nonempty s = true -> nonempty (preview n s) = true.
Proof.
  intros Hn Hs. unfold preview, slice_to.
  destruct (Z.to_nat n) as [|k] eqn:E; [lia|].
  destruct s as [|c s]; [discriminate|reflexivity].
Qed.

(** The preview of a record with harvested text is not empty. *)
Lemma text_preview_nonempty (obj : json) :
  has_text obj = true -> nonempty (text_preview obj) = true.
Proof.
  intros H. unfold text_preview. apply preview_nonempty; [reflexivity|].
  apply inky_nonempty. rewrite strip_inky. apply join_inky.
  - now apply nonempty_true.
  - apply extract_text_inky.
Qed.

Lemma cli_first_user_step (st : CliState) (obj : json) :
  st_first_user_text (cli_summary_step st obj) =
    if nonempty (st_first_user_text st) then st_first_user_text st
    else if is_user_text obj then text_preview obj else [].
Proof.
  unfold cli_summary_step, is_user_text, has_text, text_preview.
  cbn [st_first_user_text].
  destruct (nonempty (st_first_user_text st)) eqn:Hset.
  - now rewrite andb_false_r.
  - apply nonempty_false in Hset. rewrite Hset.
    destruct (nonempty (_extract_text_recursive obj));
      destruct (Role_eqb (_guess_role obj) RUser); reflexivity.
Qed.

Lemma cli_first_user_loop (lines : list str) :
  forall st,
    st_first_user_text (cli_summary_loop lines st) =
      if nonempty (st_first_user_text st) then st_first_user_text st
      else
        match find is_user_text (summary_records lines) with
        | Some obj => text_preview obj
        | None => []
        end.
Proof.
  induction lines as [|line rest IH]; intros st; cbn [cli_summary_loop].
  - cbn. destruct (nonempty (st_first_user_text st)) eqn:E; [reflexivity|].
    now apply nonempty_false in E.
  - unfold summary_records. cbn [flat_map]. fold (summary_records rest).
    destruct (_is_probably_textual_json_line line); cbn [negb app]; [|apply IH].
    destruct (json_loads line) as [obj|]; cbn [app]; [|apply IH].
    pose proof (cli_first_user_step st obj) as Hstep.
    assert (Hgoal : st_first_user_text (cli_summary_loop rest (cli_summary_step st obj))
                    = if nonempty (st_first_user_text st) then st_first_user_text st
                      else match find is_user_text (obj :: summary_records rest) with
                           | Some o => text_preview o
                           | None => []
                           end).
    { rewrite IH, Hstep. cbn [find].
      destruct (nonempty (st_first_user_text st)) eqn:Hset.
      - now rewrite Hset.
      - destruct (is_user_text obj) eqn:Hu.
        + apply andb_true_iff in Hu as [_ Ht].
          now rewrite (text_preview_nonempty _ Ht).
        + reflexivity. }
    destruct (cli_summary_done (cli_summary_step st obj)) eqn:Hdone;
      [|exact Hgoal].
    rewrite <- Hgoal, IH.
    unfold cli_summary_done in Hdone. apply andb_true_iff in Hdone as [Hset _].
    now rewrite Hset.
Qed.

Lemma desktop_summary_loop_spec (objs : list json) :
  forall started first_user texts,
    let '(_, first', texts') := desktop_summary_loop objs started first_user texts in
    first' = (if nonempty first_user then first_user
              else match find is_user_text objs with
                   | Some obj => text_preview obj
                   | None => []
                   end)
    /\ texts' = texts ++ map text_chunk (filter has_text objs).
Proof.
  induction objs as [|obj rest IH]; intros started first_user texts;
    cbn [desktop_summary_loop find filter map].
  - rewrite app_nil_r. split; [|reflexivity].
    destruct (nonempty first_user) eqn:E; [reflexivity|].
    now apply nonempty_false in E.
  - unfold is_user_text at 1. unfold has_text at 1 2.
    destruct (nonempty (_extract_text_recursive obj)) eqn:Ht.
    + match goal with
      | |- context [desktop_summary_loop rest ?s ?f ?t] =>
          specialize (IH s f t);
          destruct (desktop_summary_loop rest s f t) as [[s' f'] t']
      end.
      destruct IH as [-> ->]. split.
      * destruct (nonempty first_user) eqn:Hset.
        -- rewrite andb_false_r. now rewrite Hset.
        -- rewrite andb_true_r. destruct (Role_eqb (_guess_role obj) RUser) eqn:Hr.
           ++ cbn [andb]. fold (text_preview obj).
              assert (Hh : has_text obj = true) by exact Ht.
              now rewrite (text_preview_nonempty _ Hh).
           ++ cbn [andb]. now rewrite Hset.
      * cbn [map]. now rewrite <- app_assoc.
    + rewrite andb_false_r.
      match goal with
      | |- context [desktop_summary_loop rest ?s ?f ?t] =>
          specialize (IH s f t);
          destruct (desktop_summary_loop rest s f t) as [[s' f'] t']
      end.
      exact IH.
Qed.

Lemma filter_find (A : Type) (p : A -> bool) (l : list A) :
  match find p l with
  | Some x => exists r, filter p l = x :: r
  | None => filter p l = []
  end.
Proof.
  induction l as [|a l IH]; cbn; [reflexivity|].
  destruct (p a); [now eexists|exact IH].
Qed.

Lemma slice_text_chunk (obj : json) : slice_to 180 (text_chunk obj) = text_preview obj.
Proof.
  unfold text_chunk, text_preview, preview, slice_to.
  rewrite firstn_firstn. reflexivity.
Qed.

(** C9, as the code has it.  For a line-delimited artifact
    [first_user_text] is the preview of the first parsed record that is
    classified [user] and has harvested text, and stays empty when there
    is none: a later record never replaces it.  For an opaque-binary
    artifact it is the same over the recovered objects when one of them
    is such a record; otherwise it falls back to the preview of the
    first object with harvested text, whatever its role, and, when no
    object was recovered at all, to the first readable snippet. *)
Theorem first_user_text_first_wins (a : Artifact) :
  first_user_text (summarize_session a) =
    match a with
    | LineDelimited lines =>
        match find is_user_text (summary_records lines) with
        | Some obj => text_preview obj
        | None => []
        end
    | OpaqueBinary content =>
        match _extract_json_objects_from_bytes (desktop_read content) 40 with
        | [] =>
            slice_to 180
              (hd [] (_extract_readable_snippets (desktop_read content) 10))
        | objs =>
            match find is_user_text objs with
            | Some obj => text_preview obj
            | None =>
                match find has_text objs with
                | Some obj => text_preview obj
                | None => []
                end
            end
        end
    end.
Proof.
  destruct a as [lines|content]; cbn [summarize_session].
  - unfold summarize_cli_session. cbn [first_user_text].
    now rewrite cli_first_user_loop.
  - unfold summarize_desktop_blob.
    destruct (_extract_json_objects_from_bytes (desktop_read content) 40)
      as [|o objs'] eqn:E.
    + cbn [nonempty first_user_text].
      now destruct (_extract_readable_snippets (desktop_read content) 10).
    + cbn [nonempty].
      pose proof (desktop_summary_loop_spec (o :: objs') [] [] []) as Hloop.
      destruct (desktop_summary_loop (o :: objs') [] [] []) as [[s f] t].
      destruct Hloop as [-> ->]. cbn [nonempty app first_user_text].
      pose proof (filter_find has_text (o :: objs')) as Hfilter.
      destruct (find is_user_text (o :: objs')) as [u|] eqn:Hu.
      * apply find_some in Hu as [_ Hu].
        apply andb_true_iff in Hu as [_ Ht].
        now rewrite (text_preview_nonempty _ Ht).
      * cbn [nonempty negb andb].
        destruct (find has_text (o :: objs')) as [h|].
        -- destruct Hfilter as [r ->]. cbn [map nonempty hd].
           apply slice_text_chunk.
        -- rewrite Hfilter. reflexivity.
Qed.

(** ** C4: merging the objects of the two decodings *)

Lemma NoDup_snoc (A : Type) (l : list A) (x : A) :
  NoDup l -> ~ In x l -> NoDup (l ++ [x]).
Proof.
  intros Hl Hx. apply NoDup_rev in Hl. rewrite <- (rev_involutive (l ++ [x])).
  apply NoDup_rev. rewrite rev_app_distr. cbn. constructor; [|assumption].
  rewrite <- in_rev. assumption.
Qed.

Lemma str_in_cons (s x : str) (seen : list str) :
  str_in s (x :: seen) = true <-> s = x \/ str_in s seen = true.
Proof.
  unfold str_in. cbn [existsb]. rewrite orb_true_iff, str_eqb_eq. reflexivity.
Qed.

Lemma seen_snoc (seen : list str) (out : list json) (obj : json) :
  (forall s, str_in s seen = true <-> In s (map signature out)) ->
  forall s, str_in s (signature obj :: seen) = true
            <-> In s (map signature (out ++ [obj])).
Proof.
  intros Hseen s. rewrite str_in_cons, map_app, in_app_iff, Hseen. cbn.
  intuition congruence.
Qed.

Lemma merge_objects_spec (limit : Z) (objs : list json) :
  forall seen out,
    (forall s, str_in s seen = true <-> In s (map signature out)) ->
    NoDup (map signature out) ->
    (len out < Z.max 1 limit)%Z ->
    exists seen' out' returned new,
      merge_objects objs limit seen out = (seen', out', returned)
      /\ out' = out ++ new
      /\ incl new objs
      /\ (forall s, str_in s seen' = true <-> In s (map signature out'))
      /\ NoDup (map signature out')
      /\ (len out' <= Z.max 1 limit)%Z
      /\ (returned = true -> (limit <= len out')%Z)
      /\ (returned = false ->
          (len out' < Z.max 1 limit)%Z
          /\ forall o, In o objs -> In (signature o) (map signature out')).
Proof.
  induction objs as [|obj rest IH]; intros seen out Hseen Hnd Hlt;
    cbn [merge_objects].
  - exists seen, out, false, []. rewrite app_nil_r.
    refine (conj eq_refl (conj eq_refl (conj _ (conj Hseen (conj Hnd
             (conj _ (conj _ _))))))).
    + apply incl_refl.
    + lia.
    + discriminate.
    + intros _. split; [assumption|]. intros o [].
  - destruct (str_in (signature obj) seen) eqn:Hin.
    + destruct (IH seen out Hseen Hnd Hlt)
        as (seen' & out' & returned & new & Hm & Hout & Hincl & Hseen' & Hnd'
            & Hlen & Hret & Hmore).
      exists seen', out', returned, new.
      refine (conj Hm (conj Hout (conj _ (conj Hseen' (conj Hnd'
               (conj Hlen (conj Hret _))))))).
      * now apply incl_tl.
      * intros Hr. destruct (Hmore Hr) as [Hlt' Hall]. split; [assumption|].
        intros o [<-|Ho]; [|now apply Hall].
        apply Hseen in Hin. rewrite Hout, map_app. apply in_or_app. now left.
    + assert (Hnew : ~ In (signature obj) (map signature out)).
      { intros Hc. apply Hseen in Hc. congruence. }
      pose proof (@seen_snoc seen out obj Hseen) as Hseen2.
      assert (Hnd2 : NoDup (map signature (out ++ [obj]))).
      { rewrite map_app. cbn. now apply NoDup_snoc. }
      assert (Hlen2 : (len (out ++ [obj]) = len out + 1)%Z).
      { now rewrite len_app, len_cons, len_nil. }
      destruct (limit <=? len (out ++ [obj]))%Z eqn:Hcap.
      * exists (signature obj :: seen), (out ++ [obj]), true, [obj].
        refine (conj eq_refl (conj eq_refl (conj _ (conj Hseen2 (conj Hnd2
                 (conj _ (conj _ _))))))).
        -- intros o [<-|[]]. now left.
        -- lia.
        -- intros _. now apply Z.leb_le.
        -- discriminate.
      * apply Z.leb_gt in Hcap.
        destruct (IH (signature obj :: seen) (out ++ [obj]) Hseen2 Hnd2
                    ltac:(lia))
          as (seen' & out' & returned & new & Hm & Hout & Hincl & Hseen' & Hnd'
              & Hlen & Hret & Hmore).
        exists seen', out', returned, (obj :: new).
        refine (conj Hm (conj _ (conj _ (conj Hseen' (conj Hnd'
                 (conj Hlen (conj Hret _))))))).
        -- rewrite Hout, <- app_assoc. reflexivity.
        -- intros o [<-|Ho]; [now left|right; now apply Hincl].
        -- intros Hr. destruct (Hmore Hr) as [Hlt' Hall]. split; [assumption|].
           intros o [<-|Ho]; [|now apply Hall].
           rewrite Hout, !map_app. apply in_or_app. left. apply in_or_app.
           right. now left.
Qed.

Lemma extract_objects_empty_text (limit : Z) :
  _extract_json_objects_from_text [] limit = [].
Proof. reflexivity. Qed.

Lemma merge_texts_spec (limit : Z) (texts : list str) :
  forall seen out,
    (forall s, str_in s seen = true <-> In s (map signature out)) ->
    NoDup (map signature out) ->
    (len out < Z.max 1 limit)%Z ->
    let found :=
      flat_map (fun text => _extract_json_objects_from_text text limit) texts in
    exists new,
      merge_texts texts limit seen out = out ++ new
      /\ incl new found
      /\ NoDup (map signature (out ++ new))
      /\ (len (out ++ new) <= Z.max 1 limit)%Z
      /\ ((len (out ++ new) < limit)%Z ->
          forall o, In o found -> In (signature o) (map signature (out ++ new))).
Proof.
  induction texts as [|text rest IH]; intros seen out Hseen Hnd Hlt;
    cbn [merge_texts flat_map].
  - exists []. rewrite app_nil_r.
    refine (conj eq_refl (conj _ (conj Hnd (conj _ _)))).
    + apply incl_refl.
    + lia.
    + intros _ o [].
  - destruct (nonempty text) eqn:Hne; cbn [negb].
    2:{ apply nonempty_false in Hne. subst text.
        rewrite extract_objects_empty_text. cbn [app]. now apply IH. }
    destruct (@merge_objects_spec limit
                (_extract_json_objects_from_text text limit) seen out
                Hseen Hnd Hlt)
      as (seen' & out' & returned & new & Hm & Hout & Hincl & Hseen' & Hnd'
          & Hlen & Hret & Hmore).
    rewrite Hm. destruct returned.
    + exists new. subst out'.
      refine (conj eq_refl (conj _ (conj Hnd' (conj Hlen _)))).
      * now apply incl_appl.
      * intros Hlow. specialize (Hret eq_refl). lia.
    + destruct (Hmore eq_refl) as [Hlt' Hall].
      destruct (IH seen' out' Hseen' Hnd' Hlt')
        as (new' & Hm' & Hincl' & Hnd'' & Hlen' & Hall').
      subst out'. exists (new ++ new'). rewrite app_assoc.
      refine (conj Hm' (conj _ (conj Hnd'' (conj Hlen' _)))).
      * apply incl_app; [now apply incl_appl|now apply incl_appr].
      * intros Hlow o Ho. apply in_app_or in Ho as [Ho|Ho].
        -- rewrite map_app. apply in_or_app. left. now apply Hall.
        -- now apply Hall'.
Qed.










(** ** C3: string literals and the nesting depth *)

Lemma scan_plain_in_string (c : char) (l : str) (d : Z) (j : nat) :
  c <> ch_quote -> c <> ch_backslash ->
  scan_balanced (c :: l) d true false j = scan_balanced l d true false (S j).
Proof.
  intros Hq Hb. cbn [scan_balanced].
  apply N.eqb_neq in Hq, Hb. now rewrite Hq, Hb.
Qed.

Lemma scan_escape_in_string (c : char) (l : str) (d : Z) (j : nat) :
  scan_balanced (ch_backslash :: c :: l) d true false j
  = scan_balanced l d true false (S (S j)).
Proof. reflexivity. Qed.

Lemma scan_closing_quote (l : str) (d : Z) (j : nat) :
  scan_balanced (ch_quote :: l) d true false j
  = scan_balanced l d false false (S j).
Proof. reflexivity. Qed.

Lemma scan_opening_quote (l : str) (d : Z) (j : nat) :
  scan_balanced (ch_quote :: l) d false false j
  = scan_balanced l d true false (S j).
Proof. reflexivity. Qed.

Lemma scan_outside_string (c : char) (l : str) (d : Z) (j : nat) :
  c <> ch_quote ->
  scan_balanced (c :: l) d false false j =
    if (c =? ch_lbrace)%N then scan_balanced l (d + 1) false false (S j)
    else if (c =? ch_rbrace)%N then
      if (d - 1 =? 0)%Z then Some j
      else scan_balanced l (d - 1) false false (S j)
    else scan_balanced l d false false (S j).
Proof.
  intros Hq. cbn [scan_balanced]. apply N.eqb_neq in Hq. now rewrite Hq.
Qed.

(** Inside a string literal nothing changes the depth: the scan of a
    well-formed body leaves the state as it found it. *)
Lemma scan_body (body : list lit_item) :
  forall (l : str) (d : Z) (j : nat),
    Forall item_ok body ->
    scan_balanced (body_text body ++ l) d true false j
    = scan_balanced l d true false (j + length (body_text body)).
Proof.
  induction body as [|i body IH]; intros l d j Hok.
  - cbn. now rewrite Nat.add_0_r.
  - inversion Hok as [|? ? Hi Hbody]; subst.
    unfold body_text in *. cbn [flat_map]. rewrite <- app_assoc.
    destruct i as [c|c]; cbn [item_text app].
    + destruct Hi as [Hq Hb]. rewrite scan_plain_in_string by assumption.
      rewrite IH by assumption. f_equal. cbn [length]. lia.
    + rewrite scan_escape_in_string. rewrite IH by assumption.
      f_equal. cbn [length]. lia.
Qed.

(** A whole string literal is skipped. *)
Lemma scan_literal (body : list lit_item) (l : str) (d : Z) (j : nat) :
  Forall item_ok body ->
  scan_balanced (token_text (Str body) ++ l) d false false j
  = scan_balanced l d false false (j + length (token_text (Str body))).
Proof.
  intros Hok. cbn [token_text]. rewrite <- !app_assoc. cbn [app].
  rewrite scan_opening_quote, scan_body by assumption.
  cbn [app]. rewrite scan_closing_quote. f_equal.
  cbn [length]. rewrite length_app. cbn [length]. lia.
Qed.

Lemma scan_tokens (toks : list token) :
  forall (d : Z) (j : nat) (rest : str),
    Forall token_ok toks ->
    scan_balanced (text_of toks ++ rest) d false false j =
      match genuine_close toks d with
      | Some (pre, _) => Some (j + length (text_of pre) - 1)%nat
      | None =>
          scan_balanced rest (depth_after toks d) false false
            (j + length (text_of toks))
      end.
Proof.
  induction toks as [|t toks IH]; intros d j rest Hok.
  - cbn. now rewrite Nat.add_0_r.
  - inversion Hok as [|? ? Ht Htoks]; subst.
    change (text_of (t :: toks)) with (token_text t ++ text_of toks).
    assert (Hcont : forall d',
      scan_balanced (text_of toks ++ rest) d' false false
        (j + length (token_text t))
      = match
          match genuine_close toks d' with
          | Some (pre, post) => Some (t :: pre, post)
          | None => None
          end
        with
        | Some (pre, _) => Some (j + length (text_of pre) - 1)%nat
        | None =>
            scan_balanced rest (depth_after toks d') false false
              (j + length (token_text t ++ text_of toks))
        end).
    { intros d'. rewrite IH by assumption. rewrite length_app.
      destruct (genuine_close toks d') as [[pre post]|].
      - change (text_of (t :: pre)) with (token_text t ++ text_of pre).
        rewrite length_app. f_equal. lia.
      - f_equal. lia. }
    rewrite <- app_assoc. cbn [genuine_close depth_after].
    destruct t as [c|body].
    + cbn [token_text app token_ok] in *.
      rewrite scan_outside_string by assumption.
      replace (S j) with (j + length [c])%nat by (cbn; lia).
      destruct (c =? ch_lbrace)%N; [apply (Hcont (d + 1)%Z)|].
      destruct (c =? ch_rbrace)%N; [|apply (Hcont d)].
      destruct (d - 1 =? 0)%Z; [|apply (Hcont (d - 1)%Z)].
      cbn. f_equal. lia.
    + rewrite scan_literal by assumption. apply (Hcont d).
Qed.

(** A literal left open at the end of the text never closes a
    candidate. *)
Lemma scan_tail (tail : open_tail) (d : Z) (j : nat) :
  tail_ok tail -> scan_balanced (tail_text tail) d false false j = None.
Proof.
  destruct tail as [|body dangling]; intros Hok; [reflexivity|].
  cbn [tail_text app]. rewrite scan_opening_quote, scan_body by assumption.
  now destruct dangling.
Qed.

Lemma genuine_close_split (toks : list token) :
  forall d pre post,
    genuine_close toks d = Some (pre, post) ->
    toks = pre ++ post /\ pre <> [].
Proof.
  induction toks as [|t toks IH]; intros d pre post H; cbn in H; [discriminate|].
  assert (Hcont : forall d',
            match genuine_close toks d' with
            | Some (pre', post') => Some (t :: pre', post')
            | None => None
            end = Some (pre, post) ->
            t :: toks = pre ++ post /\ pre <> []).
  { intros d' H'. destruct (genuine_close toks d') as [[pre' post']|] eqn:E;
      [|discriminate].
    injection H' as <- <-. destruct (IH _ _ _ E) as [-> _].
    split; [reflexivity|discriminate]. }
  destruct t as [c|body]; [|now apply (Hcont d)].
  destruct (c =? ch_lbrace)%N; [now apply (Hcont (d + 1)%Z)|].
  destruct (c =? ch_rbrace)%N; [|now apply (Hcont d)].
  destruct (d - 1 =? 0)%Z; [|now apply (Hcont (d - 1)%Z)].
  injection H as <- <-. split; [reflexivity|discriminate].
Qed.

Lemma token_text_length (t : token) : (1 <= length (token_text t))%nat.
Proof. destruct t; cbn; lia. Qed.

Lemma text_of_app (a b : list token) : text_of (a ++ b) = text_of a ++ text_of b.
Proof. unfold text_of. apply flat_map_app. Qed.

Lemma text_of_length (toks : list token) :
  toks <> [] -> (1 <= length (text_of toks))%nat.
Proof.
  destruct toks as [|t toks]; [congruence|]. intros _.
  unfold text_of. cbn [flat_map]. rewrite length_app.
  pose proof (token_text_length t). lia.
Qed.

Lemma candidates_loop_full (fuel : nat) (rest : str) (limit : Z) (out : list str) :
  (limit <= len out)%Z -> candidates_loop fuel rest limit out = out.
Proof.
  intros H. destruct fuel as [|fuel]; [reflexivity|].
  destruct rest as [|ch rest]; [reflexivity|]. cbn [candidates_loop].
  apply Z.ltb_ge in H. now rewrite H.
Qed.

(** What was emitted so far only shortens the limit left. *)
Lemma candidates_loop_acc (fuel : nat) :
  forall (rest : str) (limit : Z) (out : list str),
    candidates_loop fuel rest limit out
    = out ++ candidates_loop fuel rest (limit - len out) [].
Proof.
  induction fuel as [|fuel IH]; intros rest limit out.
  - cbn. now rewrite app_nil_r.
  - destruct rest as [|ch rest']; [cbn; now rewrite app_nil_r|].
    cbn [candidates_loop]. rewrite len_nil.
    replace (0 <? limit - len out)%Z with (len out <? limit)%Z
      by (destruct (len out <? limit)%Z eqn:E1, (0 <? limit - len out)%Z eqn:E2;
          try reflexivity; lia).
    destruct (len out <? limit)%Z; [|now rewrite app_nil_r].
    destruct (negb (ch =? ch_lbrace)%N); [apply IH|].
    destruct (scan_balanced (ch :: rest') 0 false false 0) as [j|];
      [|now rewrite app_nil_r].
    destruct (chunk_in_bounds (firstn (S j) (ch :: rest'))).
    + rewrite IH. rewrite (IH _ _ ([] ++ _)). cbn [app].
      rewrite <- app_assoc. cbn [app]. do 3 f_equal.
      rewrite len_app, !len_cons, !len_nil. lia.
    + apply IH.
Qed.

(** Fuel beyond the length of the text changes nothing. *)
Lemma candidates_loop_fuel (f1 : nat) :
  forall (f2 : nat) (rest : str) (limit : Z) (out : list str),
    (length rest <= f1)%nat -> (length rest <= f2)%nat ->
    candidates_loop f1 rest limit out = candidates_loop f2 rest limit out.
Proof.
  induction f1 as [|f1 IH]; intros f2 rest limit out H1 H2.
  - destruct rest; [|cbn in H1; lia]. now destruct f2.
  - destruct rest as [|ch rest']; [now destruct f2|].
    destruct f2 as [|f2]; [cbn in H2; lia|].
    cbn [length] in H1, H2. cbn [candidates_loop].
    destruct (len out <? limit)%Z; [|reflexivity].
    destruct (negb (ch =? ch_lbrace)%N); [apply IH; lia|].
    destruct (scan_balanced (ch :: rest') 0 false false 0) as [j|];
      [|reflexivity].
    apply IH.
    + destruct (0 <? j)%nat; [rewrite length_skipn; cbn [length]|]; lia.
    + destruct (0 <? j)%nat; [rewrite length_skipn; cbn [length]|]; lia.
Qed.

(** A character that is not an opening brace is passed over. *)
Lemma candidates_skip (c : char) (text : str) (limit : Z) :
  c <> ch_lbrace ->
  _extract_json_candidates_balanced (c :: text) limit
  = _extract_json_candidates_balanced text limit.
Proof.
  intros Hc. unfold _extract_json_candidates_balanced.
  cbn [length candidates_loop]. rewrite len_nil.
  destruct (0 <? limit)%Z eqn:Hl.
  - apply N.eqb_neq in Hc. now rewrite Hc.
  - symmetry. apply candidates_loop_full. apply Z.ltb_ge in Hl.
    now rewrite len_nil.
Qed.

Lemma candidates_skip_prefix (prefix text : str) (limit : Z) :
  Forall (fun c => c <> ch_lbrace) prefix ->
  _extract_json_candidates_balanced (prefix ++ text) limit
  = _extract_json_candidates_balanced text limit.
Proof.
  induction 1 as [|c prefix Hc _ IH]; [reflexivity|].
  cbn [app]. now rewrite candidates_skip.
Qed.

(** C3.  Let a text hold an opening brace after characters that are not
    one, and let what follows the brace be read as tokens: characters
    outside string literals and whole string literals (with backslash
    escapes), possibly ending inside a literal left open.  Then the
    candidates are decided by the genuine nesting alone, in which the
    braces and quotes inside literals do not count: when the tokens never
    bring the depth back to zero nothing is emitted; otherwise the
    candidate is the text from the brace to the token that does, it is
    emitted exactly when its length is within the bounds, and the
    recovery goes on after it. *)
Theorem candidates_follow_genuine_nesting
    (prefix : str) (toks : list token) (tail : open_tail) (limit : Z) :
  Forall (fun c => c <> ch_lbrace) prefix ->
  Forall token_ok toks ->
  tail_ok tail ->
  _extract_json_candidates_balanced
    (prefix ++ ch_lbrace :: text_of toks ++ tail_text tail) limit =
    if (0 <? limit)%Z then
      match genuine_close toks 1 with
      | Some (pre, post) =>
          let chunk := ch_lbrace :: text_of pre in
          let rest := text_of post ++ tail_text tail in
          if chunk_in_bounds chunk then
            chunk :: _extract_json_candidates_balanced rest (limit - 1)
          else _extract_json_candidates_balanced rest limit
      | None => []
      end
    else [].
Proof.
  intros Hprefix Htoks Htail. rewrite candidates_skip_prefix by assumption.
  unfold _extract_json_candidates_balanced at 1.
  cbn [length candidates_loop]. rewrite len_nil.
  destruct (0 <? limit)%Z; [|reflexivity].
  change (negb (ch_lbrace =? ch_lbrace)%N) with false. cbv iota.
  change (scan_balanced (ch_lbrace :: text_of toks ++ tail_text tail) 0 false false 0)
    with (scan_balanced (text_of toks ++ tail_text tail) 1 false false 1).
  rewrite scan_tokens by assumption.
  destruct (genuine_close toks 1) as [[pre post]|] eqn:Hclose.
  - destruct (genuine_close_split _ _ Hclose) as [-> Hpre].
    pose proof (text_of_length Hpre) as Hlen.
    replace (1 + length (text_of pre) - 1)%nat with (length (text_of pre)) by lia.
    rewrite text_of_app, <- app_assoc.
    replace (0 <? length (text_of pre))%nat with true
      by (symmetry; apply Nat.ltb_lt; lia).
    cbn [firstn skipn]. rewrite firstn_app, Nat.sub_diag, firstn_all.
    cbn [firstn]. rewrite app_nil_r.
    rewrite skipn_app, Nat.sub_diag, skipn_all. cbn [skipn app].
    cbv zeta. rewrite length_app.
    rewrite (@candidates_loop_fuel _
               (length (text_of post ++ tail_text tail)))
      by (rewrite ?length_app; lia).
    destruct (chunk_in_bounds (ch_lbrace :: text_of pre)).
    + cbn [app]. rewrite candidates_loop_acc. cbn [app]. reflexivity.
    + reflexivity.
  - now rewrite scan_tail.
Qed.

(** Every text reads as tokens, possibly ending inside a literal, both
    from outside a string literal and from inside one. *)
Lemma tokenize_both (n : nat) :
  forall text : str,
    (length text <= n)%nat ->
    (exists toks tail,
        Forall token_ok toks /\ tail_ok tail
        /\ text = text_of toks ++ tail_text tail)
    /\ (exists body,
           Forall item_ok body
           /\ ((exists toks tail,
                   Forall token_ok toks /\ tail_ok tail
                   /\ text = body_text body ++ ch_quote :: text_of toks
                             ++ tail_text tail)
               \/ (exists dangling : bool,
                      text = body_text body
                             ++ (if dangling then [ch_backslash] else [])))).
Proof.
  assert (Hnil :
    (exists toks tail,
        Forall token_ok toks /\ tail_ok tail
        /\ @nil N = text_of toks ++ tail_text tail)
    /\ (exists body,
           Forall item_ok body
           /\ ((exists toks tail,
                   Forall token_ok toks /\ tail_ok tail
                   /\ @nil N = body_text body ++ ch_quote :: text_of toks
                               ++ tail_text tail)
               \/ (exists dangling : bool,
                      @nil N = body_text body
                               ++ (if dangling then [ch_backslash] else []))))).
  { split.
    - exists [], Closed. repeat split; constructor.
    - exists []. split; [constructor|]. right. now exists false. }
  induction n as [|n IH]; intros text Hlen.
  - destruct text; [exact Hnil|cbn in Hlen; lia].
  - destruct text as [|c t]; [exact Hnil|]. cbn [length] in Hlen.
    destruct (IH t ltac:(lia)) as [HP HQ]. split.
    + destruct (N.eq_dec c ch_quote) as [->|Hc].
      * destruct HQ as (body & Hbody & [(toks & tail & Htoks & Htail & ->)
                                        |(dangling & ->)]).
        -- exists (Str body :: toks), tail. split; [now constructor|].
           split; [assumption|].
           change (text_of (Str body :: toks))
             with (([ch_quote] ++ body_text body ++ [ch_quote]) ++ text_of toks).
           now rewrite <- !app_assoc.
        -- exists [], (Open body dangling). repeat split; [constructor|assumption].
      * destruct HP as (toks & tail & Htoks & Htail & ->).
        exists (Tok c :: toks), tail. split; [now constructor|].
        split; [assumption|reflexivity].
    + destruct (N.eq_dec c ch_quote) as [->|Hq].
      * exists []. split; [constructor|]. left.
        destruct HP as (toks & tail & Htoks & Htail & ->).
        now exists toks, tail.
      * destruct (N.eq_dec c ch_backslash) as [->|Hb].
        -- destruct t as [|d t'].
           ++ exists []. split; [constructor|]. right. now exists true.
           ++ cbn [length] in Hlen.
              destruct (IH t' ltac:(lia)) as [_ (body & Hbody & Hcases)].
              exists (Escaped d :: body). split; [now constructor|].
              destruct Hcases as [(toks & tail & Htoks & Htail & ->)
                                 |(dangling & ->)].
              ** left. now exists toks, tail.
              ** right. now exists dangling.
        -- destruct HQ as (body & Hbody & Hcases).
           exists (Plain c :: body). split; [constructor; [now split|assumption]|].
           destruct Hcases as [(toks & tail & Htoks & Htail & ->)
                              |(dangling & ->)].
           ** left. now exists toks, tail.
           ** right. now exists dangling.
Qed.

Lemma every_text_tokenizes (text : str) :
  exists toks tail,
    Forall token_ok toks /\ tail_ok tail
    /\ text = text_of toks ++ tail_text tail.
Proof. exact (proj1 (@tokenize_both (length text) text (le_n _))). Qed.

(** A text without an opening brace has no candidate. *)
Lemma candidates_none (text : str) (limit : Z) :
  Forall (fun c => c <> ch_lbrace) text ->
  _extract_json_candidates_balanced text limit = [].
Proof.
  intros H. rewrite <- (app_nil_r text). now rewrite candidates_skip_prefix.
Qed.

(** Every text is covered: it has no opening brace, or it reads as in
    [candidates_follow_genuine_nesting]. *)
Lemma text_decomposition (text : str) :
  Forall (fun c => c <> ch_lbrace) text
  \/ exists prefix toks tail,
       Forall (fun c => c <> ch_lbrace) prefix
       /\ Forall token_ok toks /\ tail_ok tail
       /\ text = prefix ++ ch_lbrace :: text_of toks ++ tail_text tail.
Proof.
  induction text as [|c text IH]; [left; constructor|].
  destruct (N.eq_dec c ch_lbrace) as [->|Hc].
  - right. destruct (every_text_tokenizes text) as (toks & tail & Htoks & Htail & ->).
    exists [], toks, tail. repeat split; try assumption. constructor.
  - destruct IH as [Hnone|(prefix & toks & tail & Hp & Htoks & Htail & ->)].
    + left. now constructor.
    + right. exists (c :: prefix), toks, tail.
      repeat split; try assumption. now constructor.
Qed.


(** ** When [load_cli_events] returns *)

Lemma cli_event_of_dict (d : dict) : exists ev, cli_event (JDict d) = Ok ev.
Proof.
  unfold cli_event.
  destruct (json_eq_str _ (lit "user")); [eexists; reflexivity|].
  destruct (json_eq_str _ (lit "assistant")); [eexists; reflexivity|].
  destruct (json_eq_str _ (lit "queue-operation")); [eexists; reflexivity|].
  destruct (json_eq_str _ (lit "progress")); [eexists; reflexivity|].
  destruct (json_eq_str _ (lit "system")); eexists; reflexivity.
Qed.

(** When every line that parses gives an object, [load_cli_events]
    returns: lines that are blank or fail to parse are passed over. *)
Lemma load_cli_events_returns (lines : list str) :
  Forall (fun obj => exists d, obj = JDict d) (parsed_records lines) ->
  exists r, load_cli_events lines = Ok r.
Proof.
  unfold load_cli_events. generalize (@nil Event) as evs, 0%Z as n.
  induction lines as [|line rest IH]; intros evs n Hall; cbn [cli_events_loop].
  - eexists. reflexivity.
  - unfold parsed_records in Hall. cbn [flat_map] in Hall.
    fold (parsed_records rest) in Hall.
    destruct (nonempty (strip line)); cbn [negb]; [|now apply IH].
    destruct (json_loads (strip line)) as [obj|]; [|now apply IH].
    cbn [app] in Hall. inversion Hall as [|? ? [d ->] Hrest]; subst.
    destruct (cli_event_of_dict d) as [ev ->].
    destruct (MAX_EVENTS <=? len (evs ++ [ev]))%Z; [eexists; reflexivity|].
    now apply IH.
Qed.

(** ** The fuel of [finditer] *)

Lemma take_run_app (n : nat) :
  forall s, s = fst (take_run n s) ++ snd (take_run n s).
Proof.
  induction n as [|n IH]; intros s; cbn; [now destruct s|].
  destruct s as [|c s]; [reflexivity|].
  destruct (readable c); [|reflexivity].
  specialize (IH s). destruct (take_run n s) as [m rest]. cbn in *.
  now rewrite <- IH.
Qed.

(** More fuel than the length of the text changes nothing. *)
Lemma finditer_runs_fuel (f1 : nat) :
  forall (f2 : nat) (s : str),
    (length s <= f1)%nat -> (length s <= f2)%nat ->
    finditer_runs f1 s = finditer_runs f2 s.
Proof.
  induction f1 as [|f1 IH]; intros f2 s H1 H2.
  - destruct s; [|cbn in H1; lia]. now destruct f2.
  - destruct s as [|c s']; [now destruct f2|].
    destruct f2 as [|f2]; [cbn in H2; lia|].
    cbn [length] in H1, H2. cbn [finditer_runs].
    pose proof (take_run_app 300 (c :: s')) as Happ.
    destruct (take_run 300 (c :: s')) as [m rest]. cbn [fst snd] in Happ.
    destruct (24 <=? len m)%Z eqn:Hm; [|apply IH; lia].
    assert (Hrest : (length rest <= length s')%nat).
    { apply (f_equal (@length N)) in Happ. rewrite length_app in Happ.
      cbn [length] in Happ. apply Z.leb_le in Hm. unfold len in Hm. lia. }
    f_equal. apply IH; lia.
Qed.

(** ** The priority of the nested role *)

(** The role a nested message names wins over every other field. *)
Lemma nested_role_wins (d : dict) (r : Role) :
  message_role d = Some r -> _guess_role (JDict d) = r.
Proof. intros H. cbn [_guess_role]. now rewrite H. Qed.

End Properties.

(* ================================================================== *)
(** * The properties on the example artifacts *)
(* ================================================================== *)

(** C1.  On a file whose only line is [42], valid JSON that is not an
    object, [load_cli_events] raises [AttributeError] where the
    specification promises a result with the line skipped. *)
Theorem load_events_raises_on_number_line :
  @load_session_events RefLib (LineDelimited number_line) = Raise AttributeError.
Proof. vm_compute. reflexivity. Qed.

(** The summary of the same file is computed without raising: the
    summarizer guards every access with a type test. *)
Lemma summary_of_number_line :
  @summarize_session RefLib (LineDelimited number_line)
  = {| started_at := []; cwd := []; model := [];
       first_user_text := []; search_text := [] |}.
Proof. vm_compute. reflexivity. Qed.

(** The session of two records loads into its two events. *)
Lemma two_line_session_loads :
  @load_cli_events RefLib two_line_session = Ok two_line_loaded.
Proof. vm_compute. reflexivity. Qed.

(** C2 on the session of two records. *)
Lemma event_count_bounded_witness :
  @load_session_events RefLib (LineDelimited two_line_session) = Ok two_line_loaded
  /\ (len (events two_line_loaded) <= MAX_EVENTS)%Z.
Proof.
  split.
  - exact two_line_session_loads.
  - apply (@event_count_bounded RefLib (LineDelimited two_line_session)).
    exact two_line_session_loads.
Defined.

Lemma over_cap_lines_load :
  @load_cli_events RefLib over_cap_lines = Ok over_cap_loaded.
Proof. vm_compute. reflexivity. Qed.

Lemma over_cap_loaded_full :
  len (events over_cap_loaded) = MAX_EVENTS
  /\ raw_line_count over_cap_loaded = 4000%Z
  /\ len over_cap_lines = 4001%Z.
Proof. refine (conj _ (conj _ _)); vm_compute; reflexivity. Qed.

(** C5 on the session of two records, where both lines are read and
    counted, and on 4001 lines that each give an event, where the count is
    the position of the line that gives the last event. *)
Lemma raw_line_count_is_lines_read_witness :
  (@load_cli_events RefLib two_line_session = Ok two_line_loaded
   /\ ((0 <= raw_line_count two_line_loaded <= len two_line_session)%Z
       /\ @load_cli_events RefLib
            (firstn (Z.to_nat (raw_line_count two_line_loaded)) two_line_session)
          = Ok two_line_loaded
       /\ ((len (events two_line_loaded) < MAX_EVENTS)%Z ->
           raw_line_count two_line_loaded = len two_line_session)
       /\ len (events two_line_loaded)
          = Z.min MAX_EVENTS (len (@parsed_records RefLib two_line_session))
       /\ (len (events two_line_loaded) = MAX_EVENTS ->
           (1 <= raw_line_count two_line_loaded)%Z
           /\ len (@parsed_records RefLib
                     (firstn (Z.to_nat (raw_line_count two_line_loaded))
                        two_line_session))
              = MAX_EVENTS
           /\ len (@parsed_records RefLib
                     (firstn (Z.to_nat (raw_line_count two_line_loaded - 1))
                        two_line_session))
              = (MAX_EVENTS - 1)%Z)))
  /\ (@load_cli_events RefLib over_cap_lines = Ok over_cap_loaded
      /\ len (events over_cap_loaded) = MAX_EVENTS
      /\ (1 <= raw_line_count over_cap_loaded)%Z
      /\ len (@parsed_records RefLib
                (firstn (Z.to_nat (raw_line_count over_cap_loaded))
                   over_cap_lines))
         = MAX_EVENTS
      /\ len (@parsed_records RefLib
                (firstn (Z.to_nat (raw_line_count over_cap_loaded - 1))
                   over_cap_lines))
         = (MAX_EVENTS - 1)%Z).
Proof.
  split.
  - split.
    + exact two_line_session_loads.
    + apply (@raw_line_count_is_lines_read RefLib two_line_session).
      exact two_line_session_loads.
  - refine (conj over_cap_lines_load (conj (proj1 over_cap_loaded_full) _)).
    apply (@raw_line_count_is_lines_read RefLib over_cap_lines over_cap_loaded
             over_cap_lines_load).
    exact (proj1 over_cap_loaded_full).
Defined.

(** C5, counterexample.  Of 4001 lines that each give an event, 4000 are
    counted. *)
Lemma raw_line_count_stops_at_cap :
  result_map raw_line_count (@load_cli_events RefLib over_cap_lines) = Ok 4000%Z
  /\ len over_cap_lines = 4001%Z.
Proof. split; vm_compute; reflexivity. Qed.

(** C7 on the second record of the session of two records. *)
Lemma event_role_of_record_witness :
  @load_cli_events RefLib two_line_session = Ok two_line_loaded
  /\ exists ev,
       nth_error (events two_line_loaded) 1 = Some ev
       /\ exists d,
            nth_error (@parsed_records RefLib two_line_session) 1 = Some (JDict d)
            /\ role ev = @discriminant_role RefLib d.
Proof.
  split.
  - exact two_line_session_loads.
  - eexists. split.
    + reflexivity.
    + apply (@event_role_of_record RefLib two_line_session two_line_loaded 1).
      * exact two_line_session_loads.
      * reflexivity.
Defined.

(** C7, counterexample.  A record of type [user] whose nested message has
    the role [assistant] gives an event of role [user], where the
    RoleClassifier answers [assistant]. *)
Lemma event_role_differs_from_classifier :
  result_map (fun r => map role (events r))
    (@load_cli_events RefLib [user_typed_assistant_line]) = Ok [RUser]
  /\ map (@_guess_role RefLib) (@parsed_records RefLib [user_typed_assistant_line])
     = [RAssistant].
Proof. split; vm_compute; reflexivity. Qed.

(** C6, counterexample.  [10^12] itself is taken as seconds, which no
    calendar year up to 9999 holds, so the result is empty; taken as
    milliseconds it would be an instant of the year 2001. *)
Lemma iso_from_ts_at_threshold :
  @_iso_from_ts RefLib (JInt 1000000000000) = []
  /\ @iso_from_number_spec RefLib (PInt 1000000000000) = lit "2001-09-09T01:46:40".
Proof. split; vm_compute; reflexivity. Qed.


(** C9, counterexample.  A blob whose only object is classified
    [assistant] still gets a [first_user_text]: the text of that object. *)
Lemma first_user_text_from_assistant :
  first_user_text (@summarize_session RefLib (OpaqueBinary assistant_blob))
  = lit "an answer, and no prompt at all"
  /\ map (@_guess_role RefLib)
       (@_extract_json_objects_from_bytes RefLib (desktop_read assistant_blob) 40)
     = [RAssistant].
Proof. split; vm_compute; reflexivity. Qed.





(** C3 on an object whose first value is a string holding one brace and
    whose last value is a string holding an escaped quote and a brace:
    the candidate ends at the genuine closing brace. *)
Lemma candidates_follow_genuine_nesting_witness :
  (Forall (fun c => c <> ch_lbrace) (lit "xx")
   /\ Forall token_ok quoted_brace_tokens
   /\ tail_ok quoted_brace_tail)
  /\ _extract_json_candidates_balanced
       (lit "xx" ++ ch_lbrace :: text_of quoted_brace_tokens
                 ++ tail_text quoted_brace_tail) 200
     = [qlit "{'text': '{', 'k': 'a\'}b'}"].
Proof.
  assert (Hprefix : Forall (fun c => c <> ch_lbrace) (lit "xx")).
  { repeat constructor; discriminate. }
  assert (Htoks : Forall token_ok quoted_brace_tokens).
  { repeat (constructor; cbn [token_ok item_ok]);
      try split; try exact I; discriminate. }
  assert (Htail : tail_ok quoted_brace_tail).
  { cbn. repeat constructor; discriminate. }
  split; [now repeat split|].
  rewrite (@candidates_follow_genuine_nesting (lit "xx") quoted_brace_tokens
             quoted_brace_tail 200 Hprefix Htoks Htail).
  vm_compute. reflexivity.
Defined.

(** The session of two records parses to objects only, so it loads. *)
Lemma load_cli_events_returns_witness :
  Forall (fun obj => exists d, obj = JDict d)
    (@parsed_records RefLib two_line_session)
  /\ exists r, @load_cli_events RefLib two_line_session = Ok r.
Proof.
  assert (H : Forall (fun obj => exists d, obj = JDict d)
                (@parsed_records RefLib two_line_session)).
  { vm_compute. repeat constructor; eexists; reflexivity. }
  split.
  - exact H.
  - exact (@load_cli_events_returns RefLib two_line_session H).
Defined.

(** A top-level role [system] loses to the nested role [user]. *)
Lemma nested_role_wins_witness :
  @message_role RefLib
    [(lit "role", JStr (lit "system"));
     (lit "message", JDict [(lit "role", JStr (lit "user"))])] = Some RUser
  /\ @_guess_role RefLib
       (JDict [(lit "role", JStr (lit "system"));
               (lit "message", JDict [(lit "role", JStr (lit "user"))])])
     = RUser.
Proof.
  assert (H : @message_role RefLib
                [(lit "role", JStr (lit "system"));
                 (lit "message", JDict [(lit "role", JStr (lit "user"))])]
              = Some RUser).
  { vm_compute. reflexivity. }
  split.
  - exact H.
  - exact (@nested_role_wins RefLib _ RUser H).
Defined.

(** The string flag belongs to a candidate: it starts unset at the
    opening brace.  A brace inside a literal that lies outside every
    candidate therefore opens one, and here the object after the literal
    is not recovered. *)
Example brace_in_literal_outside_record :
  _extract_json_candidates_balanced
    (qlit "'{' {'text': 'aaaaaaaaaaaaaaaaaaaaaaaa'}") 200 = []
  /\ _extract_json_candidates_balanced
       (qlit "'[' {'text': 'aaaaaaaaaaaaaaaaaaaaaaaa'}") 200
     = [qlit "{'text': 'aaaaaaaaaaaaaaaaaaaaaaaa'}"].
Proof. split; vm_compute; reflexivity. Qed.

(** ** The examples of the specification *)

(** A record whose top-level role is [system] and whose nested message
    has the role [user] is classified [user]. *)
Example nested_role_example :
  option_map (@_guess_role RefLib)
    (Ref.json_loads (qlit "{'role':'system','message':{'role':'user'}}"))
  = Some RUser.
Proof. vm_compute. reflexivity. Qed.

(** A text block and a tool invocation give two lines. *)
Example message_text_example :
  option_map (@_extract_claude_message_text RefLib)
    (Ref.json_loads
       (qlit "{'content':[{'type':'text','text':'a'},{'type':'tool_use','name':'x','input':{'k':1}}]}"))
  = Some (lit "a" ++ [ch_newline] ++ qlit "[tool_use] x {'k': 1}").
Proof. vm_compute. reflexivity. Qed.

(** Seconds and milliseconds of the same instant. *)
Example timestamp_example :
  @_iso_from_ts RefLib (JInt 1700000000) = lit "2023-11-14T22:13:20"
  /\ @_iso_from_ts RefLib (JInt 1700000000000) = lit "2023-11-14T22:13:20"
  /\ @_iso_from_ts RefLib (JStr (lit " 1700000000000 ")) = lit "2023-11-14T22:13:20"
  /\ @_iso_from_ts RefLib (JStr (lit "yesterday")) = lit "yesterday"
  /\ @_iso_from_ts RefLib JNull = [].
Proof. repeat split; vm_compute; reflexivity. Qed.

(** Random bytes as an opaque-binary artifact: the notice alone. *)
Example notice_only_example :
  events (@load_desktop_events RefLib [0; 255; 17; 123; 34; 200; 125]%N)
  = [notice_event].
Proof. vm_compute. reflexivity. Qed.

(* ================================================================== *)
(** * Properties of the parts *)
(* ================================================================== *)

(** ** What [strip] leaves *)

Lemma lstrip_split (s : str) :
  exists w, s = w ++ lstrip s /\ forallb isspace w = true.
Proof.
  induction s as [|c s (w & Hs & Hw)]; [now exists []|]. cbn [lstrip].
  destruct (isspace c) eqn:Hc.
  - exists (c :: w). cbn. rewrite Hc, Hw. split; [now rewrite <- Hs|reflexivity].
  - now exists [].
Qed.

Lemma lstrip_fixed (s : str) :
  lstrip s = s <-> match s with [] => True | c :: _ => isspace c = false end.
Proof.
  destruct s as [|c s]; cbn; [tauto|].
  destruct (isspace c) eqn:Hc; split; try easy.
  intros H. pose proof (lstrip_length s) as Hl. rewrite H in Hl. cbn in Hl. lia.
Qed.

Lemma lstrip_lstrip (s : str) : lstrip (lstrip s) = lstrip s.
Proof.
  induction s as [|c s IH]; [reflexivity|]. cbn [lstrip].
  destruct (isspace c) eqn:Hc; [exact IH|]. cbn [lstrip]. now rewrite Hc.
Qed.

Lemma rstrip_split (s : str) :
  exists w, s = rstrip s ++ w /\ forallb isspace w = true.
Proof.
  unfold rstrip. destruct (lstrip_split (rev s)) as (w & Hs & Hw).
  exists (rev w). split.
  - rewrite <- rev_app_distr, <- Hs. now rewrite rev_involutive.
  - rewrite forallb_forall in *. intros x Hx. apply Hw. now apply in_rev.
Qed.

Lemma rstrip_rstrip (s : str) : rstrip (rstrip s) = rstrip s.
Proof. unfold rstrip. now rewrite rev_involutive, lstrip_lstrip. Qed.

(** [strip] leaves a string that it does not change. *)
Lemma strip_strip (s : str) : strip (strip s) = strip s.
Proof.
  unfold strip at 1.
  assert (Hl : lstrip (strip s) = strip s).
  { apply lstrip_fixed. unfold strip.
    destruct (rstrip_split (lstrip s)) as (w & Hs & _).
    destruct (rstrip (lstrip s)) as [|c t] eqn:Hr; [exact I|].
    assert (Hfix : lstrip (lstrip s) = lstrip s) by apply lstrip_lstrip.
    apply lstrip_fixed in Hfix. rewrite Hs in Hfix. exact Hfix. }
  rewrite Hl. unfold strip. apply rstrip_rstrip.
Qed.

(** [strip] cuts at both ends only. *)
Lemma strip_infix (s : str) : exists a b, s = a ++ strip s ++ b.
Proof.
  destruct (lstrip_split s) as (a & Hs & _).
  destruct (rstrip_split (lstrip s)) as (b & Hs' & _).
  exists a, b. unfold strip. now rewrite <- Hs', <- Hs.
Qed.

(** ** JSONObjectRecoverer: the candidates *)

(** Where the inner loop breaks there is a closing brace. *)
Lemma scan_balanced_closes (l : str) :
  forall d in_str esc j k,
    scan_balanced l d in_str esc j = Some k ->
    (j <= k)%nat /\ nth_error l (k - j) = Some ch_rbrace.
Proof.
  induction l as [|ch l IH]; intros d in_str esc j k H; cbn in H; [discriminate|].
  assert (Hrec : forall d' s' e',
             scan_balanced l d' s' e' (S j) = Some k ->
             (j <= k)%nat /\ nth_error (ch :: l) (k - j) = Some ch_rbrace).
  { intros d' s' e' H'. apply IH in H' as [Hle Hnth]. split; [lia|].
    replace (k - j)%nat with (S (k - S j)) by lia. exact Hnth. }
  destruct in_str.
  - destruct esc; [now apply Hrec in H|].
    destruct (ch =? ch_backslash)%N; [now apply Hrec in H|].
    destruct (ch =? ch_quote)%N; now apply Hrec in H.
  - destruct (ch =? ch_quote)%N; [now apply Hrec in H|].
    destruct (ch =? ch_lbrace)%N; [now apply Hrec in H|].
    destruct (ch =? ch_rbrace)%N eqn:Hr; [|now apply Hrec in H].
    destruct (d - 1 =? 0)%Z; [|now apply Hrec in H].
    injection H as <-. split; [lia|]. rewrite Nat.sub_diag. cbn.
    apply N.eqb_eq in Hr. now subst.
Qed.

Lemma firstn_S_nth_error (A : Type) (l : list A) :
  forall n x, nth_error l n = Some x -> firstn (S n) l = firstn n l ++ [x].
Proof.
  induction l as [|a l IH]; intros [|n] x H; cbn in H; try discriminate.
  - now injection H as <-.
  - change (a :: firstn (S n) l = a :: (firstn n l ++ [x])). f_equal.
    now apply IH.
Qed.

Lemma blocks_in_prefix (cs : list str) (p t : str) :
  blocks_in cs t -> blocks_in cs (p ++ t).
Proof.
  intros H. destruct H as [t|c cs q t H]; [constructor|].
  rewrite app_assoc. now constructor.
Qed.

Lemma candidates_loop_shape (fuel : nat) :
  forall rest limit out,
    Forall candidate_shape out ->
    (len out <= Z.max 0 limit)%Z ->
    Forall candidate_shape (candidates_loop fuel rest limit out)
    /\ (len (candidates_loop fuel rest limit out) <= Z.max 0 limit)%Z.
Proof.
  induction fuel as [|fuel IH]; intros rest limit out Hout Hlen;
    cbn [candidates_loop]; [now split|].
  destruct rest as [|ch rest']; [now split|].
  destruct (len out <? limit)%Z eqn:Hlt; [|now split].
  apply Z.ltb_lt in Hlt.
  destruct (negb (ch =? ch_lbrace)%N) eqn:Hch; [now apply IH|].
  apply negb_false_iff, N.eqb_eq in Hch. subst ch.
  destruct (scan_balanced (ch_lbrace :: rest') 0 false false 0) as [j|] eqn:Hscan;
    [|now split].
  apply scan_balanced_closes in Hscan as [_ Hnth]. rewrite Nat.sub_0_r in Hnth.
  destruct (chunk_in_bounds (firstn (S j) (ch_lbrace :: rest'))) eqn:Hb;
    [|now apply IH].
  apply IH.
  - apply Forall_app. split; [assumption|]. constructor; [|constructor].
    refine (conj _ (conj _ _)).
    + eexists. cbn [firstn]. reflexivity.
    + eexists. now apply firstn_S_nth_error.
    + unfold chunk_in_bounds in Hb. apply andb_prop in Hb as [H1 H2].
      apply Z.leb_le in H1, H2. lia.
  - rewrite len_app, len_cons, len_nil. lia.
Qed.

Lemma candidates_loop_blocks (fuel : nat) :
  forall rest limit,
    blocks_in (candidates_loop fuel rest limit []) rest.
Proof.
  induction fuel as [|fuel IH]; intros rest limit; cbn [candidates_loop];
    [constructor|].
  destruct rest as [|ch rest']; [constructor|].
  destruct (len (@nil (list N)) <? limit)%Z; [|constructor].
  destruct (negb (ch =? ch_lbrace)%N).
  { apply (@blocks_in_prefix _ [ch]). apply IH. }
  destruct (scan_balanced (ch :: rest') 0 false false 0) as [j|]; [|constructor].
  assert (Hrest : (if (0 <? j)%nat then skipn (S j) (ch :: rest') else rest')
                  = skipn (S j) (ch :: rest')).
  { destruct j; reflexivity. }
  rewrite Hrest. clear Hrest.
  pose proof (firstn_skipn (S j) (ch :: rest')) as Hsplit.
  remember (firstn (S j) (ch :: rest')) as chunk eqn:Hchunk.
  remember (skipn (S j) (ch :: rest')) as rest2 eqn:Hrest2.
  clear Hchunk Hrest2. rewrite <- Hsplit.
  destruct (chunk_in_bounds chunk).
  - rewrite candidates_loop_acc. cbn [app].
    apply (@blocks_cons _ _ []). apply IH.
  - apply blocks_in_prefix. apply IH.
Qed.

(** X1.  Every candidate of [_extract_json_candidates_balanced] runs from
    an opening brace to a closing brace and is 24 to 200000 characters
    long, and there are at most [limit] candidates (none for a limit
    below one). *)
Theorem candidates_shape_and_count (text : str) (limit : Z) :
  Forall candidate_shape (_extract_json_candidates_balanced text limit)
  /\ (len (_extract_json_candidates_balanced text limit) <= Z.max 0 limit)%Z.
Proof.
  apply candidates_loop_shape; [constructor|]. rewrite len_nil. lia.
Qed.

(** X2.  The candidates are pieces of the text itself: they lie in it one
    after the other, in the order in which they are returned, and no two
    of them overlap. *)
Theorem candidates_in_order (text : str) (limit : Z) :
  blocks_in (_extract_json_candidates_balanced text limit) text.
Proof. apply candidates_loop_blocks. Qed.

(** ** TextHarvester: the harvested strings *)

Lemma extract_text_Forall (P : str -> Prop) :
  (forall s, nonempty (strip s) = true -> P (strip s)) ->
  forall obj, Forall P (_extract_text_recursive obj).
Proof.
  intros HP obj.
  induction obj as [| b | n | f | s | items IH | d IH] using json_induction;
    cbn [_extract_text_recursive]; try constructor.
  - destruct (nonempty (strip s)) eqn:Hs; constructor; [|constructor].
    now apply HP.
  - induction IH as [|x items Hx _ IHitems]; [constructor|].
    apply Forall_app. split; assumption.
  - apply Forall_app. split.
    + generalize text_keys as ks. induction ks as [|k ks IHks]; [constructor|].
      apply Forall_app. split; [|exact IHks].
      clear IHks. induction IH as [|[k' v] d' Hv _ IHd]; [constructor|].
      destruct (str_eqb k k'); assumption.
    + induction IH as [|[k v] d' Hv _ IHd]; [constructor|].
      apply Forall_app. split; [|exact IHd].
      destruct (str_in k text_keys || str_in k skip_keys); [constructor|exact Hv].
Qed.

(** X3.  Whatever the value, every string that [_extract_text_recursive]
    returns is non-empty and has no white space at either end. *)
Theorem harvested_strings_stripped (obj : json) :
  Forall stripped (_extract_text_recursive obj).
Proof.
  apply extract_text_Forall. intros s Hs. split.
  - now apply nonempty_true.
  - apply strip_strip.
Qed.

(** The harvest of a dict: the content keys in their fixed order, then
    the other entries in the order of the dict. *)
Lemma extract_dict (d : dict) :
  _extract_text_recursive (JDict d)
  = flat_map (at_key d) text_keys ++ flat_map other_texts d.
Proof.
  cbn [_extract_text_recursive]. f_equal.
  - generalize text_keys as ks. induction ks as [|k ks IH]; [reflexivity|].
    cbn [flat_map]. rewrite <- IH. f_equal. unfold at_key. clear IH.
    induction d as [|[k' v] d IHd]; [reflexivity|]. cbn [dict_find].
    destruct (str_eqb k k'); [reflexivity|exact IHd].
  - induction d as [|[k v] d IHd]; [reflexivity|]. cbn [flat_map].
    now rewrite <- IHd.
Qed.

Lemma dict_find_without_metadata (d : dict) (k : str) :
  str_in k skip_keys = false ->
  dict_find (without_metadata d) k = dict_find d k.
Proof.
  intros Hk. induction d as [|[k' v] d IH]; [reflexivity|].
  cbn [without_metadata filter fst dict_find].
  destruct (str_in k' skip_keys) eqn:Hk'; cbn [negb].
  - destruct (str_eqb k k') eqn:E; [|exact IH].
    apply str_eqb_eq in E. congruence.
  - cbn [dict_find]. destruct (str_eqb k k'); [reflexivity|exact IH].
Qed.

(** X4.  The entries of a dict under the metadata keys ([type], [id],
    [uuid], [role], [sender], [author], [version], [updatedAt],
    [createdAt], [timestamp], [time], [ts]) give the harvest nothing: the
    harvest is that of the dict without them, whatever their values. *)
Theorem metadata_never_harvested (d : dict) :
  _extract_text_recursive (JDict d)
  = _extract_text_recursive (JDict (without_metadata d)).
Proof.
  rewrite !extract_dict. f_equal.
  - assert (H : Forall (fun k => str_in k skip_keys = false) text_keys).
    { repeat constructor. }
    induction H as [|k ks Hk _ IH]; [reflexivity|]. cbn [flat_map].
    rewrite IH. f_equal. unfold at_key. now rewrite dict_find_without_metadata.
  - unfold without_metadata. induction d as [|[k v] d IH]; [reflexivity|].
    cbn [filter fst flat_map].
    destruct (str_in k skip_keys) eqn:Hk; cbn [negb].
    + unfold other_texts at 1. cbn [fst]. rewrite Hk, orb_true_r. exact IH.
    + cbn [flat_map]. now rewrite <- IH.
Qed.

Lemma dict_find_perm (d1 d2 : dict) (k : str) :
  Permutation d1 d2 -> NoDup (map fst d1) -> dict_find d1 k = dict_find d2 k.
Proof.
  induction 1 as [| [k' v] d1 d2 _ IH | [k1 v1] [k2 v2] d
                 | d1 d2 d3 H12 IH12 H23 IH23];
    intros Hnd.
  - reflexivity.
  - cbn [dict_find]. inversion Hnd; subst. now rewrite IH.
  - cbn [dict_find]. destruct (str_eqb k k2) eqn:E2, (str_eqb k k1) eqn:E1;
      try reflexivity.
    apply str_eqb_eq in E1, E2. subst. cbn in Hnd. inversion Hnd as [|? ? Hn _].
    exfalso. apply Hn. now left.
  - rewrite IH12 by assumption. apply IH23.
    eapply Permutation_NoDup; [|exact Hnd]. now apply Permutation_map.
Qed.

(** X5.  The content keys are visited in their fixed order, not in the
    order of the dict: for a dict with distinct keys, all of them content
    or metadata keys, the harvest is the same however its entries are
    ordered. *)
Theorem text_keys_before_key_order (d1 d2 : list (list N * json)) :
  Permutation d1 d2 ->
  NoDup (map fst d1) ->
  Forall (fun kv => str_in (fst kv) text_keys || str_in (fst kv) skip_keys = true)
    d1 ->
  _extract_text_recursive (JDict d1) = _extract_text_recursive (JDict d2).
Proof.
  intros Hp Hnd Hall. rewrite !extract_dict.
  assert (Hall2 : Forall (fun kv => str_in (fst kv) text_keys
                                    || str_in (fst kv) skip_keys = true) d2).
  { rewrite Forall_forall in *. intros kv Hkv. apply Hall.
    eapply Permutation_in; [|exact Hkv]. now apply Permutation_sym. }
  assert (Hno : forall d : list (list N * json),
             Forall (fun kv => str_in (fst kv) text_keys
                               || str_in (fst kv) skip_keys = true) d ->
             flat_map other_texts d = []).
  { induction 1 as [|kv d Hkv _ IH]; [reflexivity|]. cbn [flat_map].
    unfold other_texts at 1. now rewrite Hkv, IH. }
  rewrite !Hno by assumption. f_equal.
  apply flat_map_ext. intros k. unfold at_key.
  now rewrite (@dict_find_perm d1 d2 k Hp Hnd).
Qed.

Section PartProperties.

Context {L : PyLib}.

(** ** MessageReconstructor *)

(** X6.  The text [_extract_claude_message_text] reconstructs has no white
    space at either end, whichever of its branches gives it: [strip]
    leaves it as it is. *)
Theorem message_text_stripped (message_obj : json) :
  strip (_extract_claude_message_text message_obj)
  = _extract_claude_message_text message_obj.
Proof.
  unfold _extract_claude_message_text.
  destruct message_obj as [| b | n | f | s | items | m]; try reflexivity.
  - apply strip_strip.
  - destruct (dict_get m (lit "content")) as [| b | n | f | s | items | d];
      try apply strip_strip.
    destruct (nonempty _); apply strip_strip.
Qed.

(** ** RoleClassifier *)

Lemma type_alias_not_developer (low : str) : type_alias low <> Some RDeveloper.
Proof.
  unfold type_alias.
  destruct (str_in low _); [discriminate|].
  destruct (str_in low _); [discriminate|].
  destruct (str_in low _); discriminate.
Qed.

(** X7.  The [type] of a record never makes it a [developer]: when
    [_guess_role] answers [developer], the role of the nested message or
    one of the fields [role], [sender], [author] names it. *)
Theorem developer_only_from_role_fields (d : list (list N * json)) :
  _guess_role (JDict d) = RDeveloper ->
  message_role d = Some RDeveloper
  \/ first_role d [lit "role"; lit "sender"; lit "author"] = Some RDeveloper.
Proof.
  cbn [_guess_role].
  destruct (message_role d) as [r|]; [intros ->; now left|].
  destruct (first_role d _) as [r|]; [intros ->; now right|].
  unfold type_role. destruct (dict_get d (lit "type")); try discriminate.
  destruct (type_alias (str_lower s)) as [r|] eqn:E; [|discriminate].
  intros ->. now apply type_alias_not_developer in E.
Qed.

(** ** EventNormalizer: line-delimited artifacts *)

Lemma result_map_snoc (evs : list Event) (ev : Event) (x : result (list Event)) :
  result_map (app (evs ++ [ev])) x = result_map (app evs) (result_map (cons ev) x).
Proof. destruct x as [new|e]; cbn; [now rewrite <- app_assoc|reflexivity]. Qed.

(** The loop of [load_cli_events], as a function of the records alone. *)
Lemma cli_events_loop_outcome (lines : list str) :
  forall evs n,
    (len evs < MAX_EVENTS)%Z ->
    result_map events (cli_events_loop lines evs n)
    = result_map (app evs)
        (events_of_records
           (firstn (Z.to_nat MAX_EVENTS - length evs) (parsed_records lines))).
Proof.
  induction lines as [|line rest IH]; intros evs n Hlt; cbn [cli_events_loop].
  - cbn. rewrite firstn_nil. cbn. now rewrite app_nil_r.
  - unfold parsed_records. cbn [flat_map]. fold (parsed_records rest).
    destruct (nonempty (strip line)); cbn [negb app]; [|now apply IH].
    destruct (json_loads (strip line)) as [obj|]; cbn [app]; [|now apply IH].
    unfold len in Hlt.
    destruct (Z.to_nat MAX_EVENTS - length evs)%nat as [|m] eqn:HM;
      [exfalso; lia|].
    cbn [firstn events_of_records].
    destruct (cli_event obj) as [ev|e]; [|reflexivity].
    assert (Hlen : len (evs ++ [ev]) = (len evs + 1)%Z)
      by now rewrite len_app, len_cons, len_nil.
    destruct (MAX_EVENTS <=? len (evs ++ [ev]))%Z eqn:Hcap.
    + apply Z.leb_le in Hcap. unfold len in *.
      assert (m = 0)%nat as -> by lia. cbn. reflexivity.
    + apply Z.leb_gt in Hcap. rewrite IH by assumption.
      rewrite result_map_snoc.
      replace (Z.to_nat MAX_EVENTS - length (evs ++ [ev]))%nat with m
        by (rewrite length_app; cbn [length]; lia).
      reflexivity.
Qed.

Lemma load_cli_events_outcome (lines : list str) :
  result_map events (load_cli_events lines)
  = events_of_records (read_records lines).
Proof.
  unfold load_cli_events, read_records.
  rewrite cli_events_loop_outcome by (rewrite len_nil; reflexivity).
  cbn [length]. rewrite Nat.sub_0_r.
  destruct (events_of_records _); reflexivity.
Qed.

(** X8.  What [load_cli_events] does with a file is decided by the first
    [MAX_EVENTS] records that parse, in the order of their lines: its
    events are the events of these records, one for each and in this
    order, and it raises when one of them raises.  Blank lines, lines that
    do not parse and everything after these records change neither. *)
Theorem cli_events_of_first_records (lines : list str) :
  result_map events (load_cli_events lines)
  = events_of_records (read_records lines).
Proof. exact (load_cli_events_outcome lines). Qed.

Lemma events_of_records_raises (recs : list json) :
  (exists e, events_of_records recs = Raise e)
  <-> existsb (fun obj => negb (is_dict obj)) recs = true.
Proof.
  induction recs as [|obj recs IH]; cbn [events_of_records existsb].
  - split; [intros [e H]; discriminate|discriminate].
  - destruct obj as [| b | n | f | s | items | d];
      try (cbn [cli_event is_dict negb orb]; split;
           [reflexivity|intros _; now eexists]).
    destruct (cli_event_of_dict d) as [ev ->]. cbn [is_dict negb orb].
    rewrite <- IH. destruct (events_of_records recs) as [evs|e0]; cbn; split;
      intros [e H]; try discriminate; eexists; reflexivity.
Qed.

(** X9.  [load_cli_events] raises [AttributeError] exactly when one of the
    first [MAX_EVENTS] records that parse is not an object; a value that
    is not an object after them is never reached. *)
Theorem load_cli_events_raises_iff (lines : list str) :
  load_cli_events lines = Raise AttributeError
  <-> existsb (fun obj => negb (is_dict obj)) (read_records lines) = true.
Proof.
  rewrite <- events_of_records_raises.
  pose proof (load_cli_events_outcome lines) as H.
  destruct (load_cli_events lines) as [r|[]],
           (events_of_records (read_records lines)) as [evs|e];
    cbn in H; try discriminate; split; try discriminate.
  - intros [e H']. discriminate.
  - intros _. now exists e.
  - reflexivity.
Qed.

Lemma cli_event_text (obj : json) (ev : Event) :
  (forall d, json_dumps (JDict d) <> []) ->
  cli_event obj = Ok ev -> text ev <> [].
Proof.
  intros Hd H. destruct obj as [| b | n | f | s | items | d]; try discriminate.
  unfold cli_event in H.
  assert (Hne : forall t : str,
             (if nonempty t then t else slice_to 1000 (json_dumps (JDict d))) <> []).
  { intros t. destruct (nonempty t) eqn:Ht; [now apply nonempty_true|].
    specialize (Hd d). destruct (json_dumps (JDict d)); [congruence|discriminate]. }
  destruct (json_eq_str _ (lit "user")); [injection H as <-; apply Hne|].
  destruct (json_eq_str _ (lit "assistant")); [injection H as <-; apply Hne|].
  destruct (json_eq_str _ (lit "queue-operation")); [injection H as <-; apply Hne|].
  destruct (json_eq_str _ (lit "progress")); [injection H as <-; apply Hne|].
  destruct (json_eq_str _ (lit "system")); injection H as <-; apply Hne.
Qed.

(** X10.  No event of a line-delimited artifact has an empty text: a
    record that gives no text is shown by its JSON form.  ([json.dumps]
    gives an object a text that is not empty.) *)
Theorem cli_events_have_text (lines : list str) (r : Loaded) :
  (forall d, json_dumps (JDict d) <> []) ->
  load_cli_events lines = Ok r ->
  Forall (fun ev => text ev <> []) (events r).
Proof.
  intros Hd H. apply cli_events_loop_records in H as (new & -> & Hall).
  cbn [app]. induction Hall as [|ev obj new recs Hev _ IH]; constructor.
  - exact (@cli_event_text obj ev Hd Hev).
  - exact IH.
Qed.

(** ** The objects of a text *)

Lemma objects_loop_spec (chunks : list str) :
  forall limit seen objs (P : json -> Prop),
    (forall chunk d, In chunk chunks -> has_content_marker chunk = true ->
                     json_loads chunk = Some (JDict d) -> P (JDict d)) ->
    Forall P objs ->
    (len objs < Z.max 1 limit)%Z ->
    Forall P (objects_loop chunks limit seen objs)
    /\ (len (objects_loop chunks limit seen objs) <= Z.max 1 limit)%Z.
Proof.
  induction chunks as [|chunk rest IH]; intros limit seen objs P HP Hobjs Hlt;
    cbn [objects_loop].
  - split; [assumption|lia].
  - assert (HP' : forall chunk0 d, In chunk0 rest ->
                    has_content_marker chunk0 = true ->
                    json_loads chunk0 = Some (JDict d) -> P (JDict d)).
    { intros c d Hin. apply HP. now right. }
    destruct (has_content_marker chunk) eqn:Hmark; cbn [negb]; [|now apply IH].
    destruct (str_in (slice_to 400 chunk) seen); [now apply IH|].
    destruct (json_loads chunk) as [[| b | n | f | s | items | d]|] eqn:Hparse;
      try now apply IH.
    assert (Hobjs' : Forall P (objs ++ [JDict d])).
    { apply Forall_app. split; [assumption|]. constructor; [|constructor].
      apply (HP chunk d); [now left|assumption|assumption]. }
    assert (Hlen : len (objs ++ [JDict d]) = (len objs + 1)%Z)
      by now rewrite len_app, len_cons, len_nil.
    destruct (limit <=? len (objs ++ [JDict d]))%Z eqn:Hcap.
    + split; [assumption|lia].
    + apply Z.leb_gt in Hcap. apply IH; try assumption. lia.
Qed.

(** X11.  Every object [_extract_json_objects_from_text] returns is a
    dict, and is what [json.loads] makes of a balanced candidate of the
    text that holds one of the content markers; at most [limit] objects
    are returned (one, for a limit below one). *)
Theorem objects_from_marked_candidates (text : str) (limit : Z) :
  let objs := _extract_json_objects_from_text text limit in
  Forall (fun obj =>
            is_dict obj = true
            /\ exists chunk,
                 In chunk (_extract_json_candidates_balanced text (limit * 6))
                 /\ has_content_marker chunk = true
                 /\ json_loads chunk = Some obj) objs
  /\ (len objs <= Z.max 1 limit)%Z.
Proof.
  cbn zeta. unfold _extract_json_objects_from_text.
  apply objects_loop_spec.
  - intros chunk d Hin Hmark Hparse. split; [reflexivity|]. now exists chunk.
  - constructor.
  - rewrite len_nil. lia.
Qed.

(** ** Readable snippets *)

Lemma take_run_readable (n : nat) :
  forall s, forallb readable (fst (take_run n s)) = true.
Proof.
  induction n as [|n IH]; intros s; cbn; [now destruct s|].
  destruct s as [|c s]; [reflexivity|].
  destruct (readable c) eqn:Hc; [|reflexivity].
  specialize (IH s). destruct (take_run n s) as [m rest]. cbn in *.
  now rewrite Hc.
Qed.

Lemma finditer_runs_readable (fuel : nat) :
  forall s, Forall (fun m => (length m <= 300)%nat /\ forallb readable m = true)
              (finditer_runs fuel s).
Proof.
  induction fuel as [|fuel IH]; intros s; cbn [finditer_runs]; [constructor|].
  destruct s as [|c s]; [constructor|].
  pose proof (take_run_length 300 (c :: s)) as Hlen.
  pose proof (take_run_readable 300 (c :: s)) as Hr.
  destruct (take_run 300 (c :: s)) as [m rest]. cbn [fst] in Hlen, Hr.
  destruct (24 <=? len m)%Z; [|apply IH].
  constructor; [now split|apply IH].
Qed.

Lemma strip_readable (m : str) :
  forallb readable m = true -> forallb readable (strip m) = true.
Proof.
  intros H. destruct (strip_infix m) as (a & b & Hm). rewrite Hm in H.
  rewrite !forallb_app in H. apply andb_prop in H as [_ H].
  now apply andb_prop in H as [H _].
Qed.

Lemma snippet_matches_inv (ms : list str) :
  forall limit seen snippets,
    Forall (fun m => (length m <= 300)%nat /\ forallb readable m = true) ms ->
    snippets_inv seen snippets ->
    (len snippets < Z.max 1 limit)%Z ->
    let r := snippet_matches ms limit seen snippets in
    snippets_inv (fst (fst r)) (snd (fst r))
    /\ (len (snd (fst r)) <= Z.max 1 limit)%Z
    /\ (snd r = false -> (len (snd (fst r)) < Z.max 1 limit)%Z).
Proof.
  induction ms as [|m rest IH]; intros limit seen snippets Hms Hinv Hlt;
    cbn [snippet_matches].
  - cbn [fst snd]. refine (conj Hinv (conj _ _)); [lia|now intros _].
  - inversion Hms as [|? ? [Hm Hr] Hrest]; subst.
    destruct (len (strip m) <? 24)%Z eqn:H24; [now apply IH|].
    destruct (contains (lit "IndexedDB") (strip m)
              || contains (lit "LEVELDB") (strip m)) eqn:Hmark; [now apply IH|].
    destruct (str_in (slice_to 160 (strip m)) seen) eqn:Hseen; [now apply IH|].
    destruct Hinv as (Hs & Hnd & Hall).
    assert (Hinv' : snippets_inv (slice_to 160 (strip m) :: seen)
                      (snippets ++ [strip m])).
    { refine (conj _ (conj _ _)).
      - intros k. rewrite str_in_cons, map_app, in_app_iff, Hs. cbn [map In].
        unfold snippet_key. intuition congruence.
      - rewrite map_app. cbn [map]. apply NoDup_snoc; [assumption|].
        intros Hc. apply Hs in Hc. unfold snippet_key in Hc. congruence.
      - apply Forall_app. split; [assumption|]. constructor; [|constructor].
        apply orb_false_elim in Hmark as [Hm1 Hm2]. apply Z.ltb_ge in H24.
        refine (conj _ (conj _ (conj _ (conj Hm1 Hm2)))).
        + pose proof (strip_length m). unfold len in *. lia.
        + now apply strip_readable.
        + apply strip_strip. }
    assert (Hlen : len (snippets ++ [strip m]) = (len snippets + 1)%Z)
      by now rewrite len_app, len_cons, len_nil.
    destruct (limit <=? len (snippets ++ [strip m]))%Z eqn:Hcap.
    + cbn [fst snd]. refine (conj Hinv' (conj _ _)); [lia|discriminate].
    + apply Z.leb_gt in Hcap. apply IH; try assumption. lia.
Qed.

Lemma snippet_texts_inv (texts : list str) :
  forall limit seen snippets,
    snippets_inv seen snippets ->
    (len snippets < Z.max 1 limit)%Z ->
    (exists seen', snippets_inv seen' (snippet_texts texts limit seen snippets))
    /\ (len (snippet_texts texts limit seen snippets) <= Z.max 1 limit)%Z.
Proof.
  induction texts as [|text rest IH]; intros limit seen snippets Hinv Hlt;
    cbn [snippet_texts].
  - split; [now exists seen|lia].
  - destruct (nonempty text); cbn [negb]; [|now apply IH].
    pose proof (@snippet_matches_inv (finditer text) limit seen snippets
                  (finditer_runs_readable _ _) Hinv Hlt) as (Hinv' & Hle & Hmore).
    destruct (snippet_matches (finditer text) limit seen snippets)
      as [[seen' snippets'] returned].
    cbn [fst snd] in *. destruct returned.
    + split; [now exists seen'|assumption].
    + apply IH; [assumption|now apply Hmore].
Qed.

Lemma snippets_of_bytes_spec (raw : bytes) (limit : Z) :
  Forall snippet_shape (_extract_readable_snippets raw limit)
  /\ NoDup (map snippet_key (_extract_readable_snippets raw limit))
  /\ (len (_extract_readable_snippets raw limit) <= Z.max 1 limit)%Z.
Proof.
  unfold _extract_readable_snippets.
  destruct (@snippet_texts_inv (decodings raw) limit [] []) as [[seen' Hinv] Hlen].
  - refine (conj _ (conj _ _)); [|constructor|constructor].
    intros k. cbn. split; [discriminate|intros []].
  - rewrite len_nil. lia.
  - destruct Hinv as (_ & Hnd & Hall). tauto.
Qed.

(** X12.  Every snippet of [_extract_readable_snippets] is 24 to 300
    readable characters long, has no white space at either end and holds
    neither [IndexedDB] nor [LEVELDB]; no two snippets begin with the same
    160 characters; and there are at most [limit] of them (one, for a
    limit below one). *)
Theorem readable_snippets_shape (raw : bytes) (limit : Z) :
  let snippets := _extract_readable_snippets raw limit in
  Forall snippet_shape snippets
  /\ NoDup (map (slice_to 160) snippets)
  /\ (len snippets <= Z.max 1 limit)%Z.
Proof. exact (snippets_of_bytes_spec raw limit). Qed.

(** ** EventNormalizer: opaque-binary artifacts *)

(** X13.  What is read of an opaque-binary artifact is its first
    [MAX_DESKTOP_SCAN_BYTES] bytes, and the whole of a shorter file: the
    lower bound of 256 KiB in the size asked for changes nothing. *)
Theorem desktop_read_at_most_cap (content : bytes) :
  desktop_read content = slice_to MAX_DESKTOP_SCAN_BYTES content.
Proof.
  unfold desktop_read, slice_to.
  destruct (Z.le_gt_cases (len content) MAX_DESKTOP_SCAN_BYTES) as [H|H].
  - rewrite !firstn_all2; [reflexivity| |]; unfold len in *; lia.
  - f_equal. f_equal. unfold MAX_DESKTOP_SCAN_BYTES in *. lia.
Qed.

Lemma desktop_object_events_ok (obj : json) :
  Forall snippet_event_ok (desktop_object_events obj)
  /\ (length (desktop_object_events obj) <= 1)%nat.
Proof.
  unfold desktop_object_events.
  destruct (nonempty (strip (join [ch_newline] (_extract_text_recursive obj))))
    eqn:Hne; cbn [negb]; [|split; [constructor|cbn; lia]].
  split; [|cbn; lia]. constructor; [|constructor]. split; [reflexivity|].
  cbn [text]. split; [|now apply len_slice_to].
  destruct (strip (join [ch_newline] (_extract_text_recursive obj)));
    [discriminate|].
  unfold len, slice_to. rewrite length_firstn. cbn [length]. lia.
Qed.

Lemma flat_map_object_events (objs : list json) :
  Forall snippet_event_ok (flat_map desktop_object_events objs)
  /\ (len (flat_map desktop_object_events objs) <= len objs)%Z.
Proof.
  induction objs as [|obj objs [IH1 IH2]]; [split; [constructor|reflexivity]|].
  cbn [flat_map]. destruct (desktop_object_events_ok obj) as [H1 H2]. split.
  - apply Forall_app. now split.
  - rewrite len_app, len_cons. unfold len in *. lia.
Qed.

Lemma objects_from_bytes_count (raw : bytes) (limit : Z) :
  (len (_extract_json_objects_from_bytes raw limit) <= Z.max 1 limit)%Z.
Proof.
  unfold _extract_json_objects_from_bytes.
  destruct (@merge_texts_spec _ limit (decodings raw) [] [])
    as (new & Hm & _ & _ & Hlen & _).
  - intros s. cbn. split; [discriminate|intros []].
  - constructor.
  - rewrite len_nil. lia.
  - now rewrite Hm.
Qed.

(** The events of [load_desktop_events] after the notice, before the cut
    at [MAX_EVENTS]. *)
Lemma desktop_events_ok (content : bytes) :
  let evs :=
    if nonempty (_extract_json_objects_from_bytes (desktop_read content) MAX_EVENTS)
    then flat_map desktop_object_events
           (_extract_json_objects_from_bytes (desktop_read content) MAX_EVENTS)
    else map snippet_event (_extract_readable_snippets (desktop_read content) 800) in
  Forall snippet_event_ok evs /\ (len evs <= MAX_EVENTS)%Z.
Proof.
  cbn zeta. destruct (nonempty _).
  - destruct (flat_map_object_events
                (_extract_json_objects_from_bytes (desktop_read content) MAX_EVENTS))
      as [H1 H2].
    split; [assumption|].
    pose proof (objects_from_bytes_count (desktop_read content) MAX_EVENTS) as Hlen.
    change (Z.max 1 MAX_EVENTS) with MAX_EVENTS in Hlen. lia.
  - destruct (snippets_of_bytes_spec (desktop_read content) 800) as (Hall & _ & Hlen).
    split.
    + apply Forall_map. eapply Forall_impl; [|exact Hall].
      intros s (Hs & _). split; [reflexivity|]. cbn [snippet_event text]. lia.
    + unfold len in *. rewrite length_map. unfold MAX_EVENTS. lia.
Qed.

(** X14.  After the notice, every event of an opaque-binary artifact is
    of kind [snippet] and has a text of 1 to 4000 characters, whether it
    comes from a recovered object or from a readable run. *)
Theorem desktop_events_are_snippets (content : bytes) :
  Forall snippet_event_ok (tl (events (load_desktop_events content))).
Proof.
  unfold load_desktop_events. cbn [events]. unfold slice_to.
  rewrite MAX_EVENTS_succ. cbn [firstn tl].
  destruct (desktop_events_ok content) as [H _].
  now apply (@Forall_slice_to _ _ (MAX_EVENTS - 1)).
Qed.

(** X15.  For an opaque-binary artifact [raw_line_count] counts the
    notice and the events found, before the cut at [MAX_EVENTS]: it lies
    between 1 and [MAX_EVENTS + 1], and the number of events returned is
    the smaller of it and [MAX_EVENTS].  At [MAX_EVENTS] recovered events
    the last one is cut and only counted. *)
Theorem desktop_raw_line_count (content : bytes) :
  let r := load_desktop_events content in
  len (events r) = Z.min MAX_EVENTS (raw_line_count r)
  /\ (1 <= raw_line_count r <= MAX_EVENTS + 1)%Z.
Proof.
  cbn zeta. unfold load_desktop_events. cbn [events raw_line_count].
  destruct (desktop_events_ok content) as [_ H]. cbn zeta in H.
  set (evs := if nonempty _ then _ else _) in *.
  rewrite len_cons. pose proof (len_nonneg evs). split; [|lia].
  unfold len, slice_to. rewrite length_firstn. cbn [length].
  unfold len, MAX_EVENTS in *. lia.
Qed.

(** ** SessionSummarizer: texts on one line *)

Lemma one_line_nil : one_line [].
Proof. intros []. Qed.

Lemma one_line_slice (n : Z) (s : str) : one_line s -> one_line (slice_to n s).
Proof.
  intros H Hin. apply H. unfold slice_to in Hin.
  rewrite <- (firstn_skipn (Z.to_nat n) s). apply in_or_app. now left.
Qed.

Lemma one_line_preview (n : Z) (t : str) : one_line (preview n t).
Proof.
  apply one_line_slice. unfold replace_newlines. intros Hin.
  apply in_map_iff in Hin as (c & Hc & _).
  destruct (c =? ch_newline)%N eqn:E; [discriminate|].
  apply N.eqb_neq in E. congruence.
Qed.

Lemma one_line_join (parts : list str) :
  Forall one_line parts -> one_line (join [ch_space] parts).
Proof.
  induction 1 as [|p parts Hp _ IH]; [exact one_line_nil|].
  cbn [join]. destruct parts as [|q parts]; [assumption|].
  intros Hin. apply in_app_or in Hin as [Hin|Hin]; [now apply Hp|].
  apply in_app_or in Hin as [[Hin|[]]|Hin]; [discriminate|now apply IH].
Qed.

Lemma one_line_readable (s : str) : forallb readable s = true -> one_line s.
Proof.
  intros H Hin. rewrite forallb_forall in H. apply H in Hin. discriminate.
Qed.

Lemma one_line_hd (texts : list str) :
  Forall one_line texts -> one_line (hd [] texts).
Proof. intros [|t ts Ht _]; [exact one_line_nil|exact Ht]. Qed.

Lemma cli_summary_step_one_line (st : CliState) (obj : json) :
  summary_state_ok (st_first_user_text st) (search_chunks st) ->
  summary_state_ok (st_first_user_text (cli_summary_step st obj))
    (search_chunks (cli_summary_step st obj)).
Proof.
  intros (H1 & H2 & H3). unfold cli_summary_step.
  cbn [st_first_user_text search_chunks]. refine (conj _ (conj _ _)).
  - destruct (_ && _ && _); [apply one_line_preview|assumption].
  - destruct (_ && _ && _); [now apply len_preview|assumption].
  - destruct (_ && _); [|assumption]. apply Forall_app. split; [assumption|].
    constructor; [apply one_line_preview|constructor].
Qed.

Lemma cli_summary_loop_one_line (lines : list str) :
  forall st,
    summary_state_ok (st_first_user_text st) (search_chunks st) ->
    summary_state_ok (st_first_user_text (cli_summary_loop lines st))
      (search_chunks (cli_summary_loop lines st)).
Proof.
  induction lines as [|line rest IH]; intros st Hst; cbn [cli_summary_loop];
    [assumption|].
  destruct (_is_probably_textual_json_line line); cbn [negb]; [|now apply IH].
  destruct (json_loads line) as [obj|]; [|now apply IH].
  pose proof (@cli_summary_step_one_line st obj Hst) as Hstep.
  destruct (cli_summary_done _); [assumption|now apply IH].
Qed.

Lemma desktop_summary_loop_one_line (objs : list json) :
  forall started first_user texts,
    summary_state_ok first_user texts ->
    summary_state_ok
      (snd (fst (desktop_summary_loop objs started first_user texts)))
      (snd (desktop_summary_loop objs started first_user texts)).
Proof.
  induction objs as [|obj rest IH]; intros started first_user texts Hst;
    cbn [desktop_summary_loop]; [assumption|].
  destruct (nonempty (_extract_text_recursive obj)); [|now apply IH].
  apply IH. destruct Hst as (H1 & H2 & H3). refine (conj _ (conj _ _)).
  - destruct (_ && _); [apply one_line_preview|assumption].
  - destruct (_ && _); [now apply len_preview|assumption].
  - apply Forall_app. split; [assumption|].
    constructor; [apply one_line_preview|constructor].
Qed.

(** X16.  The two texts of a summary that the list of sessions shows and
    searches, [first_user_text] and [search_text], never hold a newline,
    for either kind of artifact, and [first_user_text] is at most 180
    characters long. *)
Theorem summary_texts_on_one_line (a : Artifact) :
  one_line (first_user_text (summarize_session a))
  /\ one_line (search_text (summarize_session a))
  /\ (len (first_user_text (summarize_session a)) <= 180)%Z.
Proof.
  destruct a as [lines|content]; cbn [summarize_session].
  - unfold summarize_cli_session. cbn [first_user_text search_text].
    match goal with |- context [cli_summary_loop lines ?st0] =>
      destruct (@cli_summary_loop_one_line lines st0) as (H1 & H2 & H3) end.
    { cbn. refine (conj one_line_nil (conj _ _));
        [rewrite len_nil; lia|constructor]. }
    refine (conj H1 (conj _ H2)). now apply one_line_join.
  - unfold summarize_desktop_blob.
    destruct (nonempty (_extract_json_objects_from_bytes _ 40)).
    + match goal with |- context [desktop_summary_loop ?objs [] [] []] =>
        pose proof (@desktop_summary_loop_one_line objs [] [] []) as H;
        destruct (desktop_summary_loop objs [] [] []) as [[started first_user] texts]
      end.
      cbn [fst snd first_user_text search_text] in *.
      destruct H as (H1 & H2 & H3).
      { refine (conj one_line_nil (conj _ _));
          [rewrite len_nil; lia|constructor]. }
      refine (conj _ (conj _ _)).
      * destruct (_ && _); [|assumption].
        apply one_line_slice. now apply one_line_hd.
      * apply one_line_join. now apply Forall_slice_to.
      * destruct (_ && _); [now apply len_slice_to|assumption].
    + cbn [first_user_text search_text].
      destruct (snippets_of_bytes_spec (desktop_read content) 10) as (Hall & _ & _).
      assert (Hlines : Forall one_line
                         (_extract_readable_snippets (desktop_read content) 10)).
      { eapply Forall_impl; [|exact Hall]. intros s (_ & Hr & _).
        now apply one_line_readable. }
      refine (conj _ (conj _ _)).
      * destruct (nonempty _); [|exact one_line_nil].
        apply one_line_slice. now apply one_line_hd.
      * now apply one_line_join.
      * destruct (nonempty _); [now apply len_slice_to|rewrite len_nil; lia].
Qed.

(** ** Files that grow *)

Lemma parsed_records_app (l1 l2 : list str) :
  parsed_records (l1 ++ l2) = parsed_records l1 ++ parsed_records l2.
Proof. unfold parsed_records. apply flat_map_app. Qed.

Lemma events_of_records_app (a b : list json) :
  events_of_records (a ++ b)
  = match events_of_records a with
    | Raise e => Raise e
    | Ok evs => result_map (app evs) (events_of_records b)
    end.
Proof.
  induction a as [|obj a IH]; cbn [app events_of_records].
  - destruct (events_of_records b); reflexivity.
  - destruct (cli_event obj) as [ev|e]; [|reflexivity]. rewrite IH.
    destruct (events_of_records a) as [evs|e]; [|reflexivity]. cbn.
    destruct (events_of_records b); reflexivity.
Qed.

(** X26.  Lines added at the end of a line-delimited artifact leave the
    events already there as they are: when [load_cli_events] raises on
    the file it raises on the longer file, and when it returns on both,
    the events of the longer file begin with those of the file. *)
Theorem cli_events_grow_by_appending (lines more : list str) :
  match load_cli_events lines with
  | Raise e => load_cli_events (lines ++ more) = Raise e
  | Ok r =>
      match load_cli_events (lines ++ more) with
      | Ok r' => exists evs, events r' = events r ++ evs
      | Raise _ => True
      end
  end.
Proof.
  pose proof (load_cli_events_outcome lines) as H1.
  pose proof (load_cli_events_outcome (lines ++ more)) as H2.
  unfold read_records in *. rewrite parsed_records_app, firstn_app in H2.
  rewrite events_of_records_app in H2.
  destruct (load_cli_events lines) as [r|e]; cbn [result_map] in H1.
  - rewrite <- H1 in H2.
    destruct (load_cli_events (lines ++ more)) as [r'|e']; [|exact I].
    cbn [result_map] in H2.
    destruct (events_of_records (firstn _ (parsed_records more))) as [evs|e];
      [|discriminate].
    cbn in H2. exists evs. congruence.
  - rewrite <- H1 in H2. destruct (load_cli_events (lines ++ more)) as [r'|e'];
      [discriminate|]. cbn in H2. congruence.
Qed.

Lemma keeps_refl (s : str) : keeps s s.
Proof. now right. Qed.

Lemma keeps_trans (a b c : str) : keeps a b -> keeps b c -> keeps a c.
Proof.
  intros [->|Hab] [Hb|Hbc]; try (now left).
  - subst. now left.
  - right. congruence.
Qed.

Lemma state_keeps_refl (st : CliState) : state_keeps st st.
Proof. repeat split; apply keeps_refl. Qed.

Lemma state_keeps_trans (a b c : CliState) :
  state_keeps a b -> state_keeps b c -> state_keeps a c.
Proof.
  intros (H1 & H2 & H3 & H4) (G1 & G2 & G3 & G4).
  repeat split; eapply keeps_trans; eassumption.
Qed.

Lemma cli_summary_step_keeps (st : CliState) (obj : json) :
  state_keeps st (cli_summary_step st obj).
Proof.
  unfold cli_summary_step, state_keeps.
  cbn [st_started_at st_model st_cwd st_first_user_text].
  refine (conj _ (conj _ (conj _ _))).
  - destruct (st_started_at st); [now left|now right].
  - destruct (st_model st); [now left|now right].
  - destruct (st_cwd st); [now left|now right].
  - destruct (st_first_user_text st); [now left|right].
    cbn [nonempty negb]. now rewrite andb_false_r.
Qed.

Lemma cli_summary_loop_keeps (lines : list str) :
  forall st, state_keeps st (cli_summary_loop lines st).
Proof.
  induction lines as [|line rest IH]; intros st; cbn [cli_summary_loop];
    [apply state_keeps_refl|].
  destruct (_is_probably_textual_json_line line); cbn [negb]; [|apply IH].
  destruct (json_loads line) as [obj|]; [|apply IH].
  destruct (cli_summary_done _); [apply cli_summary_step_keeps|].
  eapply state_keeps_trans; [apply cli_summary_step_keeps|apply IH].
Qed.

(** The loop over a longer file stops where it stopped, or goes on from
    the state it reached. *)
Lemma cli_summary_loop_app (l1 l2 : list str) :
  forall st,
    cli_summary_loop (l1 ++ l2) st = cli_summary_loop l1 st
    \/ cli_summary_loop (l1 ++ l2) st
       = cli_summary_loop l2 (cli_summary_loop l1 st).
Proof.
  induction l1 as [|line rest IH]; intros st; cbn [app cli_summary_loop];
    [now right|].
  destruct (_is_probably_textual_json_line line); cbn [negb]; [|apply IH].
  destruct (json_loads line) as [obj|]; [|apply IH].
  destruct (cli_summary_done _); [now left|apply IH].
Qed.

(** X27.  Lines added at the end of a line-delimited artifact never
    change a field of its summary that was set: [started_at], [model],
    [cwd] and [first_user_text] of the longer file are those of the file
    wherever these are not empty. *)
Theorem summary_fields_first_win (lines more : list str) :
  let s := summarize_cli_session lines in
  let s' := summarize_cli_session (lines ++ more) in
  keeps (started_at s) (started_at s')
  /\ keeps (model s) (model s')
  /\ keeps (cwd s) (cwd s')
  /\ keeps (first_user_text s) (first_user_text s').
Proof.
  cbn zeta. unfold summarize_cli_session.
  cbn [started_at model cwd first_user_text].
  match goal with |- context [cli_summary_loop lines ?st0] =>
    destruct (cli_summary_loop_app lines more st0) as [-> | ->];
    [repeat split; apply keeps_refl|];
    destruct (cli_summary_loop_keeps more (cli_summary_loop lines st0))
      as (H1 & H2 & H3 & H4)
  end.
  tauto.
Qed.

(** ** TimestampNormalizer: timestamps that are texts *)

Lemma int_of_digits_not_digit (s : str) :
  forall acc c, In c s -> decimal_digit c = None -> int_of_digits s acc = None.
Proof.
  induction s as [|x s IH]; intros acc c Hin Hc; [destruct Hin|].
  cbn [int_of_digits]. destruct Hin as [<-|Hin]; [now rewrite Hc|].
  destruct (decimal_digit x); [|reflexivity]. now apply (IH _ c).
Qed.

(** X28.  A timestamp that is a text with a character other than a digit
    left after stripping, such as an ISO 8601 instant, is returned as it
    is, without the white space around it, whatever its length. *)
Theorem iso_text_passes_through (ts : str) (c : char) :
  In c (strip ts) -> decimal_digit c = None ->
  _iso_from_ts (JStr ts) = strip ts.
Proof.
  intros Hin Hc. unfold _iso_from_ts.
  destruct (strip ts) as [|x s] eqn:Hs; [destruct Hin|]. cbn [nonempty negb].
  unfold fullmatch_digits_10_16.
  destruct (_ && _); [|reflexivity].
  now rewrite (@int_of_digits_not_digit (x :: s) 0%Z c Hin Hc).
Qed.

End PartProperties.

(* ================================================================== *)
(** * Properties of the path lists and of the path labels *)
(* ================================================================== *)

(** ** [_unique_paths] *)

Section Paths.

Variable P : Type.
Variable key : P -> str.

Lemma unique_paths_loop_acc (paths : list P) :
  forall seen out,
    unique_paths_loop key paths seen out
    = out ++ unique_paths_loop key paths seen [].
Proof.
  induction paths as [|p rest IH]; intros seen out; cbn [unique_paths_loop].
  - now rewrite app_nil_r.
  - destruct (str_in (key p) seen); [apply IH|].
    rewrite IH, (IH _ ([] ++ [p])). now rewrite <- app_assoc.
Qed.

Lemma unique_paths_loop_spec (paths : list P) :
  forall seen,
    let new := unique_paths_loop key paths seen [] in
    keeps_order new paths
    /\ NoDup (map key new)
    /\ (forall p, In p new -> str_in (key p) seen = false)
    /\ (forall p, In p paths ->
                  str_in (key p) seen = true \/ In (key p) (map key new)).
Proof.
  induction paths as [|p rest IH]; intros seen; cbn [unique_paths_loop].
  - refine (conj (keeps_nil P) (conj (NoDup_nil _) (conj _ _))); intros p [].
  - destruct (str_in (key p) seen) eqn:Hseen.
    + destruct (IH seen) as (H1 & H2 & H3 & H4).
      refine (conj (keeps_drop p H1) (conj H2 (conj H3 _))).
      intros q [<-|Hq]; [now left|now apply H4].
    + rewrite unique_paths_loop_acc. cbn [app].
      destruct (IH (key p :: seen)) as (H1 & H2 & H3 & H4).
      refine (conj (keeps_take p H1) (conj _ (conj _ _))).
      * cbn [map]. constructor; [|assumption].
        intros Hin. apply in_map_iff in Hin as (q & Hk & Hq).
        apply H3 in Hq. rewrite <- Hk in Hq.
        assert (Ht : str_in (key q) (key q :: seen) = true)
          by (apply str_in_cons; now left).
        congruence.
      * intros q [<-|Hq]; [assumption|].
        apply H3 in Hq. destruct (str_in (key q) seen) eqn:E; [|reflexivity].
        assert (Ht : str_in (key q) (key p :: seen) = true)
          by (apply str_in_cons; now right).
        congruence.
      * intros q [<-|Hq]; [right; now left|].
        destruct (H4 q Hq) as [Hs|Hin]; [|right; now right].
        apply str_in_cons in Hs as [Hs|Hs]; [right; left; congruence|now left].
Qed.

(** X17.  [_unique_paths] returns the paths it is given with some left
    out, in their order; no two of the paths returned have the same
    string form; and every path given has the string form of one
    returned. *)
Theorem unique_paths_one_per_key (paths : list P) :
  let out := _unique_paths key paths in
  keeps_order out paths
  /\ NoDup (map key out)
  /\ (forall p, In p paths -> In (key p) (map key out)).
Proof.
  destruct (unique_paths_loop_spec paths []) as (H1 & H2 & _ & H4).
  refine (conj H1 (conj H2 _)). intros p Hp.
  destruct (H4 p Hp) as [Hs|Hin]; [discriminate|exact Hin].
Qed.

Lemma unique_paths_loop_distinct (paths : list P) :
  forall seen,
    NoDup (map key paths) ->
    (forall p, In p paths -> str_in (key p) seen = false) ->
    unique_paths_loop key paths seen [] = paths.
Proof.
  induction paths as [|p rest IH]; intros seen Hnd Hseen; cbn [unique_paths_loop];
    [reflexivity|].
  rewrite (Hseen p) by now left.
  rewrite unique_paths_loop_acc. cbn [app]. f_equal.
  cbn [map] in Hnd. inversion Hnd as [|? ? Hp Hrest]; subst.
  apply IH; [assumption|]. intros q Hq.
  destruct (str_in (key q) (key p :: seen)) eqn:E; [|reflexivity].
  apply str_in_cons in E as [E|E].
  - exfalso. apply Hp. rewrite <- E. now apply in_map.
  - rewrite Hseen in E by now right. discriminate.
Qed.

(** X18.  [_unique_paths] leaves a list unchanged exactly when no two of
    its paths have the same string form; so it changes nothing when it is
    applied a second time. *)
Theorem unique_paths_fixed_point (paths : list P) :
  (_unique_paths key paths = paths <-> NoDup (map key paths))
  /\ _unique_paths key (_unique_paths key paths) = _unique_paths key paths.
Proof.
  assert (Hfix : forall l, NoDup (map key l) -> _unique_paths key l = l).
  { intros l Hnd. now apply unique_paths_loop_distinct. }
  destruct (unique_paths_loop_spec paths []) as (_ & Hnd & _).
  split; [split|].
  - intros <-. exact Hnd.
  - apply Hfix.
  - now apply Hfix.
Qed.

End Paths.

(** ** The characters of a label *)

Lemma has_char_In (c : char) (s : str) : has_char c s = true <-> In c s.
Proof.
  unfold has_char. rewrite existsb_exists. split.
  - intros (x & Hx & E). apply N.eqb_eq in E. now subst.
  - intros H. exists c. split; [assumption|apply N.eqb_refl].
Qed.

Lemma has_char_false (c : char) (s : str) : has_char c s = false <-> ~ In c s.
Proof.
  rewrite <- has_char_In. destruct (has_char c s); split; intros H;
    try reflexivity; try discriminate.
  now elim H.
Qed.

Lemma has_char_cons (c x : char) (s : str) :
  has_char c (x :: s) = (c =? x)%N || has_char c s.
Proof. reflexivity. Qed.

Lemma has_char_app (c : char) (a b : str) :
  has_char c (a ++ b) = has_char c a || has_char c b.
Proof. apply existsb_app. Qed.

Lemma has_char_repeat (c x : char) (n : nat) :
  c <> x -> has_char c (repeat x n) = false.
Proof.
  intros Hc. induction n as [|n IH]; [reflexivity|]. cbn [repeat].
  rewrite has_char_cons, IH, orb_false_r. now apply N.eqb_neq.
Qed.

Lemma join_cons (sep p q : str) (rest : list str) :
  join sep (p :: q :: rest) = p ++ sep ++ join sep (q :: rest).
Proof. reflexivity. Qed.

Lemma starts_with_app (p s : str) : starts_with p (p ++ s) = true.
Proof.
  induction p as [|x p IH]; [reflexivity|]. cbn. now rewrite N.eqb_refl.
Qed.

Lemma replace_char_free (a b : char) (s : str) :
  a <> b -> ~ In a (replace_char a b s).
Proof.
  intros Hab Hin. apply in_map_iff in Hin as (c & Hc & _).
  destruct (c =? a)%N eqn:E; [congruence|]. apply N.eqb_neq in E. congruence.
Qed.

Lemma replace_char_absent (a b : char) (s : str) :
  has_char a s = false -> replace_char a b s = s.
Proof.
  induction s as [|c s IH]; [reflexivity|]. rewrite has_char_cons.
  intros H. apply orb_false_elim in H as [Hc Hs]. cbn [replace_char map].
  rewrite N.eqb_sym in Hc. rewrite Hc. unfold replace_char in IH.
  now rewrite (IH Hs).
Qed.

Lemma split_chars (sep : char) (s : str) :
  forall p c, In p (split sep s) -> In c p -> In c s.
Proof.
  induction s as [|x s IH]; intros p c Hp Hc; cbn [split] in Hp.
  - destruct Hp as [<-|[]]. destruct Hc.
  - destruct (x =? sep)%N.
    + destruct Hp as [<-|Hp]; [destruct Hc|]. right. now apply (IH p).
    + destruct (split sep s) as [|q qs] eqn:E.
      * destruct Hp as [<-|[]]. destruct Hc as [<-|[]]. now left.
      * destruct Hp as [<-|Hp].
        -- destruct Hc as [<-|Hc]; [now left|]. right.
           apply (IH q); [now left|assumption].
        -- right. apply (IH p); [now right|assumption].
Qed.

Lemma join_chars (sep : str) (parts : list str) (c : char) :
  In c (join sep parts) -> In c sep \/ exists p, In p parts /\ In c p.
Proof.
  induction parts as [|p parts IH]; cbn [join]; [intros []|].
  destruct parts as [|q parts].
  - intros H. right. exists p. split; [now left|assumption].
  - intros H. apply in_app_or in H as [H|H].
    + right. exists p. split; [now left|assumption].
    + apply in_app_or in H as [H|H]; [now left|].
      destruct (IH H) as [Hs|(r & Hr & Hc)]; [now left|].
      right. exists r. split; [now right|assumption].
Qed.

Lemma In_skipn (A : Type) (n : nat) (l : list A) (x : A) :
  In x (skipn n l) -> In x l.
Proof.
  intros H. rewrite <- (firstn_skipn n l). apply in_or_app. now right.
Qed.

Lemma dot_star_end_line (s : str) :
  has_char ch_newline s = false -> dot_star_end s = Some s.
Proof.
  induction s as [|x s IH]; [reflexivity|]. rewrite has_char_cons.
  cbn [dot_star_end]. intros H. apply orb_false_elim in H as [Hx Hs].
  rewrite N.eqb_sym in Hx. rewrite Hx. now rewrite (IH Hs).
Qed.

Lemma ascii_letter_plain (l : char) :
  ascii_letter l = true -> l <> ch_slash /\ l <> ch_backslash /\ l <> ch_dash.
Proof.
  unfold ascii_letter, ch_slash, ch_backslash, ch_dash. intros H.
  apply orb_prop in H as [H|H]; apply andb_prop in H as [H1 H2];
    apply N.leb_le in H1, H2; lia.
Qed.

Lemma ascii_upper_letter (l : char) :
  ascii_letter l = true -> ascii_upper l <> ch_slash.
Proof.
  unfold ascii_letter, ascii_upper, ch_slash. intros H.
  destruct ((97 <=? l) && (l <=? 122))%N eqn:E.
  - apply andb_prop in E as [E1 E2]. apply N.leb_le in E1, E2. lia.
  - apply orb_prop in H as [H|H]; [|congruence].
    apply andb_prop in H as [E1 E2]. apply N.leb_le in E1, E2. lia.
Qed.

Lemma match_mnt_letter (s : str) (l : char) (rest : str) :
  match_mnt s = Some (l, rest) -> ascii_letter l = true.
Proof.
  unfold match_mnt. destruct (starts_with _ s); [|discriminate].
  destruct (skipn 5 s) as [|l0 [|c t]]; try discriminate.
  destruct (ascii_letter l0) eqn:E; [|discriminate].
  destruct (c =? ch_slash)%N; [|discriminate].
  destruct (dot_star_end t); [|discriminate]. cbn. intros H.
  now injection H as <- _.
Qed.

Lemma match_drive_dash_group (s : str) (l : char) (g : str) :
  match_drive_dash s = Some (l, g) ->
  ascii_letter l = true /\ forall c, In c g -> In c s.
Proof.
  unfold match_drive_dash. destruct s as [|l0 s']; [discriminate|].
  destruct (ascii_letter l0) eqn:E; [|discriminate].
  destruct (starts_with _ s'); [|discriminate]. cbn [andb].
  destruct (nonempty _ && _); [|discriminate]. intros H. injection H as <- <-.
  split; [assumption|]. intros c Hc. right. exact (@In_skipn _ 3 s' c Hc).
Qed.

(** ** PathLabelDecoder: a working directory *)

(** X19.  The path [_to_windows_path_display] shows never holds a forward
    slash, whatever it is given. *)
Theorem windows_path_without_slash (path_str : str) :
  has_char ch_slash (_to_windows_path_display path_str) = false.
Proof.
  apply has_char_false. unfold _to_windows_path_display.
  destruct (nonempty (strip path_str)); cbn [negb]; [|intros []].
  assert (Hrep : forall s, ~ In ch_slash (replace_char ch_slash ch_backslash s)).
  { intros s. now apply replace_char_free. }
  destruct (match_mnt (strip path_str)) as [[l rest]|] eqn:Hm.
  - apply match_mnt_letter in Hm.
    assert (Hgoal : ~ In ch_slash
                      ([ascii_upper l] ++ [ch_colon; ch_backslash]
                       ++ replace_char ch_slash ch_backslash rest)).
    { intros Hin. apply in_app_or in Hin as [[Hin|[]]|Hin].
      - now apply ascii_upper_letter in Hm.
      - apply in_app_or in Hin as [[Hin|[Hin|[]]]|Hin]; try discriminate.
        now apply Hrep in Hin. }
    destruct (nonempty _); [exact Hgoal|].
    intros Hin. apply Hgoal. apply in_app_or in Hin as [Hin|Hin];
      apply in_or_app; [now left|right]. apply in_or_app. now left.
  - destruct (match_drive_dash _) as [[l g2]|] eqn:Hd; [|apply Hrep].
    apply match_drive_dash_group in Hd as [Hl Hg].
    assert (Htail : ~ In ch_slash
                      (join [ch_backslash] (filter nonempty (split ch_dash g2)))).
    { intros Hin. apply join_chars in Hin as [[Hin|[]]|(p & Hp & Hc)];
        [discriminate|].
      apply filter_In in Hp as [Hp _].
      apply (Hrep (strip path_str)), Hg.
      exact (@split_chars ch_dash g2 p ch_slash Hp Hc). }
    assert (Hdrive : ~ In ch_slash ([ascii_upper l; ascii_upper ch_colon]
                                    ++ [ch_backslash])).
    { intros [Hin|[Hin|[Hin|[]]]]; try discriminate.
      now apply ascii_upper_letter in Hl. }
    destruct (nonempty _); [|exact Hdrive].
    intros Hin. rewrite app_assoc in Hin. apply in_app_or in Hin as [Hin|Hin];
      [now apply Hdrive|now apply Htail].
Qed.

(** ** Segments *)

Lemma split_segment (sep : char) (seg : str) :
  has_char sep seg = false -> split sep seg = [seg].
Proof.
  induction seg as [|c seg IH]; [reflexivity|]. rewrite has_char_cons.
  cbn [split]. intros H. apply orb_false_elim in H as [Hc Hseg].
  rewrite N.eqb_sym in Hc. rewrite Hc. now rewrite (IH Hseg).
Qed.

Lemma split_app (sep : char) (seg t : str) :
  has_char sep seg = false -> split sep (seg ++ sep :: t) = seg :: split sep t.
Proof.
  induction seg as [|c seg IH]; [|rewrite has_char_cons]; cbn [split app].
  - intros _. now rewrite N.eqb_refl.
  - intros H. apply orb_false_elim in H as [Hc Hseg]. rewrite N.eqb_sym in Hc.
    rewrite Hc. now rewrite (IH Hseg).
Qed.

(** Splitting at the separator gives back the segments that were joined. *)
Lemma split_join (sep : char) (segs : list str) :
  segs <> [] ->
  forallb (fun seg => negb (has_char sep seg)) segs = true ->
  split sep (join [sep] segs) = segs.
Proof.
  induction segs as [|seg segs IH]; [congruence|]. intros _ H.
  cbn [forallb] in H. apply andb_prop in H as [Hseg Hsegs].
  apply negb_true_iff in Hseg. destruct segs as [|q segs].
  - now apply split_segment.
  - rewrite join_cons. cbn [app]. rewrite split_app by assumption. f_equal.
    apply IH; [discriminate|assumption].
Qed.

Lemma slug_char_spec (c : char) :
  slug_char c = true ->
  c <> ch_dash /\ c <> ch_slash /\ c <> ch_backslash /\ isspace c = false.
Proof.
  unfold slug_char. intros H.
  apply andb_prop in H as [H H4]. apply andb_prop in H as [H H3].
  apply andb_prop in H as [H1 H2].
  apply negb_true_iff in H1, H2, H3, H4. apply N.eqb_neq in H1, H2, H3.
  tauto.
Qed.

Lemma slug_segment_free (c : char) (seg : str) :
  (c = ch_dash \/ c = ch_slash \/ c = ch_backslash) ->
  slug_segment seg = true -> has_char c seg = false.
Proof.
  intros Hc H. unfold slug_segment in H. apply andb_prop in H as [_ H].
  induction seg as [|x seg IH]; [reflexivity|]. cbn [forallb] in H.
  apply andb_prop in H as [Hx Hseg]. rewrite has_char_cons.
  apply slug_char_spec in Hx as (H1 & H2 & H3 & _).
  rewrite (IH Hseg), orb_false_r. apply N.eqb_neq. intuition congruence.
Qed.

Lemma join_free (c sep : char) (segs : list str) :
  c <> sep ->
  forallb (fun seg => negb (has_char c seg)) segs = true ->
  has_char c (join [sep] segs) = false.
Proof.
  intros Hc. induction segs as [|seg segs IH]; [reflexivity|]. intros H.
  cbn [forallb] in H. apply andb_prop in H as [Hseg Hsegs].
  apply negb_true_iff in Hseg. destruct segs as [|q segs]; [assumption|].
  rewrite join_cons, !has_char_app, Hseg, (IH Hsegs), (has_char_cons _ _ []).
  cbn [has_char existsb orb]. rewrite !orb_false_r. now apply N.eqb_neq.
Qed.

Lemma segments_free (c : char) (segs : list str) :
  (c = ch_dash \/ c = ch_slash \/ c = ch_backslash) ->
  forallb slug_segment segs = true ->
  forallb (fun seg => negb (has_char c seg)) segs = true.
Proof.
  intros Hc H. rewrite forallb_forall in *. intros seg Hseg.
  apply negb_true_iff. apply slug_segment_free; [assumption|now apply H].
Qed.

Lemma segments_nonempty (segs : list str) :
  forallb slug_segment segs = true -> filter nonempty segs = segs.
Proof.
  induction segs as [|seg segs IH]; [reflexivity|]. cbn [forallb filter].
  intros H. apply andb_prop in H as [Hseg Hsegs]. unfold slug_segment in Hseg.
  apply andb_prop in Hseg as [-> _]. now rewrite IH.
Qed.

Lemma join_nonempty (sep : str) (segs : list str) :
  segs <> [] -> forallb slug_segment segs = true ->
  nonempty (join sep segs) = true.
Proof.
  destruct segs as [|seg segs]; [congruence|]. intros _ H. cbn [forallb] in H.
  apply andb_prop in H as [Hseg _]. unfold slug_segment in Hseg.
  apply andb_prop in Hseg as [Hne _].
  destruct seg; [discriminate|]. now destruct segs.
Qed.

Lemma lstrip_char_dashes (n : nat) (c : char) (s : str) :
  c <> ch_dash ->
  lstrip_char ch_dash (repeat ch_dash n ++ c :: s) = c :: s.
Proof.
  intros Hc. induction n as [|n IH]; cbn [repeat app lstrip_char].
  - apply N.eqb_neq in Hc. now rewrite Hc.
  - now rewrite N.eqb_refl.
Qed.

Lemma lstrip_char_all (c : char) (s : str) :
  forallb (N.eqb c) s = true -> lstrip_char c s = [].
Proof.
  induction s as [|x s IH]; [reflexivity|]. cbn [forallb lstrip_char].
  intros H. apply andb_prop in H as [Hx Hs]. rewrite N.eqb_sym in Hx.
  now rewrite Hx, IH.
Qed.

(** X20.  A drive letter followed by a separator and a tail of segments
    joined by dashes, [<letter>:\-a-b-c], is shown as the path of these
    segments on the drive, [<LETTER>:\a\b\c]. *)
Theorem drive_dash_path (path_str : str) (l sep : char) (segs : list str) :
  strip path_str = l :: ch_colon :: sep :: ch_dash :: join [ch_dash] segs ->
  ascii_letter l = true ->
  sep = ch_slash \/ sep = ch_backslash ->
  segs <> [] ->
  forallb slug_segment segs = true ->
  _to_windows_path_display path_str
  = ascii_upper l :: ch_colon :: ch_backslash :: join [ch_backslash] segs.
Proof.
  intros Hs Hl Hsep Hne Hsegs. unfold _to_windows_path_display. rewrite Hs.
  cbn [nonempty negb].
  destruct (ascii_letter_plain _ Hl) as (Hl1 & Hl2 & Hl3).
  assert (Hmnt : match_mnt (l :: ch_colon :: sep :: ch_dash :: join [ch_dash] segs)
                 = None).
  { unfold match_mnt. change (lit "/mnt/") with (ch_slash :: lit "mnt/").
    cbn [starts_with]. rewrite N.eqb_sym.
    apply N.eqb_neq in Hl1. now rewrite Hl1. }
  rewrite Hmnt.
  assert (Hconv : replace_char ch_slash ch_backslash
                    (l :: ch_colon :: sep :: ch_dash :: join [ch_dash] segs)
                  = l :: ch_colon :: ch_backslash :: ch_dash
                    :: join [ch_dash] segs).
  { cbn [replace_char map]. apply N.eqb_neq in Hl1. rewrite Hl1.
    change (ch_colon =? ch_slash)%N with false.
    change (ch_dash =? ch_slash)%N with false. cbn iota.
    fold (replace_char ch_slash ch_backslash (join [ch_dash] segs)).
    rewrite replace_char_absent
      by (apply join_free; [discriminate|apply segments_free; [tauto|assumption]]).
    destruct Hsep as [-> | ->]; reflexivity. }
  rewrite Hconv. unfold match_drive_dash. rewrite Hl.
  change (starts_with [ch_colon; ch_backslash; ch_dash]
            (ch_colon :: ch_backslash :: ch_dash :: join [ch_dash] segs))
    with true.
  cbn [andb skipn].
  rewrite (join_nonempty [ch_dash] Hne Hsegs).
  rewrite (@join_free ch_backslash ch_dash segs)
    by (first [discriminate | apply segments_free; [tauto|assumption]]).
  cbn [andb negb].
  rewrite split_join
    by (first [assumption | apply segments_free; [tauto|assumption]]).
  rewrite segments_nonempty by assumption.
  rewrite (join_nonempty [ch_backslash] Hne Hsegs). reflexivity.
Qed.

Section LabelProperties.

Context {L : PyLib} {C : PyCase}.

(** X21.  A working directory [/mnt/<letter>/<rest>] on one line decides
    the label, whatever the slug: the label is [<LETTER>:\<rest>], with
    the forward slashes of [<rest>] turned into backslashes. *)
Theorem label_of_mounted_cwd (slug cwd : str) (l : char) (rest : str) :
  strip cwd = lit "/mnt/" ++ l :: ch_slash :: rest ->
  ascii_letter l = true ->
  has_char ch_newline rest = false ->
  _project_display_label slug cwd
  = ascii_upper l :: ch_colon :: ch_backslash
    :: replace_char ch_slash ch_backslash rest.
Proof.
  intros Hs Hl Hrest. unfold _project_display_label, _to_windows_path_display.
  rewrite Hs. cbn [lit list_ascii_of_string map app nonempty negb].
  unfold match_mnt.
  change (starts_with (lit "/mnt/") _) with
    (starts_with (lit "/mnt/") (lit "/mnt/" ++ l :: ch_slash :: rest)).
  rewrite starts_with_app. cbn [skipn]. rewrite Hl, N.eqb_refl. cbn [andb].
  rewrite (dot_star_end_line _ Hrest). cbn [option_map].
  destruct (replace_char ch_slash ch_backslash rest); reflexivity.
Qed.

(** The label of a slug of leading dashes and two segments or more, each
    without a separator and without white space. *)
Lemma slug_parts (slug : str) (n : nat) (segs : list str) :
  strip slug = repeat ch_dash n ++ join [ch_dash] segs ->
  (2 <= length segs)%nat ->
  forallb slug_segment segs = true ->
  _decode_project_slug_to_windows_path slug
  = if (3 <=? len segs)%Z
       && str_eqb (str_lower (nth 0 segs [])) (lit "mnt")
       && (len (nth 1 segs []) =? 1)%Z
       && str_isalpha (nth 1 segs [])
    then drive_path (str_upper (nth 1 segs []))
           (join [ch_backslash] (skipn 2 segs))
    else if (len (nth 0 segs []) =? 1)%Z && str_isalpha (nth 0 segs [])
    then drive_path (str_upper (nth 0 segs []))
           (join [ch_backslash] (skipn 1 segs))
    else join [ch_backslash] segs.
Proof.
  intros Hs Hlen Hsegs. unfold _decode_project_slug_to_windows_path. rewrite Hs.
  destruct segs as [|p [|q segs]]; try (cbn in Hlen; lia).
  destruct p as [|c seg]; [cbn in Hsegs; discriminate|].
  assert (Hc : slug_char c = true).
  { cbn in Hsegs. apply andb_prop in Hsegs as [H _].
    now apply andb_prop in H as [H _]. }
  apply slug_char_spec in Hc as (Hc1 & Hc2 & Hc3 & Hc4).
  set (segs' := (c :: seg) :: q :: segs) in *.
  assert (Hjoin : join [ch_dash] segs'
                  = c :: (seg ++ [ch_dash] ++ join [ch_dash] (q :: segs)))
    by reflexivity.
  assert (Hne : nonempty (repeat ch_dash n ++ join [ch_dash] segs') = true).
  { rewrite Hjoin. now destruct n. }
  rewrite Hne. cbn [negb].
  rewrite !has_char_app.
  rewrite (@has_char_repeat ch_slash ch_dash n) by discriminate.
  rewrite (@has_char_repeat ch_backslash ch_dash n) by discriminate.
  rewrite (@join_free ch_slash ch_dash segs')
    by (first [discriminate | apply segments_free; [tauto|assumption]]).
  rewrite (@join_free ch_backslash ch_dash segs')
    by (first [discriminate | apply segments_free; [tauto|assumption]]).
  assert (Hdash : has_char ch_dash (join [ch_dash] segs') = true).
  { rewrite Hjoin, has_char_cons, !has_char_app, (has_char_cons _ _ []).
    rewrite N.eqb_refl. cbn [orb]. now rewrite !orb_true_r. }
  rewrite Hdash, orb_true_r. cbn [orb negb].
  rewrite Hjoin, lstrip_char_dashes by assumption. rewrite <- Hjoin.
  rewrite split_join
    by (first [discriminate | apply segments_free; [tauto|assumption]]).
  rewrite segments_nonempty by assumption.
  cbn [nonempty negb].
  assert (H2 : (2 <=? len segs')%Z = true).
  { apply Z.leb_le. unfold len. cbn [length segs']. lia. }
  rewrite H2. reflexivity.
Qed.

Lemma drive_path_nonempty (drive tail : str) :
  nonempty tail = true ->
  drive_path drive tail = drive ++ [ch_colon; ch_backslash] ++ tail.
Proof. unfold drive_path. now intros ->. Qed.

(** X22.  A slug of leading dashes, a segment of one letter and further
    segments, [-c-users-me], is decoded to the path of the further
    segments on the drive of that letter, [C:\users\me]. *)
Theorem slug_with_drive (slug : str) (n : nat) (l : char) (segs : list str) :
  strip slug = repeat ch_dash n ++ join [ch_dash] ([l] :: segs) ->
  segs <> [] ->
  forallb slug_segment ([l] :: segs) = true ->
  str_isalpha [l] = true ->
  str_lower [l] <> lit "mnt" ->
  _decode_project_slug_to_windows_path slug
  = str_upper [l] ++ [ch_colon; ch_backslash] ++ join [ch_backslash] segs.
Proof.
  intros Hs Hne Hsegs Halpha Hlow.
  rewrite (@slug_parts slug n _ Hs);
    [|destruct segs; [congruence|cbn; lia]|assumption].
  cbn [nth skipn].
  assert (Hmnt : str_eqb (str_lower [l]) (lit "mnt") = false).
  { destruct (str_eqb _ _) eqn:E; [|reflexivity]. now apply str_eqb_eq in E. }
  rewrite Hmnt, andb_false_r. cbn [andb]. rewrite Halpha.
  change (len [l] =? 1)%Z with true. cbn [andb].
  apply drive_path_nonempty. apply join_nonempty; [assumption|].
  cbn [forallb] in Hsegs. now apply andb_prop in Hsegs as [_ H].
Qed.

(** X23.  A slug of leading dashes, a segment that is [mnt] up to case, a
    segment of one letter and further segments, [-mnt-c-Users-me], is
    decoded to the path of the further segments on the drive of that
    letter, [C:\Users\me]. *)
Theorem slug_with_mount (slug : str) (n : nat) (m : str) (l : char)
    (segs : list str) :
  strip slug = repeat ch_dash n ++ join [ch_dash] (m :: [l] :: segs) ->
  segs <> [] ->
  forallb slug_segment (m :: [l] :: segs) = true ->
  str_lower m = lit "mnt" ->
  str_isalpha [l] = true ->
  _decode_project_slug_to_windows_path slug
  = str_upper [l] ++ [ch_colon; ch_backslash] ++ join [ch_backslash] segs.
Proof.
  intros Hs Hne Hsegs Hm Halpha.
  rewrite (@slug_parts slug n _ Hs); [|cbn; lia|assumption].
  cbn [nth skipn]. rewrite Hm, Halpha.
  assert (H3 : (3 <=? len (m :: [l] :: segs))%Z = true).
  { apply Z.leb_le. destruct segs; [congruence|]. unfold len. cbn [length]. lia. }
  rewrite H3. change (str_eqb (lit "mnt") (lit "mnt")) with true.
  change (len [l] =? 1)%Z with true. cbn [andb].
  apply drive_path_nonempty. apply join_nonempty; [assumption|].
  cbn [forallb] in Hsegs. apply andb_prop in Hsegs as [_ H].
  now apply andb_prop in H as [_ H].
Qed.

(** X24.  A slug of leading dashes and segments whose first is neither
    one character long nor [mnt] up to case, [-home-me-proj], is decoded
    to its segments joined by backslashes, [home\me\proj]: the leading
    dashes leave no trace, so the root of a path is lost. *)
Theorem slug_without_drive (slug : str) (n : nat) (seg : str)
    (segs : list str) :
  strip slug = repeat ch_dash n ++ join [ch_dash] (seg :: segs) ->
  segs <> [] ->
  forallb slug_segment (seg :: segs) = true ->
  (len seg <> 1)%Z ->
  str_lower seg <> lit "mnt" ->
  _decode_project_slug_to_windows_path slug
  = join [ch_backslash] (seg :: segs).
Proof.
  intros Hs Hne Hsegs Hlen Hlow.
  rewrite (@slug_parts slug n _ Hs);
    [|destruct segs; [congruence|cbn; lia]|assumption].
  cbn [nth].
  assert (Hmnt : str_eqb (str_lower seg) (lit "mnt") = false).
  { destruct (str_eqb _ _) eqn:E; [|reflexivity]. now apply str_eqb_eq in E. }
  rewrite Hmnt, andb_false_r. cbn [andb].
  apply Z.eqb_neq in Hlen. now rewrite Hlen.
Qed.

(** X25.  A slug that holds a slash or a backslash, or no dash, or
    nothing but dashes, is returned as it is, without the white space
    around it. *)
Theorem slug_returned_as_is (slug : str) :
  has_char ch_slash (strip slug) || has_char ch_backslash (strip slug)
  || negb (has_char ch_dash (strip slug))
  || forallb (N.eqb ch_dash) (strip slug) = true ->
  _decode_project_slug_to_windows_path slug = strip slug.
Proof.
  intros H. unfold _decode_project_slug_to_windows_path.
  destruct (nonempty (strip slug)) eqn:Hne; cbn [negb].
  2:{ apply nonempty_false in Hne. now rewrite Hne. }
  destruct (has_char ch_slash (strip slug) || has_char ch_backslash (strip slug)
            || negb (has_char ch_dash (strip slug))); [reflexivity|].
  cbn [orb] in H. now rewrite (@lstrip_char_all _ _ H).
Qed.

End LabelProperties.

(* ================================================================== *)
(** * The properties of the parts on examples *)
(* ================================================================== *)

(** A dict and the same dict with its first two entries exchanged: the
    text comes before the content either way. *)
Lemma text_keys_before_key_order_witness :
  Permutation
    [(lit "content", JStr (lit "second")); (lit "text", JStr (lit " first "));
     (lit "id", JStr (lit "x"))]
    [(lit "text", JStr (lit " first ")); (lit "content", JStr (lit "second"));
     (lit "id", JStr (lit "x"))]
  /\ _extract_text_recursive
       (JDict [(lit "content", JStr (lit "second"));
               (lit "text", JStr (lit " first "));
               (lit "id", JStr (lit "x"))])
     = _extract_text_recursive
         (JDict [(lit "text", JStr (lit " first "));
                 (lit "content", JStr (lit "second"));
                 (lit "id", JStr (lit "x"))]).
Proof.
  assert (Hp : Permutation
                 [(lit "content", JStr (lit "second"));
                  (lit "text", JStr (lit " first "));
                  (lit "id", JStr (lit "x"))]
                 [(lit "text", JStr (lit " first "));
                  (lit "content", JStr (lit "second"));
                  (lit "id", JStr (lit "x"))]).
  { apply perm_swap. }
  split; [exact Hp|].
  apply (text_keys_before_key_order Hp).
  - vm_compute. repeat (constructor; [cbn; intuition discriminate|]).
    constructor.
  - repeat constructor.
Defined.

(** A record whose [role] is [developer]. *)
Lemma developer_only_from_role_fields_witness :
  @_guess_role RefLib (JDict [(lit "role", JStr (lit "developer"))]) = RDeveloper
  /\ (@message_role RefLib [(lit "role", JStr (lit "developer"))]
      = Some RDeveloper
      \/ @first_role RefLib [(lit "role", JStr (lit "developer"))]
           [lit "role"; lit "sender"; lit "author"] = Some RDeveloper).
Proof.
  assert (H : @_guess_role RefLib (JDict [(lit "role", JStr (lit "developer"))])
              = RDeveloper).
  { vm_compute. reflexivity. }
  split; [exact H|].
  exact (@developer_only_from_role_fields RefLib _ H).
Defined.

(** The JSON form of an object is never empty. *)
Lemma ref_dumps_dict_nonempty (d : list (list N * json)) :
  @json_dumps RefLib (JDict d) <> [].
Proof. cbn. discriminate. Qed.

(** The events of the session of two records. *)
Lemma cli_events_have_text_witness :
  @load_cli_events RefLib two_line_session = Ok two_line_loaded
  /\ Forall (fun ev => text ev <> []) (events two_line_loaded).
Proof.
  split; [exact two_line_session_loads|].
  exact (@cli_events_have_text RefLib two_line_session two_line_loaded
           ref_dumps_dict_nonempty two_line_session_loads).
Defined.

(** A drive followed by a tail of three segments. *)
Lemma drive_dash_path_witness :
  strip (lit " c:\-Users-me-proj")
  = 99%N :: ch_colon :: ch_backslash :: ch_dash
    :: join [ch_dash] [lit "Users"; lit "me"; lit "proj"]
  /\ _to_windows_path_display (lit " c:\-Users-me-proj")
     = lit "C:\Users\me\proj".
Proof.
  assert (H : strip (lit " c:\-Users-me-proj")
              = 99%N :: ch_colon :: ch_backslash :: ch_dash
                :: join [ch_dash] [lit "Users"; lit "me"; lit "proj"]).
  { vm_compute. reflexivity. }
  split; [exact H|].
  apply (@drive_dash_path (lit " c:\-Users-me-proj") 99%N ch_backslash
           [lit "Users"; lit "me"; lit "proj"] H).
  - reflexivity.
  - now right.
  - discriminate.
  - reflexivity.
Defined.

(** A working directory under [/mnt/c], with a slug that would give another
    label. *)
Lemma label_of_mounted_cwd_witness :
  strip (lit "/mnt/c/Users/me") = lit "/mnt/" ++ 99%N :: ch_slash :: lit "Users/me"
  /\ @_project_display_label RefLib AsciiCase (lit "-home-me-proj")
       (lit "/mnt/c/Users/me")
     = lit "C:\Users\me".
Proof.
  assert (H : strip (lit "/mnt/c/Users/me")
              = lit "/mnt/" ++ 99%N :: ch_slash :: lit "Users/me").
  { vm_compute. reflexivity. }
  split; [exact H|].
  apply (@label_of_mounted_cwd RefLib AsciiCase (lit "-home-me-proj")
           (lit "/mnt/c/Users/me") 99%N (lit "Users/me") H).
  - reflexivity.
  - reflexivity.
Defined.

(** The slug of a path on the drive [c]. *)
Lemma slug_with_drive_witness :
  strip (lit "-c-users-me-proj")
  = repeat ch_dash 1 ++ join [ch_dash] [[99%N]; lit "users"; lit "me"; lit "proj"]
  /\ @_decode_project_slug_to_windows_path RefLib AsciiCase
       (lit "-c-users-me-proj")
     = lit "C:\users\me\proj".
Proof.
  assert (H : strip (lit "-c-users-me-proj")
              = repeat ch_dash 1
                ++ join [ch_dash] [[99%N]; lit "users"; lit "me"; lit "proj"]).
  { vm_compute. reflexivity. }
  split; [exact H|].
  apply (@slug_with_drive RefLib AsciiCase (lit "-c-users-me-proj") 1 99%N
           [lit "users"; lit "me"; lit "proj"] H).
  - discriminate.
  - reflexivity.
  - reflexivity.
  - vm_compute. discriminate.
Defined.

(** The slug of a path under [/mnt/c]. *)
Lemma slug_with_mount_witness :
  strip (lit "-mnt-c-Users-me")
  = repeat ch_dash 1 ++ join [ch_dash] [lit "mnt"; [99%N]; lit "Users"; lit "me"]
  /\ @_decode_project_slug_to_windows_path RefLib AsciiCase
       (lit "-mnt-c-Users-me")
     = lit "C:\Users\me".
Proof.
  assert (H : strip (lit "-mnt-c-Users-me")
              = repeat ch_dash 1
                ++ join [ch_dash] [lit "mnt"; [99%N]; lit "Users"; lit "me"]).
  { vm_compute. reflexivity. }
  split; [exact H|].
  apply (@slug_with_mount RefLib AsciiCase (lit "-mnt-c-Users-me") 1 (lit "mnt")
           99%N [lit "Users"; lit "me"] H).
  - discriminate.
  - reflexivity.
  - reflexivity.
  - reflexivity.
Defined.

(** The slug of a path under [/home]. *)
Lemma slug_without_drive_witness :
  strip (lit "-home-me-proj")
  = repeat ch_dash 1 ++ join [ch_dash] [lit "home"; lit "me"; lit "proj"]
  /\ @_decode_project_slug_to_windows_path RefLib AsciiCase (lit "-home-me-proj")
     = lit "home\me\proj".
Proof.
  assert (H : strip (lit "-home-me-proj")
              = repeat ch_dash 1
                ++ join [ch_dash] [lit "home"; lit "me"; lit "proj"]).
  { vm_compute. reflexivity. }
  split; [exact H|].
  apply (@slug_without_drive RefLib AsciiCase (lit "-home-me-proj") 1
           (lit "home") [lit "me"; lit "proj"] H).
  - discriminate.
  - reflexivity.
  - vm_compute. discriminate.
  - vm_compute. discriminate.
Defined.

(** A name without a dash, and a relative path. *)
Lemma slug_returned_as_is_witness :
  @_decode_project_slug_to_windows_path RefLib AsciiCase (lit " my_project ")
  = lit "my_project"
  /\ @_decode_project_slug_to_windows_path RefLib AsciiCase (lit "a-b/c-d")
     = lit "a-b/c-d".
Proof.
  split.
  - apply (@slug_returned_as_is RefLib AsciiCase (lit " my_project ")).
    reflexivity.
  - apply (@slug_returned_as_is RefLib AsciiCase (lit "a-b/c-d")).
    reflexivity.
Defined.

(** An ISO 8601 instant, with white space around it. *)
Lemma iso_text_passes_through_witness :
  In 45%N (strip (lit " 2024-01-02T03:04:05Z "))
  /\ @_iso_from_ts RefLib (JStr (lit " 2024-01-02T03:04:05Z "))
     = lit "2024-01-02T03:04:05Z".
Proof.
  assert (H : In 45%N (strip (lit " 2024-01-02T03:04:05Z "))).
  { vm_compute. do 4 right. now left. }
  split; [exact H|].
  apply (@iso_text_passes_through RefLib (lit " 2024-01-02T03:04:05Z ") 45%N H).
  vm_compute. reflexivity.
Defined.
